(** * markov-strings: a shallow embedding of [dist/index.js]

    The development follows the source file top to bottom: the JavaScript
    values and string primitives the class relies on, the lodash helpers it
    calls, the [Markov] object with its constructor, [buildCorpusSync] and
    [generateSentenceSync], and then the properties of these functions.

    Conventions.
    - A JavaScript string is a [string]; its code units are the 8-bit
      characters of [ascii].
    - Numbers are integers of [Z]; [Math.ceil (a / b)] is computed exactly.
    - The plain object [this.corpus] is used as a map from state keys to
      arrays, and is a [gmap string (list Entry)]: its own properties and,
      under the key [__proto__], the array that an assignment has made its
      prototype, if any, which is what reading that key gives.  The
      prototype is met at three places.  The method of line 94 is found on
      it, unless the object has an own property [hasOwnProperty], an array,
      whose call raises a [TypeError]; and the method says of [__proto__]
      that it is no own property, whatever was assigned.  The assignment of
      line 105 creates an own property, unless the key is [__proto__]: then
      the array assigned becomes the prototype, in the place of an earlier
      one.  The reading of line 155 finds an own property or the array
      under [__proto__], or else something of which [_.sample] makes
      [undefined] as of a missing key: a function, the [length] of the
      array, or [Object.prototype].
    - A path element is an entry [{ words, refs }] and a score is an
      integer.  The one reading that would give something else is outside
      the embedding: with an array as the prototype, the key [0] inherits
      the first entry of that array, not an array of entries.
    - Object identity is a natural number carried by the object; an object
      that is created gets a number that no object held by the instance has.
    - [lodash.sample] draws from an oracle [rand : nat -> nat], consulted at
      an explicit position that is threaded through the generator; every
      theorem about generation holds for all oracles. *)

From Stdlib Require Import ZArith Ascii String List Lia Bool.
From stdpp Require Import base option list strings gmap fin_maps.

Local Open Scope string_scope.
Local Open Scope list_scope.
Local Open Scope Z_scope.

(** ** JavaScript values, errors and completions *)

(** The values that can occur as elements of the [data] array.  An object
    carries its identity and the value of its own [string] property, if it
    has one; it is an object that [_.cloneDeep] copies (not a function or an
    error object, which would be left as they are). *)
#[warnings="-register-all"]
Inductive JsValue : Type :=
| JUndefined
| JNull
| JNumber (n : Z)
| JString (s : string)
| JObject (ref : nat) (string_prop : option JsValue).

(** The errors the class can raise: the three [new Error(...)] of the source
    and the [TypeError] of the language for a property access on [undefined]
    or [null], or a call of something that is not a function. *)
Inductive JsError : Type :=
| InvalidCorpusItem     (* 'Objects in your corpus must have a "string" property' *)
| ModelNotBuilt         (* "Corpus is not built." *)
| GenerationExhausted   (* "Cannot build sentence with current corpus and options" *)
| TypeError.

Inductive Completion (A : Type) : Type :=
| Normal (a : A)
| Throw (e : JsError).
Arguments Normal {A} a.
Arguments Throw {A} e.

(** ** String primitives *)

Definition space : ascii := " "%char.

(** [s.split(" ")]: never empty, [""] splits into [[""]]. *)
Fixpoint split (s : string) : list string :=
  match s with
  | EmptyString => [EmptyString]
  | String c rest =>
      if Ascii.eqb c space then EmptyString :: split rest
      else match split rest with
           | w :: ws => String c w :: ws
           | [] => [String c EmptyString]
           end
  end.

(** [ws.join(" ")]. *)
Fixpoint join (ws : list string) : string :=
  match ws with
  | [] => EmptyString
  | [w] => w
  | w :: rest => w +:+ String space (join rest)
  end.

(** White space of [String.prototype.trim] among 8-bit code units:
    TAB, LF, VT, FF, CR, SP and NBSP. *)
Definition is_white_space (c : ascii) : bool :=
  let n := nat_of_ascii c in
  ((9 <=? n)%nat && (n <=? 13)%nat) || (n =? 32)%nat || (n =? 160)%nat.

Fixpoint trim_start (s : string) : string :=
  match s with
  | EmptyString => EmptyString
  | String c rest => if is_white_space c then trim_start rest else s
  end.

(** Drops the trailing white space: a character is kept when it is not white
    space or when something is kept after it. *)
Fixpoint trim_end (s : string) : string :=
  match s with
  | EmptyString => EmptyString
  | String c rest =>
      match trim_end rest with
      | EmptyString => if is_white_space c then EmptyString else String c EmptyString
      | kept => String c kept
      end
  end.

(** [s.trim()]. *)
Definition trim (s : string) : string := trim_end (trim_start s).

(** [s.split(" ").length], the number of tokens of [s]. *)
Definition token_count (s : string) : Z := Z.of_nat (length (split s)).

(** [s.length]. *)
Definition char_length (s : string) : Z := Z.of_nat (String.length s).

(** ** lodash helpers *)

(** [_.slice(array, start, end)] on integer bounds, after lodash's
    [baseSlice]: a negative [start] counts from the end (or is 0 when it
    reaches before the beginning), [end] is capped by the length and counts
    from the end when negative, and the result is empty when [start > end]. *)
Definition slice {A : Type} (array : list A) (start end_ : Z) : list A :=
  let len := Z.of_nat (length array) in
  let start := if start <? 0 then (if len <? - start then 0 else len + start) else start in
  let end_ := if len <? end_ then len else end_ in
  let end_ := if end_ <? 0 then end_ + len else end_ in
  let n := if end_ <? start then 0 else end_ - start in
  take (Z.to_nat n) (drop (Z.to_nat start) array).

(** SameValueZero, the comparison behind [_.includes] and [_.uniqBy]:
    primitives by value, objects by identity. *)
Definition same_value_zero (a b : JsValue) : bool :=
  match a, b with
  | JUndefined, JUndefined => true
  | JNull, JNull => true
  | JNumber x, JNumber y => Z.eqb x y
  | JString x, JString y => String.eqb x y
  | JObject r1 _, JObject r2 _ => Nat.eqb r1 r2
  | _, _ => false
  end.

(** [_.includes(array, value)]. *)
Definition includes (array : list JsValue) (value : JsValue) : bool :=
  existsb (same_value_zero value) array.

(** [_.sample(collection)]: an element at a random index, [undefined] (here
    [None]) for an empty or missing collection.  The index is the oracle's
    value reduced to the range of the array. *)
Definition sample {A : Type} (r : nat) (collection : list A) : option A :=
  collection !! (r mod length collection)%nat.

(** [_.property("string")], the iteratee of [_.uniqBy(..., "string")]:
    [undefined] on [null], [undefined] and on values without the property. *)
Definition string_of (v : JsValue) : JsValue :=
  match v with
  | JObject _ (Some p) => p
  | _ => JUndefined
  end.

(** [_.uniqBy(array, "string")]: keeps the first element of each class of
    elements with the same [string] property.  [seen] are the property
    values of the elements kept so far. *)
Fixpoint uniqBy_from (seen : list JsValue) (array : list JsValue) : list JsValue :=
  match array with
  | [] => []
  | v :: rest =>
      if includes seen (string_of v) then uniqBy_from seen rest
      else v :: uniqBy_from (seen ++ [string_of v]) rest
  end.

Definition uniqBy_string (array : list JsValue) : list JsValue := uniqBy_from [] array.

(** [_.isString(value)]. *)
Definition isString (v : JsValue) : bool :=
  match v with JString _ => true | _ => false end.

(** ** The data of the class *)

(** An element of [startWords], of [endWords] and of a chain of
    [corpus]: [{ words, refs }]. *)
Record Entry : Type := { words : string; refs : list JsValue }.

(** The value returned by [generateSentenceSync]:
    [{ string, score, scorePerWord, refs }]. *)
Module Result.
Record t : Type :=
  { string : String.string; score : Z; scorePerWord : Z; refs : list JsValue }.
End Result.

(** The merged options ([this.options], and [options] after line 143). A
    callback is present when [typeof] gives ["function"]. *)
Record MarkovOptions : Type :=
  { stateSize : Z;
    maxLength : Z;
    minWords : Z;
    maxWords : Z;
    minScore : Z;
    minScorePerWord : Z;
    maxTries : Z;
    checker : option (string -> bool);
    filter : option (Result.t -> bool) }.

(** An options object as a caller passes it: any property may be absent. *)
Record OptionsArg : Type :=
  { arg_stateSize : option Z;
    arg_maxLength : option Z;
    arg_minWords : option Z;
    arg_maxWords : option Z;
    arg_minScore : option Z;
    arg_minScorePerWord : option Z;
    arg_maxTries : option Z;
    arg_checker : option (string -> bool);
    arg_filter : option (Result.t -> bool) }.

(** [{}] *)
Definition no_options : OptionsArg :=
  {| arg_stateSize := None; arg_maxLength := None; arg_minWords := None;
     arg_maxWords := None; arg_minScore := None; arg_minScorePerWord := None;
     arg_maxTries := None; arg_checker := None; arg_filter := None |}.

(** [this.defaultOptions], lines 17-27. *)
Definition defaultOptions : MarkovOptions :=
  {| stateSize := 2; maxLength := 0; minWords := 0; maxWords := 0; minScore := 0;
     minScorePerWord := 0; maxTries := 10000; checker := None; filter := None |}.

(** [_.assignIn(object, source)]: the properties of [source] overwrite those
    of [object]. *)
Definition assignIn (object : MarkovOptions) (source : OptionsArg) : MarkovOptions :=
  {| stateSize := default (stateSize object) (arg_stateSize source);
     maxLength := default (maxLength object) (arg_maxLength source);
     minWords := default (minWords object) (arg_minWords source);
     maxWords := default (maxWords object) (arg_maxWords source);
     minScore := default (minScore object) (arg_minScore source);
     minScorePerWord := default (minScorePerWord object) (arg_minScorePerWord source);
     maxTries := default (maxTries object) (arg_maxTries source);
     checker := match arg_checker source with Some f => Some f | None => checker object end;
     filter := match arg_filter source with Some f => Some f | None => filter object end |}.

(** The fields of a [Markov] instance.  [corpus] is [None] when the field
    holds a falsy value, which is what the guard of line 137 tests. *)
Record Markov : Type :=
  { data : list JsValue;
    options : MarkovOptions;
    startWords : list Entry;
    endWords : list Entry;
    corpus : option (gmap string (list Entry)) }.

(** [_.cloneDeep(value)] on a value of [data]: an object is copied into a
    new object with copies of its properties; [fresh] is added to the
    identity, so that an object met twice has one copy. *)
Fixpoint cloneDeep_value (fresh : nat) (v : JsValue) : JsValue :=
  match v with
  | JObject r p =>
      JObject (fresh + r)
        (match p with Some q => Some (cloneDeep_value fresh q) | None => None end)
  | _ => v
  end.

Definition cloneDeep_entry (fresh : nat) (o : Entry) : Entry :=
  {| words := words o; refs := cloneDeep_value fresh <$> refs o |}.

(** [_.cloneDeep(this.corpus)]: the own properties, their arrays, the
    entries, their refs and the items in them are all copied.  The copy gets
    the prototype of the object, which is not copied; but it gets
    [Object.prototype] when [constructor] is an own property, since the
    value of that property, an array, is then no function. *)
Definition cloneDeep (fresh : nat) (c : gmap string (list Entry))
    : gmap string (list Entry) :=
  let copy := (fun chain : list Entry => cloneDeep_entry fresh <$> chain)
                <$> delete "__proto__" c in
  match c !! "__proto__" with
  | Some prototype =>
      if bool_decide (is_Some (c !! "constructor")) then copy
      else <["__proto__" := prototype]> copy
  | None => copy
  end.

(** ** The constructor, lines 13-40 *)

(** [value.hasOwnProperty("string")]. *)
Definition hasOwnProperty_string (value : JsValue) : Completion bool :=
  match value with
  | JUndefined | JNull => Throw TypeError
  | JNumber _ | JString _ => Normal false
  | JObject _ p => Normal (bool_decide (is_Some p))
  end.

(** The largest identity occurring in a value. *)
Fixpoint max_ref (v : JsValue) : nat :=
  match v with
  | JObject r p => Nat.max r (match p with Some q => max_ref q | None => 0%nat end)
  | _ => 0%nat
  end.

(** The largest identity occurring in a list of values, in the refs of a
    list of entries, and in a corpus. *)
Definition max_ref_list (l : list JsValue) : nat :=
  foldr Nat.max 0%nat (max_ref <$> l).

Definition max_ref_entries (entries : list Entry) : nat :=
  max_ref_list (concat (refs <$> entries)).

Definition max_ref_corpus (c : gmap string (list Entry)) : nat :=
  map_fold (fun _ chain n => Nat.max (max_ref_entries chain) n) 0%nat c.

(** [data.map(s => ({ string: s }))]: one new object per element, with an
    identity that no value of [data] has. *)
Definition wrap_strings (data : list JsValue) : list JsValue :=
  let fresh := S (foldr Nat.max 0%nat (max_ref <$> data)) in
  imap (fun i s => JObject (fresh + i) (Some s)) data.

(** [new Markov(data, options)].  [_checkOptions] only writes a warning to
    the debug channel and is left out. *)
Definition constructor (data : list JsValue) (opts : OptionsArg) : Completion Markov :=
  let first := default JUndefined (data !! 0%nat) in
  let new_instance d :=
    {| data := d; options := assignIn defaultOptions opts;
       startWords := []; endWords := []; corpus := Some ∅ |} in
  if isString first then Normal (new_instance (wrap_strings data))
  else match hasOwnProperty_string first with
       | Throw e => Throw e
       | Normal false => Throw InvalidCorpusItem
       | Normal true => Normal (new_instance data)
       end.

(** ** buildCorpusSync, lines 57-109 *)

(** Lines 61-62: [item.string.split(" ")].  A [TypeError] is raised when
    [item] is [null] or [undefined], and when its [string] is not a string
    (it has no [split] method). *)
Definition line_words (item : JsValue) : Completion (list string) :=
  match item with
  | JObject _ (Some (JString line)) => Normal (split line)
  | _ => Throw TypeError
  end.

(** Lines 66-74 and 77-85: find the entry for [key]; add [item] to its refs
    unless it is there already; without such an entry push a new one. *)
Fixpoint add_word (key : string) (item : JsValue) (entries : list Entry) : list Entry :=
  match entries with
  | [] => [{| words := key; refs := [item] |}]
  | o :: rest =>
      if String.eqb (words o) key
      then (if includes (refs o) item then o
            else {| words := words o; refs := refs o ++ [item] |}) :: rest
      else o :: add_word key item rest
  end.

(** Lines 96-102: find the entry for [next] in the chain of [curr] and push
    [item] on its refs; without such an entry push a new one. *)
Fixpoint add_next (next : string) (item : JsValue) (chain : list Entry) : list Entry :=
  match chain with
  | [] => [{| words := next; refs := [item] |}]
  | o :: rest =>
      if String.eqb (words o) next
      then {| words := words o; refs := refs o ++ [item] |} :: rest
      else o :: add_next next item rest
  end.

(** The body of the loop of lines 87-107 at index [i].  Line 94 calls
    what the object has under the name [hasOwnProperty]: the method of its
    prototype, or, once a chain has been written under that key, an array,
    which cannot be called.  The method never finds [__proto__] among the
    own properties, so that this key always goes to line 105, where the new
    array takes the place of what the key gave before. *)
Definition corpus_step (size : Z) (item : JsValue) (wds : list string)
    (c : gmap string (list Entry)) (i : Z) : Completion (gmap string (list Entry)) :=
  let curr := join (slice wds i (i + size)) in
  let next := join (slice wds (i + size) (i + size * 2)) in
  if String.eqb next "" || negb (token_count next =? size) then Normal c
  else match c !! "hasOwnProperty" with
       | Some _ => Throw TypeError
       | None =>
           let hasOwnProperty_curr :=
             if String.eqb curr "__proto__" then None else c !! curr in
           match hasOwnProperty_curr with
           | Some chain => Normal (<[curr := add_next next item chain]> c)
           | None => Normal (<[curr := [{| words := next; refs := [item] |}]]> c)
           end
       end.

(** The loop of lines 87-107 over the indices [idx]: it stops at the first
    step that raises, and keeps what the steps before it have written. *)
Fixpoint corpus_loop (size : Z) (item : JsValue) (wds : list string)
    (idx : list Z) (c : gmap string (list Entry))
    : gmap string (list Entry) * option JsError :=
  match idx with
  | [] => (c, None)
  | i :: rest =>
      match corpus_step size item wds c i with
      | Throw e => (c, Some e)
      | Normal c' => corpus_loop size item wds rest c'
      end
  end.

(** What [buildCorpusSync] updates. *)
Record BuildState : Type :=
  { b_startWords : list Entry;
    b_endWords : list Entry;
    b_corpus : gmap string (list Entry) }.

(** The callback of [forEach], lines 60-108, for an item with words [wds]:
    the start and end words are dealt with before the loop, so that they are
    written also when the loop raises. *)
Definition add_item (size : Z) (item : JsValue) (wds : list string)
    (st : BuildState) : BuildState * option JsError :=
  let len := Z.of_nat (length wds) in
  let start := join (slice wds 0 size) in
  let end_ := join (slice wds (len - size) len) in
  let run := corpus_loop size item wds (seqZ 0 (len - 1)) (b_corpus st) in
  ({| b_startWords := add_word start item (b_startWords st);
      b_endWords := add_word end_ item (b_endWords st);
      b_corpus := run.1 |}, run.2).
Arguments add_item : simpl never.

(** [this.data.forEach(...)]: stops at the first item that raises, and keeps
    what was written until then. *)
Fixpoint forEach_item (size : Z) (items : list JsValue) (st : BuildState)
    : BuildState * option JsError :=
  match items with
  | [] => (st, None)
  | item :: rest =>
      match line_words item with
      | Throw e => (st, Some e)
      | Normal wds =>
          match add_item size item wds st with
          | (st', Some e) => (st', Some e)
          | (st', None) => forEach_item size rest st'
          end
      end
  end.

(** [this.buildCorpusSync()]: the instance after the call, and the error
    raised, if any.  Line 59 resets [this.corpus]; [this.startWords] and
    [this.endWords] are not reset. *)
Definition buildCorpusSync (this : Markov) : Markov * option JsError :=
  let size := stateSize (options this) in
  let '(st, err) :=
    forEach_item size (data this)
      {| b_startWords := startWords this; b_endWords := endWords this; b_corpus := ∅ |} in
  ({| data := data this; options := options this;
      startWords := b_startWords st; endWords := b_endWords st;
      corpus := Some (b_corpus st) |}, err).

(** ** generateSentenceSync, lines 136-193 *)

(** A loop of the source: [body] either continues with a new state
    ([inl]) or leaves the loop with a value ([inr]); it may itself contain a
    loop, hence the [option].  [None] means that [fuel] iterations were not
    enough. *)
Fixpoint loop {S R : Type} (fuel : nat) (body : S -> option (S + R)) (s : S) : option R :=
  match fuel with
  | O => None
  | Datatypes.S fuel' =>
      match body s with
      | None => None
      | Some (inl s') => loop fuel' body s'
      | Some (inr r) => Some r
      end
  end.

(** [Math.ceil(a / b)] for integers, [b] positive. *)
Definition ceil_div (a b : Z) : Z := - ((- a) / b).

(** [_.some(entries, { words: w })]. *)
Definition some_words (entries : list Entry) (w : string) : bool :=
  existsb (fun o => String.eqb (words o) w) entries.

(** The variables of one attempt, and the position in the oracle. *)
Record WalkState : Type :=
  { arr : list Entry; score : Z; limit : Z; ended : bool; pos : nat }.

(** One turn of the loop of lines 153-170.  [corpus[block.words]] is an own
    property of the copy, or the array that is its prototype for the key
    [__proto__], or it is inherited from [Object.prototype]: a function, or
    that prototype itself; these have no enumerable property, and [_.sample]
    gives [undefined] for them as it does for a missing key. *)
Definition walk_body (rand : nat -> nat) (corpus : gmap string (list Entry))
    (endWords : list Entry) (max : Z) (w : WalkState)
    : option (WalkState + Completion WalkState) :=
  if limit w <? max then
    match last (arr w) with
    | None => Some (inr (Throw TypeError))
    | Some block =>
        match corpus !! words block ≫= sample (rand (pos w)) with
        | None => Some (inr (Normal w))
        | Some state =>
            let arr' := arr w ++ [state] in
            let score' := score w + (Z.of_nat (length (default [] (corpus !! words block))) - 1) in
            if some_words endWords (words state)
            then Some (inr (Normal {| arr := arr'; score := score'; limit := limit w;
                                      ended := true; pos := S (pos w) |}))
            else Some (inl {| arr := arr'; score := score'; limit := limit w + 1;
                              ended := ended w; pos := S (pos w) |})
        end
    end
  else Some (inr (Normal w)).

(** Lines 171-178: the result object composed from the variables of an
    attempt. *)
Definition compose (w : WalkState) : Result.t :=
  {| Result.string := trim (join (words <$> arr w));
     Result.score := score w;
     Result.scorePerWord := ceil_div (score w) (Z.of_nat (length (arr w)));
     Result.refs := uniqBy_string (concat (refs <$> arr w)) |}.

(** Lines 180-187: the condition under which the attempt is given up. *)
Definition rejected (options : MarkovOptions) (w : WalkState) (result : Result.t) : bool :=
  let sentence := Result.string result in
  negb (ended w)
  || match checker options with Some f => negb (f sentence) | None => false end
  || match filter options with Some f => negb (f result) | None => false end
  || (negb (minWords options =? 0) && (0 <? minWords options)
      && (token_count sentence <? minWords options))
  || (negb (maxWords options =? 0) && (0 <? maxWords options)
      && (maxWords options <? token_count sentence))
  || (negb (maxLength options =? 0) && (0 <? maxLength options)
      && (maxLength options <? char_length sentence))
  || (negb (minScore options =? 0) && (Result.score result <? minScore options))
  || (negb (minScorePerWord options =? 0)
      && (Result.scorePerWord result <? minScorePerWord options)).

(** The state of the loop of lines 147-191: the counter and the position in
    the oracle.  [tried] is a ghost variable, absent from the source: the
    final variables of the attempts completed so far. *)
Record TryState : Type := { i : Z; next_pos : nat; tried : list WalkState }.

(** What a call produces: its completion and the attempts it made. *)
Record Run : Type := { outcome : Completion Result.t; attempts : list WalkState }.

(** One turn of the loop of lines 147-191.  When [startWords] is empty
    [arr] is [[undefined]], and a [TypeError] follows in any case: from
    [block.words] at line 155 when the inner loop is entered, from
    [o.words] at line 172 when it is not. *)
Definition try_body (fuel : nat) (rand : nat -> nat) (this : Markov)
    (options : MarkovOptions) (corpus : gmap string (list Entry)) (max : Z)
    (t : TryState) : option (TryState + Run) :=
  if i t <? max then
    match sample (rand (next_pos t)) (startWords this) with
    | None => Some (inr {| outcome := Throw TypeError; attempts := tried t |})
    | Some first =>
        match loop fuel (walk_body rand corpus (endWords this) max)
                {| arr := [first]; score := 0; limit := 0; ended := false;
                   pos := S (next_pos t) |} with
        | None => None
        | Some (Throw e) => Some (inr {| outcome := Throw e; attempts := tried t |})
        | Some (Normal w) =>
            let result := compose w in
            if rejected options w result
            then Some (inl {| i := i t + 1; next_pos := pos w; tried := tried t ++ [w] |})
            else Some (inr {| outcome := Normal result; attempts := tried t ++ [w] |})
        end
    end
  else Some (inr {| outcome := Throw GenerationExhausted; attempts := tried t |}).

(** The first identity that no object held by the instance has. *)
Definition next_ref (this : Markov) : nat :=
  S (Nat.max (max_ref_list (data this))
       (Nat.max (max_ref_entries (startWords this))
          (Nat.max (max_ref_entries (endWords this))
             (match corpus this with Some c => max_ref_corpus c | None => 0%nat end)))).

(** [this.generateSentenceSync(options)].  The walks read the copy that
    line 144 makes of the corpus, and the start entries and end entries of
    the instance itself: the refs of the path elements that come from the
    own properties of the copy are copies of items. *)
Definition generateSentenceSync (fuel : nat) (rand : nat -> nat) (this : Markov)
    (opts : OptionsArg) : option Run :=
  match corpus this with
  | None => Some {| outcome := Throw ModelNotBuilt; attempts := [] |}
  | Some c =>
      let options := assignIn (options this) opts in
      let corpus := cloneDeep (next_ref this) c in
      let max := maxTries options in
      loop fuel (try_body fuel rand this options corpus max)
        {| i := 0; next_pos := 0; tried := [] |}
  end.

(** ** The asynchronous methods, lines 47-51 and 117-128 *)

(** A promise that is settled when the method returns: the executors of
    both methods run to their end at once. *)
Inductive Promise (A : Type) : Type :=
| Resolved (a : A)
| Rejected (e : JsError).
Arguments Resolved {A} a.
Arguments Rejected {A} e.

(** [this.buildCorpus()]: the executor resolves with what [buildCorpusSync]
    returns; an exception raised in an executor rejects the promise. *)
Definition buildCorpus (this : Markov) : Markov * Promise unit :=
  let '(this', err) := buildCorpusSync this in
  (this', match err with None => Resolved tt | Some e => Rejected e end).

(** [this.generateSentence(options)]: resolves with the result of
    [generateSentenceSync], rejects with what it raises. *)
Definition generateSentence (fuel : nat) (rand : nat -> nat) (this : Markov)
    (opts : OptionsArg) : option (Promise Result.t) :=
  match generateSentenceSync fuel rand this opts with
  | None => None
  | Some run =>
      Some (match outcome run with
            | Normal result => Resolved result
            | Throw e => Rejected e
            end)
  end.

(** ** Notions used in the statements *)

(** A word of a line has no space in it. *)
Fixpoint no_space (w : string) : Prop :=
  match w with
  | EmptyString => True
  | String c rest => c ≠ space ∧ no_space rest
  end.

(** Every key of a corpus and the [words] of every entry of its chains
    have [size] tokens. *)
Definition state_keys_of_size (size : Z) (c : gmap string (list Entry)) : Prop :=
  ∀ key chain, c !! key = Some chain →
    token_count key = size ∧ ∀ o, o ∈ chain → token_count (words o) = size.

(** The successor window of the loop of lines 87-107 at index [i]. *)
Definition next_window (size : Z) (wds : list string) (i : Z) : list string :=
  slice wds (i + size) (i + size * 2).

(** [entries.find(o => o.words === key)]. *)
Definition find_words (key : string) (entries : list Entry) : option Entry :=
  List.find (fun o => String.eqb (words o) key) entries.

(** [this.data = d], or the effect on [this.data] of the caller updating
    the array that was passed to the constructor and is shared with it. *)
Definition set_data (d : list JsValue) (this : Markov) : Markov :=
  {| data := d; options := options this; startWords := startWords this;
     endWords := endWords this; corpus := corpus this |}.

(** An instance whose [startWords] and [endWords] are empty, as they are
    before the first build. *)
Definition without_index (this : Markov) : Markov :=
  {| data := data this; options := options this; startWords := [];
     endWords := []; corpus := corpus this |}.

(** The entries available after state [o]: [corpus[o.words]], nothing when
    the key is missing. *)
Definition available (c : gmap string (list Entry)) (o : Entry) : list Entry :=
  default [] (c !! words o).

(** A path follows the corpus: each element after the first is one of the
    entries available after its predecessor. *)
Definition chain_path (c : gmap string (list Entry)) (path : list Entry) : Prop :=
  ∀ k o o', path !! k = Some o → path !! S k = Some o' → o' ∈ available c o.

(** The sum, over the steps of a path, of the number of entries available
    at the step minus 1.  A step is taken from every element but the last. *)
Definition walk_score (c : gmap string (list Entry)) (path : list Entry) : Z :=
  foldr Z.add 0 ((fun o => Z.of_nat (length (available c o)) - 1) <$> removelast path).

(** What holds of the variables of an attempt when its walk is over. *)
Definition walk_ok (this : Markov) (c : gmap string (list Entry)) (max : Z)
    (w : WalkState) : Prop :=
  (∃ first, head (arr w) = Some first ∧ first ∈ startWords this) ∧
  chain_path c (arr w) ∧
  score w = walk_score c (arr w) ∧
  Z.of_nat (length (arr w)) - 1 ≤ Z.max 0 max ∧
  (ended w = true →
     (2 ≤ length (arr w))%nat ∧
     ∃ o, last (arr w) = Some o ∧ some_words (endWords this) (words o) = true).

(** The invariant of the loop of lines 153-170, for a walk from [first]. *)
Definition walk_inv (c : gmap string (list Entry)) (max : Z) (first : Entry)
    (w : WalkState) : Prop :=
  head (arr w) = Some first ∧
  chain_path c (arr w) ∧
  score w = walk_score c (arr w) ∧
  Z.of_nat (length (arr w)) - 1 = limit w ∧
  limit w ≤ Z.max 0 max ∧
  ended w = false.

(** An attempt that was given up. *)
Definition given_up (options : MarkovOptions) (w : WalkState) : Prop :=
  rejected options w (compose w) = true.

(** The invariant of the loop of lines 147-191. *)
Definition try_inv (this : Markov) (options : MarkovOptions)
    (c : gmap string (list Entry)) (max : Z) (t : TryState) : Prop :=
  Forall (walk_ok this c max) (tried t) ∧
  Forall (given_up options) (tried t) ∧
  Z.of_nat (length (tried t)) = i t ∧
  i t ≤ Z.max 0 max ∧
  (startWords this = [] → tried t = []).

(** What holds of a call: every attempt ended well; a result returned is
    composed from the last attempt, the only one not given up; the call is
    exhausted after [max] attempts given up; a [TypeError] comes from an
    empty [startWords] at the first attempt; nothing else is raised. *)
Definition run_ok (this : Markov) (options : MarkovOptions)
    (c : gmap string (list Entry)) (max : Z) (run : Run) : Prop :=
  Forall (walk_ok this c max) (attempts run) ∧
  match outcome run with
  | Normal r =>
      ∃ ws w, attempts run = ws ++ [w] ∧ r = compose w ∧
              rejected options w r = false ∧
              Forall (given_up options) ws ∧ Z.of_nat (length ws) < max
  | Throw GenerationExhausted =>
      Forall (given_up options) (attempts run) ∧
      length (attempts run) = Z.to_nat max
  | Throw TypeError => startWords this = [] ∧ attempts run = [] ∧ 0 < max
  | Throw _ => False
  end.

(** The instance that [new Markov(...)] gives when it does not raise. *)
Definition instance_of (made : Completion Markov) : Markov :=
  match made with
  | Normal m => m
  | Throw _ => {| data := []; options := defaultOptions; startWords := [];
                  endWords := []; corpus := None |}
  end.

(** [new Markov(data)] followed by [buildCorpusSync()]. *)
Definition built_from (d : list JsValue) : Markov :=
  (buildCorpusSync (instance_of (constructor d no_options))).1.

(** The corpus of the scenario of the specification. *)
Definition cat_and_dog : list JsValue :=
  [JString "the cat sat on the mat"; JString "the dog sat on the rug"].

(** [v] is an object with an own [string] property. *)
Definition has_string_property (v : JsValue) : bool :=
  match v with JObject _ (Some _) => true | _ => false end.

(** An oracle that always draws the first element. *)
Definition first_choice : nat → nat := fun _ => 0%nat.

(** [{ maxTries: n }]. *)
Definition only_maxTries (n : Z) : OptionsArg :=
  {| arg_stateSize := None; arg_maxLength := None; arg_minWords := None;
     arg_maxWords := None; arg_minScore := None; arg_minScorePerWord := None;
     arg_maxTries := Some n; arg_checker := None; arg_filter := None |}.

(** The start and end keys of a line, lines 65 and 76. *)
Definition start_key (size : Z) (wds : list string) : string :=
  join (slice wds 0 size).

Definition end_key (size : Z) (wds : list string) : string :=
  join (slice wds (Z.of_nat (length wds) - size) (Z.of_nat (length wds))).

(** The entry of [key] refers to [item]. *)
Definition registered (key : string) (item : JsValue) (entries : list Entry) : Prop :=
  ∃ o, find_words key entries = Some o ∧ includes (refs o) item = true.

(** An item that the callback of [forEach] accepts: an object whose
    [string] is a string. *)
Definition well_formed (item : JsValue) : Prop :=
  ∃ ref line, item = JObject ref (Some (JString line)).

(** No item is twice in a list of refs, items being compared as
    [_.includes] compares them. *)
Definition distinct_items (l : list JsValue) : Prop :=
  ∀ j k a b, (j < k)%nat → l !! j = Some a → l !! k = Some b →
    same_value_zero a b = false.

(** A list of entries in which every key occurs once and every entry has
    refs, no item twice. *)
Definition index_ok (entries : list Entry) : Prop :=
  NoDup (words <$> entries) ∧
  ∀ o, o ∈ entries → refs o ≠ [] ∧ distinct_items (refs o).

(** Where a ref [x] of an entry [o] of [startWords] or [endWords] comes
    from: it was a ref of the entry of that key before the build, or it is an
    item of the data whose key, computed by [key_of], is the key of [o]. *)
Definition ref_origin (key_of : list string → string) (old : list Entry)
    (items : list JsValue) (o : Entry) (x : JsValue) : Prop :=
  (∃ o0, o0 ∈ old ∧ words o0 = words o ∧ x ∈ refs o0) ∨
  (x ∈ items ∧ ∃ wds, line_words x = Normal wds ∧ words o = key_of wds).

(** The words [wds] of a line have, from index [i] on, [size] words that
    join into [curr] followed by [size] words that join into [next], and
    [next] is not the empty string. *)
Definition transition_at (size : Z) (wds : list string) (i : Z)
    (curr next : string) : Prop :=
  0 ≤ i ∧ 1 ≤ size ∧ i + size * 2 ≤ Z.of_nat (length wds) ∧
  curr = join (slice wds i (i + size)) ∧
  next = join (next_window size wds i) ∧ next ≠ "".

(** The corpus has the transition from [curr] to [next] with [x] among its
    refs. *)
Definition has_transition (c : gmap string (list Entry)) (curr next : string)
    (x : JsValue) : Prop :=
  ∃ chain o, c !! curr = Some chain ∧ o ∈ chain ∧ words o = next ∧ x ∈ refs o.

(** Every chain of the corpus has entries, one for each successor, and
    every ref of an entry is one of [items], in whose line the transition
    occurs. *)
Definition corpus_from (size : Z) (items : list JsValue)
    (c : gmap string (list Entry)) : Prop :=
  ∀ curr chain, c !! curr = Some chain →
    chain ≠ [] ∧ NoDup (words <$> chain) ∧
    ∀ o, o ∈ chain →
      refs o ≠ [] ∧
      ∀ x, x ∈ refs o →
        x ∈ items ∧ ∃ wds i, line_words x = Normal wds ∧
                             transition_at size wds i curr (words o).

(** [options] with [stateSize] set to [size]. *)
Definition with_stateSize (size : Z) (opts : OptionsArg) : OptionsArg :=
  {| arg_stateSize := Some size; arg_maxLength := arg_maxLength opts;
     arg_minWords := arg_minWords opts; arg_maxWords := arg_maxWords opts;
     arg_minScore := arg_minScore opts;
     arg_minScorePerWord := arg_minScorePerWord opts;
     arg_maxTries := arg_maxTries opts; arg_checker := arg_checker opts;
     arg_filter := arg_filter opts |}.

(** The first and the last character of a string. *)
Definition first_char (s : string) : option ascii :=
  match s with
  | EmptyString => None
  | String c _ => Some c
  end.

Fixpoint last_char (s : string) : option ascii :=
  match s with
  | EmptyString => None
  | String c EmptyString => Some c
  | String _ rest => last_char rest
  end.

(** The number of spaces of a string. *)
Fixpoint count_spaces (s : string) : nat :=
  match s with
  | EmptyString => 0
  | String c rest => (if Ascii.eqb c space then 1 else 0) + count_spaces rest
  end.

(** A string of white space only. *)
Fixpoint all_white_space (s : string) : Prop :=
  match s with
  | EmptyString => True
  | String c rest => is_white_space c = true ∧ all_white_space rest
  end.

(** The [t]-th block of [size] words of a line, joined: the state that a
    walk along the line is in after [t] steps. *)
Definition chunk (size : Z) (wds : list string) (t : nat) : string :=
  join (slice wds (Z.of_nat t * size) (Z.of_nat t * size + size)).

(** The invariant of the loop of lines 153-170 that tells why a walk is
    over: while the loop goes on, no element of the path after the first is
    an end state. *)
Definition walk_unended (endWords : list Entry) (max : Z) (w : WalkState) : Prop :=
  arr w ≠ [] ∧ ended w = false ∧
  Z.of_nat (length (arr w)) - 1 = limit w ∧ limit w ≤ Z.max 0 max ∧
  ∀ t o, (1 ≤ t)%nat → arr w !! t = Some o → some_words endWords (words o) = false.

(** Options that put no constraint on a sentence. *)
Definition no_constraint (o : MarkovOptions) : Prop :=
  maxLength o = 0 ∧ minWords o = 0 ∧ maxWords o = 0 ∧ minScore o = 0 ∧
  minScorePerWord o = 0 ∧ checker o = None ∧ filter o = None.

(** An oracle that draws the numbers of [l] in turn, and 0 after them. *)
Definition draws (l : list nat) : nat → nat := fun n => default 0%nat (l !! n).


(** The item with identity [ref] whose [string] is the string [line]. *)
Definition item_of (ref : nat) (line : string) : JsValue :=
  JObject ref (Some (JString line)).

(** Three items, two of them different objects with the same text. *)
Definition twins : list JsValue :=
  [item_of 1 "a b c d"; item_of 2 "a b c d"; item_of 3 "a b e f"].

(** No key that a build over [items] writes into the corpus is [name], a
    name without a space: a key has [size] words, so that only with a [size]
    of 1 a word of a line can be a key. *)
Definition key_free (name : string) (size : Z) (items : list JsValue) : Prop :=
  size = 1 → ∀ item wds, item ∈ items → line_words item = Normal wds → name ∉ wds.

(** * Properties *)

(** ** Strings: [split] and [join] *)

Section Strings.

Lemma split_not_nil (s : string) : split s ≠ [].
Proof.
  destruct s as [|c rest]; simpl; [done|].
  destruct (Ascii.eqb c space); [done|].
  by destruct (split rest).
Qed.

Lemma split_no_space (s : string) : Forall no_space (split s).
Proof.
  induction s as [|c rest IH]; simpl.
  - by constructor.
  - destruct (Ascii.eqb_spec c space) as [->|Hc].
    + by constructor.
    + destruct (split rest) as [|w ws].
      * by repeat constructor.
      * inversion IH; subst. by constructor.
Qed.

Lemma split_word (w : string) : no_space w → split w = [w].
Proof.
  induction w as [|c rest IH]; simpl; [done|].
  intros [Hc Hrest].
  destruct (Ascii.eqb_spec c space); [done|].
  by rewrite IH.
Qed.

Lemma split_word_space (w rest : string) :
  no_space w → split (w +:+ String space rest) = w :: split rest.
Proof.
  induction w as [|c w' IH]; simpl.
  - done.
  - intros [Hc Hw].
    destruct (Ascii.eqb_spec c space); [done|].
    by rewrite IH.
Qed.

(** Splitting what was joined gives the words back, unless there was no
    word at all: [[].join(" ")] is [""], which splits into [[""]]. *)
Lemma split_join (ws : list string) :
  ws ≠ [] → Forall no_space ws → split (join ws) = ws.
Proof.
  induction ws as [|w rest IH]; [done|].
  intros _ Hall. inversion Hall as [|? ? Hw Hrest]; subst.
  destruct rest as [|w' rest'].
  - by apply split_word.
  - change (join (w :: w' :: rest')) with (w +:+ String space (join (w' :: rest'))).
    rewrite split_word_space by done.
    by rewrite IH.
Qed.

Lemma token_count_join (ws : list string) :
  ws ≠ [] → Forall no_space ws → token_count (join ws) = Z.of_nat (length ws).
Proof. intros ??. unfold token_count. by rewrite split_join. Qed.

Lemma token_count_pos (s : string) : 0 < token_count s.
Proof.
  unfold token_count. pose proof (split_not_nil s).
  destruct (split s); [done|simpl; lia].
Qed.

End Strings.

(** ** [slice] *)

Section Slice.
Context {A : Type}.
Implicit Types (l : list A) (P : A → Prop).

Lemma slice_Forall P l a b : Forall P l → Forall P (slice l a b).
Proof. intros H. unfold slice. by apply Forall_take, Forall_drop. Qed.

(** For a start inside the non-negative range the result has
    [min end len - start] elements, or none when this is negative. *)
Lemma slice_length l a b :
  0 ≤ a → 0 ≤ b →
  Z.of_nat (length (slice l a b)) = Z.max 0 (Z.min b (Z.of_nat (length l)) - a).
Proof.
  intros Ha Hb. unfold slice.
  rewrite length_take, length_drop.
  repeat case_match; lia.
Qed.

(** A window inside the list. *)
Lemma slice_take_drop l (a n : Z) :
  0 ≤ a → 0 ≤ n → a + n ≤ Z.of_nat (length l) →
  slice l a (a + n) = take (Z.to_nat n) (drop (Z.to_nat a) l).
Proof.
  intros Ha Hn Hlen. unfold slice.
  repeat case_match; try lia. f_equal. lia.
Qed.

Lemma slice_head l (a n : Z) :
  0 ≤ a → 1 ≤ n → a + n ≤ Z.of_nat (length l) →
  slice l a (a + n) !! 0%nat = l !! Z.to_nat a.
Proof.
  intros Ha Hn Hlen. rewrite slice_take_drop by lia.
  rewrite lookup_take_lt by lia. rewrite lookup_drop. f_equal. lia.
Qed.

End Slice.


(** ** The corpus built by [buildCorpusSync] *)

Section Build.
Implicit Types (c : gmap string (list Entry)) (wds : list string)
  (st : BuildState) (items : list JsValue).

Lemma add_next_words next item chain o :
  o ∈ add_next next item chain →
  words o = next ∨ ∃ o', o' ∈ chain ∧ words o = words o'.
Proof.
  induction chain as [|o0 rest IH]; simpl.
  - intros ->%list_elem_of_singleton. by left.
  - destruct (String.eqb_spec (words o0) next) as [Heq|Hne].
    + intros [->|Hin]%elem_of_cons; [by left|].
      right. exists o. split; [by right|done].
    + intros [->|Hin]%elem_of_cons.
      * right. exists o0. split; [by left|done].
      * destruct (IH Hin) as [?|(o' & ? & ?)]; [by left|].
        right. exists o'. split; [by right|done].
Qed.

(** A window that is empty or has not exactly [size] words adds nothing. *)
Lemma corpus_step_skip size item wds c i :
  Forall no_space wds →
  next_window size wds i = [] ∨ Z.of_nat (length (next_window size wds i)) ≠ size →
  corpus_step size item wds c i = Normal c.
Proof.
  intros Hwds Hwin. unfold corpus_step. fold (next_window size wds i).
  destruct (next_window size wds i) as [|w ws] eqn:Hw; [done|].
  destruct Hwin as [|Hlen]; [done|].
  rewrite token_count_join; [|done|].
  - destruct (Z.eqb_spec (Z.of_nat (length (w :: ws))) size); [done|].
    by rewrite orb_true_r.
  - rewrite <- Hw. by apply slice_Forall.
Qed.

(** When the test of line 90 lets the step through, both windows are full. *)
Lemma corpus_step_full size wds i :
  Forall no_space wds → 0 ≤ i →
  let next := join (next_window size wds i) in
  String.eqb next "" || negb (token_count next =? size) = false →
  token_count (join (slice wds i (i + size))) = size ∧ token_count next = size.
Proof.
  intros Hwds Hi next [Hne Hcount]%orb_false_elim.
  apply negb_false_iff, Z.eqb_eq in Hcount.
  split; [|done].
  assert (next_window size wds i ≠ []) as Hnil.
  { intros Heq. subst next. by rewrite Heq in Hne. }
  subst next. rewrite token_count_join in Hcount; [|done|by apply slice_Forall].
  assert (1 ≤ size) as Hsize.
  { destruct (next_window size wds i); [done|simpl in Hcount; lia]. }
  unfold next_window in Hcount. rewrite slice_length in Hcount by lia.
  assert (Z.of_nat (length (slice wds i (i + size))) = size) as Hcurr.
  { rewrite slice_length by lia. lia. }
  rewrite token_count_join; [done| |by apply slice_Forall].
  intros Heq. rewrite Heq in Hcurr. simpl in Hcurr. lia.
Qed.

(** A step that raises nothing leaves the corpus as it was, or has passed
    the test of line 90 and has put a chain under its key: the chain that
    was there with the successor added to it, or a new one. *)
Lemma corpus_step_Normal size item wds c i c' :
  corpus_step size item wds c i = Normal c' →
  let curr := join (slice wds i (i + size)) in
  let next := join (next_window size wds i) in
  c' = c ∨
  (String.eqb next "" || negb (token_count next =? size) = false ∧
   ((curr ≠ "__proto__" ∧
     ∃ chain, c !! curr = Some chain ∧ c' = <[curr := add_next next item chain]> c) ∨
    ((curr = "__proto__" ∨ c !! curr = None) ∧
     c' = <[curr := [{| words := next; refs := [item] |}]]> c))).
Proof.
  unfold corpus_step. fold (next_window size wds i).
  destruct (_ || _); [intros [= <-]; by left|].
  destruct (c !! "hasOwnProperty"); [done|].
  destruct (String.eqb_spec (join (slice wds i (i + size))) "__proto__") as [Heq|Hne].
  - intros [= <-]. right. split; [done|]. right. split; [by left|done].
  - destruct (c !! join (slice wds i (i + size))) as [chain|] eqn:Hlook; intros [= <-].
    + right. split; [done|]. left. split; [done|]. by exists chain.
    + right. split; [done|]. right. split; [by right|done].
Qed.

(** What a step raises is a [TypeError], from the call of line 94. *)
Lemma corpus_step_Throw size item wds c i e :
  corpus_step size item wds c i = Throw e →
  e = TypeError ∧ is_Some (c !! "hasOwnProperty").
Proof.
  unfold corpus_step. destruct (_ || _); [done|].
  destruct (c !! "hasOwnProperty") as [chain|]; [intros [= <-]; eauto|].
  by destruct (if String.eqb _ _ then _ else _).
Qed.

Lemma corpus_step_keys size item wds c i c' :
  Forall no_space wds → 0 ≤ i →
  state_keys_of_size size c →
  corpus_step size item wds c i = Normal c' →
  state_keys_of_size size c'.
Proof.
  intros Hwds Hi Hc Hstep.
  pose proof (corpus_step_full size wds i Hwds Hi) as Hfull.
  apply corpus_step_Normal in Hstep. simpl in Hstep, Hfull.
  set (curr := join (slice wds i (i + size))) in *.
  set (next := join (next_window size wds i)) in *.
  destruct Hstep as [->|[Htest Hwrite]]; [done|].
  destruct (Hfull Htest) as [Hcurr Hnext].
  intros key chain'.
  destruct Hwrite as [(_ & chain & Hlook & ->)|[_ ->]].
  - destruct (decide (curr = key)) as [<-|Hk].
    + rewrite lookup_insert_eq. intros [= <-]. split; [done|].
      intros o [->|(o' & Ho' & ->)]%add_next_words; [done|].
      by eapply Hc.
    + rewrite lookup_insert_ne by done. apply Hc.
  - destruct (decide (curr = key)) as [<-|Hk].
    + rewrite lookup_insert_eq. intros [= <-]. split; [done|].
      by intros o ->%list_elem_of_singleton.
    + rewrite lookup_insert_ne by done. apply Hc.
Qed.

(** *** The loop over the indices and the loop over the items *)

(** What every step that raises nothing preserves holds of what the loop
    leaves, whether it raises or not. *)
Lemma corpus_loop_inv (P : gmap string (list Entry) → Prop) size item wds idx c :
  (∀ i c c', i ∈ idx → P c → corpus_step size item wds c i = Normal c' → P c') →
  P c → P (corpus_loop size item wds idx c).1.
Proof.
  revert c. induction idx as [|i idx IH]; intros c Hstep Hc; simpl; [done|].
  destruct (corpus_step size item wds c i) as [c'|e] eqn:Hi; [|done].
  apply IH.
  - intros j c1 c2 Hj. apply Hstep. by right.
  - eapply Hstep; [by left|done..].
Qed.

Lemma corpus_loop_error size item wds idx c e :
  (corpus_loop size item wds idx c).2 = Some e → e = TypeError.
Proof.
  revert c. induction idx as [|i idx IH]; intros c; simpl; [done|].
  destruct (corpus_step size item wds c i) as [c'|e'] eqn:Hi; [apply IH|].
  intros [= <-]. by destruct (corpus_step_Throw _ _ _ _ _ _ Hi).
Qed.

Lemma add_item_fields size item wds st :
  add_item size item wds st
  = ({| b_startWords := add_word (start_key size wds) item (b_startWords st);
        b_endWords := add_word (end_key size wds) item (b_endWords st);
        b_corpus := (corpus_loop size item wds (seqZ 0 (Z.of_nat (length wds) - 1))
                       (b_corpus st)).1 |},
     (corpus_loop size item wds (seqZ 0 (Z.of_nat (length wds) - 1)) (b_corpus st)).2).
Proof. reflexivity. Qed.

Lemma add_item_error size item wds st e :
  (add_item size item wds st).2 = Some e → e = TypeError.
Proof. rewrite add_item_fields. apply corpus_loop_error. Qed.

(** What the callback preserves, whether it raises or not, holds of what
    [forEach] leaves. *)
Lemma forEach_item_inv (P : BuildState → Prop) size items st :
  (∀ item wds st, item ∈ items → line_words item = Normal wds →
     P st → P (add_item size item wds st).1) →
  P st → P (forEach_item size items st).1.
Proof.
  revert st. induction items as [|item rest IH]; intros st Hstep Hst; [done|].
  cbn [forEach_item].
  destruct (line_words item) as [wds|e] eqn:Hline; [|done].
  pose proof (Hstep item wds st ltac:(by left) Hline Hst) as Hnext.
  destruct (add_item size item wds st) as [st' [e|]]; [exact Hnext|].
  apply IH; [|exact Hnext]. intros item' wds' st'' Hin. apply Hstep. by right.
Qed.

Lemma seqZ_nonneg (n : Z) : Forall (fun i => 0 ≤ i) (seqZ 0 n).
Proof. apply Forall_forall. intros i Hin. apply elem_of_seqZ in Hin. lia. Qed.

Lemma add_item_keys size item wds st :
  Forall no_space wds →
  state_keys_of_size size (b_corpus st) →
  state_keys_of_size size (b_corpus (add_item size item wds st).1).
Proof.
  intros Hwds Hst. rewrite add_item_fields. cbn [fst b_corpus].
  apply corpus_loop_inv; [|done].
  intros i c c' Hi Hc. apply corpus_step_keys; [done| |done].
  apply elem_of_seqZ in Hi. lia.
Qed.

Lemma line_words_no_space item wds :
  line_words item = Normal wds → Forall no_space wds.
Proof.
  destruct item as [| | | |ref [[| | |line|]|]]; simpl; try done.
  intros [= <-]. apply split_no_space.
Qed.

Lemma forEach_item_keys size items st :
  state_keys_of_size size (b_corpus st) →
  state_keys_of_size size (b_corpus (forEach_item size items st).1).
Proof.
  apply (forEach_item_inv (fun st => state_keys_of_size size (b_corpus st))).
  intros item wds st' _ Hline. apply add_item_keys. by eapply line_words_no_space.
Qed.

Lemma buildCorpusSync_corpus this :
  corpus (buildCorpusSync this).1 =
  Some (b_corpus (forEach_item (stateSize (options this)) (data this)
          {| b_startWords := startWords this; b_endWords := endWords this;
             b_corpus := ∅ |}).1).
Proof. unfold buildCorpusSync. by destruct (forEach_item _ _ _). Qed.

(** The corpus that a build produces, and what it raises, do not depend on
    the start and end words that the instance held before. *)
Lemma forEach_item_corpus size items st st' :
  b_corpus st = b_corpus st' →
  b_corpus (forEach_item size items st).1 = b_corpus (forEach_item size items st').1 ∧
  (forEach_item size items st).2 = (forEach_item size items st').2.
Proof.
  revert st st'. induction items as [|item rest IH]; [done|]. cbn [forEach_item].
  intros st st' Heq. destruct (line_words item) as [wds|e]; [|done].
  rewrite !add_item_fields, Heq.
  destruct (corpus_loop _ _ _ _ _) as [c [e|]]; simpl; [done|].
  by apply IH.
Qed.

(** Lines with fewer than [2 * size] words never fill the successor
    window. *)
Lemma add_item_no_transition size item wds st :
  wds ≠ [] → Forall no_space wds →
  Z.of_nat (length wds) < 2 * size →
  b_corpus (add_item size item wds st).1 = b_corpus st ∧
  (add_item size item wds st).2 = None.
Proof.
  intros Hne Hwds Hshort. rewrite add_item_fields. cbn [fst snd b_corpus].
  generalize (b_corpus st) as c.
  assert (1 ≤ Z.of_nat (length wds)) by (destruct wds; [done|simpl; lia]).
  pose proof (seqZ_nonneg (Z.of_nat (length wds) - 1)) as Hidx.
  induction Hidx as [|i idx Hi _ IH]; simpl; [done|].
  intros c. rewrite corpus_step_skip; [apply IH|done|].
  right. unfold next_window. rewrite slice_length by lia. lia.
Qed.

Lemma line_words_not_nil item wds : line_words item = Normal wds → wds ≠ [].
Proof.
  destruct item as [| | | |ref [[| | |line|]|]]; simpl; try done.
  intros [= <-]. apply split_not_nil.
Qed.

Lemma forEach_item_no_transition size items st :
  (∀ item wds, item ∈ items → line_words item = Normal wds →
     Z.of_nat (length wds) < 2 * size) →
  b_corpus (forEach_item size items st).1 = b_corpus st.
Proof.
  intros Hshort.
  apply (forEach_item_inv (fun st' => b_corpus st' = b_corpus st)); [|done].
  intros item wds st' Hin Hline <-.
  apply add_item_no_transition; eauto using line_words_not_nil, line_words_no_space.
Qed.

(** *** [add_word] and [add_next] *)

Lemma add_word_present key item entries o :
  find_words key entries = Some o → includes (refs o) item = true →
  add_word key item entries = entries.
Proof.
  unfold find_words.
  induction entries as [|o0 rest IH]; simpl; [done|].
  destruct (String.eqb (words o0) key).
  - intros [= ->] ->. done.
  - intros Hfind Hin. by rewrite IH.
Qed.

Lemma add_word_absent key item entries o :
  find_words key entries = Some o → includes (refs o) item = false →
  find_words key (add_word key item entries)
  = Some {| words := words o; refs := refs o ++ [item] |}.
Proof.
  unfold find_words.
  induction entries as [|o0 rest IH]; simpl; [done|].
  destruct (String.eqb (words o0) key) eqn:Hk.
  - intros [= ->] ->. simpl. by rewrite Hk.
  - intros Hfind Hin. simpl. rewrite Hk. by apply IH.
Qed.

Lemma add_word_new key item entries :
  find_words key entries = None →
  add_word key item entries = entries ++ [{| words := key; refs := [item] |}].
Proof.
  unfold find_words.
  induction entries as [|o0 rest IH]; simpl; [done|].
  destruct (String.eqb (words o0) key); [done|].
  intros Hfind. by rewrite IH.
Qed.

Lemma add_next_found next item chain o :
  find_words next chain = Some o →
  find_words next (add_next next item chain)
  = Some {| words := words o; refs := refs o ++ [item] |}.
Proof.
  unfold find_words.
  induction chain as [|o0 rest IH]; simpl; [done|].
  destruct (String.eqb (words o0) next) eqn:Hk.
  - intros [= ->]. simpl. by rewrite Hk.
  - intros Hfind. simpl. rewrite Hk. by apply IH.
Qed.

Lemma add_next_new next item chain :
  find_words next chain = None →
  add_next next item chain = chain ++ [{| words := next; refs := [item] |}].
Proof.
  unfold find_words.
  induction chain as [|o0 rest IH]; simpl; [done|].
  destruct (String.eqb (words o0) next); [done|].
  intros Hfind. by rewrite IH.
Qed.

(** An entry, once in the list, stays under its key. *)
Lemma add_word_keeps k key item entries :
  is_Some (find_words k entries) → is_Some (find_words k (add_word key item entries)).
Proof.
  unfold find_words.
  induction entries as [|o0 rest IH]; simpl; [by intros [??]|].
  destruct (String.eqb (words o0) k) eqn:Hk.
  - intros _. destruct (String.eqb (words o0) key); simpl.
    + destruct (includes (refs o0) item); simpl; rewrite Hk; eauto.
    + rewrite Hk; eauto.
  - intros Hfind. destruct (String.eqb (words o0) key); simpl.
    + destruct (includes (refs o0) item); simpl; rewrite Hk; auto.
    + rewrite Hk; auto.
Qed.

Lemma forEach_item_keeps size items st k :
  (is_Some (find_words k (b_startWords st)) →
   is_Some (find_words k (b_startWords (forEach_item size items st).1))) ∧
  (is_Some (find_words k (b_endWords st)) →
   is_Some (find_words k (b_endWords (forEach_item size items st).1))).
Proof.
  split; intros H.
  - apply (forEach_item_inv (fun st => is_Some (find_words k (b_startWords st))));
      [|done].
    intros item wds st' _ _ Hst'. by apply add_word_keeps.
  - apply (forEach_item_inv (fun st => is_Some (find_words k (b_endWords st))));
      [|done].
    intros item wds st' _ _ Hst'. by apply add_word_keeps.
Qed.

End Build.

(** ** Loops *)

Section Loop.
Context {St R : Type} (body : St → option (St + R)).

(** An invariant of the body that gives [Q] on exit gives [Q] of the
    loop. *)
Lemma loop_inv (I : St → Prop) (Q : R → Prop) :
  (∀ s s', I s → body s = Some (inl s') → I s') →
  (∀ s r, I s → body s = Some (inr r) → Q r) →
  ∀ fuel s r, I s → loop fuel body s = Some r → Q r.
Proof.
  intros Hstep Hexit. induction fuel as [|fuel IH]; simpl; [done|].
  intros s r Hs. destruct (body s) as [[s'|r']|] eqn:Hbody; [|intros [= <-]|done].
  - apply IH. by eapply Hstep.
  - by eapply Hexit.
Qed.

(** A body that is defined under the invariant and decreases a measure each
    time it continues leaves the loop within [measure] turns. *)
Lemma loop_terminates (I : St → Prop) (measure : St → nat) :
  (∀ s, I s → is_Some (body s)) →
  (∀ s s', I s → body s = Some (inl s') → I s' ∧ (measure s' < measure s)%nat) →
  ∀ fuel s, I s → (measure s < fuel)%nat → is_Some (loop fuel body s).
Proof.
  intros Hdef Hdec. induction fuel as [|fuel IH]; simpl; [lia|].
  intros s Hs Hfuel. destruct (Hdef s Hs) as [[s'|r] Hbody]; rewrite Hbody; [|eauto].
  destruct (Hdec s s' Hs Hbody) as [Hs' Hlt]. apply IH; [done|lia].
Qed.

(** More fuel does not change the value of a loop. *)
Lemma loop_mono (body' : St → option (St + R)) fuel fuel' s r :
  (∀ s x, body s = Some x → body' s = Some x) →
  (fuel ≤ fuel')%nat → loop fuel body s = Some r → loop fuel' body' s = Some r.
Proof.
  intros Hbody. revert fuel' s. induction fuel as [|fuel IH]; simpl; [done|].
  intros [|fuel'] s Hle; [lia|]. simpl.
  destruct (body s) as [x|] eqn:Hx; [|done].
  rewrite (Hbody s x Hx). destruct x as [s'|r']; [|done].
  apply IH. lia.
Qed.

End Loop.

(** ** The walk of one attempt *)

Section Walk.
Context (rand : nat → nat) (this : Markov) (c : gmap string (list Entry)) (max : Z).

Lemma sum_snoc (xs : list Z) (x : Z) :
  foldr Z.add 0 (xs ++ [x]) = foldr Z.add 0 xs + x.
Proof. induction xs as [|y xs IH]; simpl; lia. Qed.

Lemma walk_score_snoc path block state :
  last path = Some block →
  walk_score c (path ++ [state])
  = walk_score c path + (Z.of_nat (length (available c block)) - 1).
Proof.
  intros [init ->]%last_Some. unfold walk_score.
  rewrite !removelast_last, fmap_app. simpl. apply sum_snoc.
Qed.

Lemma chain_path_snoc path block state :
  chain_path c path → last path = Some block → state ∈ available c block →
  chain_path c (path ++ [state]).
Proof.
  intros Hpath Hlast Hstate k o o' Ho Ho'.
  rewrite last_lookup in Hlast.
  pose proof (lookup_lt_Some _ _ _ Ho') as Hlt. rewrite length_app in Hlt. simpl in Hlt.
  rewrite lookup_app_l in Ho by lia.
  destruct (decide (S k = length path)) as [Heq|Hne].
  - rewrite lookup_app_r in Ho' by lia.
    replace (S k - length path)%nat with 0%nat in Ho' by lia.
    simpl in Ho'. injection Ho' as <-.
    replace (Nat.pred (length path)) with k in Hlast by lia.
    rewrite Hlast in Ho. by injection Ho as <-.
  - rewrite lookup_app_l in Ho' by lia. by eapply Hpath.
Qed.

Lemma sample_elem_of {A : Type} r (l : list A) x : sample r l = Some x → x ∈ l.
Proof. unfold sample. apply list_elem_of_lookup_2. Qed.

Lemma sample_is_Some {A : Type} r (l : list A) : l ≠ [] → is_Some (sample r l).
Proof.
  intros Hl. unfold sample. apply lookup_lt_is_Some.
  apply Nat.mod_upper_bound. by destruct l.
Qed.

Lemma walk_inv_init first p :
  walk_inv c max first {| arr := [first]; score := 0; limit := 0; ended := false; pos := p |}.
Proof.
  repeat split; simpl; try lia.
  intros k o o' _ Ho'. by destruct k.
Qed.

Lemma walk_body_continue first w w' :
  walk_inv c max first w →
  walk_body rand c (endWords this) max w = Some (inl w') →
  walk_inv c max first w' ∧ limit w' = limit w + 1 ∧ limit w < max.
Proof.
  intros (Hhead & Hpath & Hscore & Hlen & Hlim & Hend). unfold walk_body.
  destruct (Z.ltb_spec (limit w) max) as [Hlt|]; [|done].
  destruct (last (arr w)) as [block|] eqn:Hlast; [|done].
  destruct (c !! words block) as [chain|] eqn:Hchain; simpl; [|done].
  destruct (sample (rand (pos w)) chain) as [state|] eqn:Hsample; [|done].
  destruct (some_words (endWords this) (words state)); [done|].
  intros [= <-]; simpl. split; [|lia].
  assert (available c block = chain) as Hav by (unfold available; by rewrite Hchain).
  repeat split; simpl.
  - destruct (arr w); [done|]. done.
  - eapply chain_path_snoc; [done..|]. rewrite Hav. by eapply sample_elem_of.
  - rewrite (walk_score_snoc _ block) by done. rewrite Hav. lia.
  - rewrite length_app. simpl. lia.
  - lia.
  - done.
Qed.

Lemma walk_body_exit first w r :
  first ∈ startWords this →
  walk_inv c max first w →
  walk_body rand c (endWords this) max w = Some (inr r) →
  ∃ w', r = Normal w' ∧ walk_ok this c max w'.
Proof.
  intros Hfirst (Hhead & Hpath & Hscore & Hlen & Hlim & Hend). unfold walk_body.
  assert (walk_ok this c max w) as Hw.
  { split; [by exists first|]. do 3 (split; [done || lia|]). by rewrite Hend. }
  destruct (Z.ltb_spec (limit w) max) as [Hlt|]; [|intros [= <-]; eauto].
  destruct (last (arr w)) as [block|] eqn:Hlast.
  2:{ apply last_None in Hlast. by rewrite Hlast in Hhead. }
  destruct (c !! words block) as [chain|] eqn:Hchain; simpl; [|intros [= <-]; eauto].
  destruct (sample (rand (pos w)) chain) as [state|] eqn:Hsample; [|intros [= <-]; eauto].
  destruct (some_words (endWords this) (words state)) eqn:Hsome; [|done].
  intros [= <-]. eexists; split; [done|].
  assert (available c block = chain) as Hav by (unfold available; by rewrite Hchain).
  repeat split; simpl.
  - exists first. split; [|done]. destruct (arr w); [done|]. done.
  - eapply chain_path_snoc; [done..|]. rewrite Hav. by eapply sample_elem_of.
  - rewrite (walk_score_snoc _ block) by done. rewrite Hav. lia.
  - rewrite length_app. simpl. lia.
  - rewrite length_app. simpl. destruct (arr w); [done|simpl; lia].
  - exists state. by rewrite last_snoc.
Qed.

(** The walk from a start entry ends well, whatever the fuel. *)
Lemma walk_spec fuel first p r :
  first ∈ startWords this →
  loop fuel (walk_body rand c (endWords this) max)
    {| arr := [first]; score := 0; limit := 0; ended := false; pos := p |} = Some r →
  ∃ w, r = Normal w ∧ walk_ok this c max w.
Proof.
  intros Hfirst Hloop.
  eapply (loop_inv _ (walk_inv c max first)
            (fun r => ∃ w, r = Normal w ∧ walk_ok this c max w)); [| | |exact Hloop].
  - intros s s' Hs Hbody. by destruct (walk_body_continue first s s' Hs Hbody).
  - intros s r' Hs Hbody. by eapply walk_body_exit.
  - apply walk_inv_init.
Qed.

Lemma walk_body_defined w : is_Some (walk_body rand c (endWords this) max w).
Proof. unfold walk_body. repeat case_match; eauto. Qed.

(** The walk is over after at most [max] turns of its loop. *)
Lemma walk_terminates fuel first p :
  (Z.to_nat max < fuel)%nat →
  is_Some (loop fuel (walk_body rand c (endWords this) max)
    {| arr := [first]; score := 0; limit := 0; ended := false; pos := p |}).
Proof.
  intros Hfuel.
  apply (loop_terminates _ (walk_inv c max first) (fun w => Z.to_nat (max - limit w))).
  - intros s _. apply walk_body_defined.
  - intros s s' Hs Hbody.
    destruct (walk_body_continue first s s' Hs Hbody) as (? & ? & ?).
    split; [done|lia].
  - apply walk_inv_init.
  - simpl. lia.
Qed.

End Walk.

(** ** The attempts of [generateSentenceSync] *)

Section Generate.
Context (rand : nat → nat) (this : Markov) (options : MarkovOptions)
  (c : gmap string (list Entry)) (max : Z).

Lemma sample_None {A : Type} r (l : list A) : sample r l = None → l = [].
Proof.
  intros Hnone. destruct l as [|x l]; [done|].
  destruct (sample_is_Some r (x :: l)) as [y Hy]; [done|]. congruence.
Qed.

Lemma try_inv_init : try_inv this options c max {| i := 0; next_pos := 0; tried := [] |}.
Proof. repeat split; simpl; try constructor; lia. Qed.

Lemma try_body_continue fuel t t' :
  try_inv this options c max t →
  try_body fuel rand this options c max t = Some (inl t') →
  try_inv this options c max t' ∧ i t' = i t + 1 ∧ i t < max.
Proof.
  intros (Hok & Hrej & Hlen & Hi & Hnil). unfold try_body.
  destruct (Z.ltb_spec (i t) max) as [Hlt|]; [|done].
  destruct (sample (rand (next_pos t)) (startWords this)) as [first|] eqn:Hfirst; [|done].
  destruct (loop fuel _ _) as [r|] eqn:Hloop; [|done].
  apply walk_spec in Hloop as (w & -> & Hw); [|by eapply sample_elem_of].
  destruct (rejected options w (compose w)) eqn:Hrejected; [|done].
  intros [= <-]; simpl. split; [|lia].
  repeat split; simpl.
  - apply Forall_app. split; [done|by constructor].
  - apply Forall_app. split; [done|by constructor].
  - rewrite length_app. simpl. lia.
  - lia.
  - intros Hempty. by rewrite Hempty in Hfirst.
Qed.

Lemma try_body_exit fuel t run :
  try_inv this options c max t →
  try_body fuel rand this options c max t = Some (inr run) →
  run_ok this options c max run.
Proof.
  intros (Hok & Hrej & Hlen & Hi & Hnil). unfold try_body.
  destruct (Z.ltb_spec (i t) max) as [Hlt|Hge].
  2:{ intros [= <-]. split; [done|]. simpl. split; [done|lia]. }
  destruct (sample (rand (next_pos t)) (startWords this)) as [first|] eqn:Hfirst.
  2:{ intros [= <-]. apply sample_None in Hfirst. split; [done|]. simpl.
      split; [done|]. split; [auto|]. lia. }
  destruct (loop fuel _ _) as [r|] eqn:Hloop; [|done].
  apply walk_spec in Hloop as (w & -> & Hw); [|by eapply sample_elem_of].
  destruct (rejected options w (compose w)) eqn:Hrejected; [done|].
  intros [= <-]; simpl. split; simpl.
  - apply Forall_app. split; [done|by constructor].
  - exists (tried t), w. repeat split; try done. lia.
Qed.

Lemma try_loop_spec fuel fuel' run :
  loop fuel' (try_body fuel rand this options c max)
    {| i := 0; next_pos := 0; tried := [] |} = Some run →
  run_ok this options c max run.
Proof.
  intros Hloop.
  eapply (loop_inv _ (try_inv this options c max) (run_ok this options c max));
    [| | |exact Hloop].
  - intros s s' Hs Hbody. by destruct (try_body_continue fuel s s' Hs Hbody).
  - intros s r Hs Hbody. by eapply try_body_exit.
  - apply try_inv_init.
Qed.

Lemma try_body_defined fuel t :
  (Z.to_nat max < fuel)%nat →
  is_Some (try_body fuel rand this options c max t).
Proof.
  intros Hfuel. unfold try_body.
  destruct (i t <? max); [|eauto].
  destruct (sample (rand (next_pos t)) (startWords this)) as [first|]; [|eauto].
  destruct (walk_terminates rand this c max fuel first (S (next_pos t)) Hfuel)
    as [r ->].
  repeat case_match; eauto.
Qed.

Lemma try_loop_terminates fuel :
  (Z.to_nat max < fuel)%nat →
  is_Some (loop fuel (try_body fuel rand this options c max)
             {| i := 0; next_pos := 0; tried := [] |}).
Proof.
  intros Hfuel.
  apply (loop_terminates _ (try_inv this options c max)
           (fun t => Z.to_nat (max - i t))).
  - intros s _. by apply try_body_defined.
  - intros s s' Hs Hbody.
    destruct (try_body_continue fuel s s' Hs Hbody) as (? & ? & ?).
    split; [done|lia].
  - apply try_inv_init.
  - simpl. lia.
Qed.

End Generate.

(** ** The copy of the corpus *)

Section Clone.
Context (fresh : nat) (c : gmap string (list Entry)).

(** The copy has under a key what the corpus has under it, copied; under
    [__proto__] it has what the corpus has, if anything. *)
Lemma cloneDeep_lookup key chain' :
  cloneDeep fresh c !! key = Some chain' →
  ∃ chain, c !! key = Some chain ∧
    (chain' = cloneDeep_entry fresh <$> chain ∨ (key = "__proto__" ∧ chain' = chain)).
Proof.
  unfold cloneDeep.
  assert (∀ chain1,
    ((fun chain : list Entry => cloneDeep_entry fresh <$> chain)
       <$> delete "__proto__" c) !! key = Some chain1 →
    ∃ chain, c !! key = Some chain ∧ chain1 = cloneDeep_entry fresh <$> chain) as Hcopy.
  { intros chain1. rewrite lookup_fmap.
    destruct (decide (key = "__proto__")) as [->|Hne].
    - by rewrite lookup_delete_eq.
    - rewrite lookup_delete_ne by done.
      destruct (c !! key) as [chain|]; [|done]. intros [= <-]. by exists chain. }
  destruct (c !! "__proto__") as [prototype|] eqn:Hproto.
  - destruct (bool_decide _).
    + intros (chain & ? & ?)%Hcopy. exists chain. auto.
    + destruct (decide (key = "__proto__")) as [->|Hne].
      * rewrite lookup_insert_eq. intros [= <-]. exists prototype. auto.
      * rewrite lookup_insert_ne by done.
        intros (chain & ? & ?)%Hcopy. exists chain. auto.
  - intros (chain & ? & ?)%Hcopy. exists chain. auto.
Qed.

(** Where the copy has entries available, the corpus has as many. *)
Lemma available_cloneDeep o :
  available (cloneDeep fresh c) o ≠ [] →
  length (available (cloneDeep fresh c) o) = length (available c o).
Proof.
  unfold available.
  destruct (cloneDeep fresh c !! words o) as [chain'|] eqn:Hlook; [|done].
  intros _. apply cloneDeep_lookup in Hlook as (chain & -> & [->| [_ ->]]); simpl.
  - by rewrite length_fmap.
  - done.
Qed.

(** The score counted along a path that follows the copy is the score
    counted with the chains of the corpus. *)
Lemma walk_score_cloneDeep path :
  chain_path (cloneDeep fresh c) path →
  walk_score (cloneDeep fresh c) path = walk_score c path.
Proof.
  intros Hpath. unfold walk_score. f_equal. apply list_fmap_ext.
  intros k o Ho. rewrite available_cloneDeep; [done|].
  rewrite removelast_firstn_len in Ho.
  change (firstn (Nat.pred (length path)) path) with (take (Nat.pred (length path)) path) in Ho.
  apply lookup_take_Some in Ho as [Ho Hk].
  destruct (lookup_lt_is_Some_2 path (S k)) as [o' Ho']; [lia|].
  specialize (Hpath k o o' Ho Ho'). intros Hnil. rewrite Hnil in Hpath.
  by apply elem_of_nil in Hpath.
Qed.

(** A step along the copy goes to the copy of an entry of the chain that
    the corpus has for the state it leaves, or, from the state [__proto__],
    to an entry of the prototype itself. *)
Lemma chain_path_cloneDeep path k o o' :
  chain_path (cloneDeep fresh c) path →
  path !! k = Some o → path !! S k = Some o' →
  ∃ chain e, c !! words o = Some chain ∧ e ∈ chain ∧
    (o' = cloneDeep_entry fresh e ∨ (words o = "__proto__" ∧ o' = e)).
Proof.
  intros Hpath Ho Ho'. specialize (Hpath k o o' Ho Ho').
  unfold available in Hpath.
  destruct (cloneDeep fresh c !! words o) as [chain'|] eqn:Hlook; simpl in Hpath.
  2:{ by apply elem_of_nil in Hpath. }
  apply cloneDeep_lookup in Hlook as (chain & Hc & [->|[Hkey ->]]).
  - apply list_elem_of_fmap in Hpath as (e & -> & He). exists chain, e. auto.
  - exists chain, o'. auto.
Qed.

Lemma cloneDeep_empty : cloneDeep fresh ∅ = ∅.
Proof. unfold cloneDeep. rewrite lookup_empty, delete_empty. apply fmap_empty. Qed.

(** Of a corpus whose prototype no assignment has replaced, the copy has
    the copy of every chain and nothing else. *)
Lemma cloneDeep_plain :
  c !! "__proto__" = None →
  cloneDeep fresh c = (fun chain : list Entry => cloneDeep_entry fresh <$> chain) <$> c.
Proof. intros Hnone. unfold cloneDeep. by rewrite Hnone, delete_id. Qed.

Lemma available_cloneDeep_plain o :
  c !! "__proto__" = None →
  available (cloneDeep fresh c) o = cloneDeep_entry fresh <$> available c o.
Proof.
  intros Hnone. rewrite cloneDeep_plain by done. unfold available.
  rewrite lookup_fmap. by destruct (c !! words o).
Qed.

End Clone.

Lemma max_ref_list_elem (l : list JsValue) (x : JsValue) :
  x ∈ l → (max_ref x ≤ max_ref_list l)%nat.
Proof.
  unfold max_ref_list. induction l as [|y l IH]; [by intros ?%elem_of_nil|].
  rewrite fmap_cons. cbn [foldr].
  intros [->|Hin]%elem_of_cons; [lia|]. specialize (IH Hin). lia.
Qed.

(** The copy of an object is none of the values of a list all of whose
    identities are below [fresh]. *)
Lemma cloneDeep_value_fresh fresh (l : list JsValue) ref p :
  (max_ref_list l < fresh)%nat →
  cloneDeep_value fresh (JObject ref p) ∉ l.
Proof.
  intros Hfresh Hin. apply max_ref_list_elem in Hin. cbn [cloneDeep_value max_ref] in Hin. lia.
Qed.

(** A call returns, given more fuel than [maxTries], and what it returns is
    as [run_ok] says, of the copy of the corpus. *)
Lemma generateSentenceSync_spec fuel rand this opts run c :
  corpus this = Some c →
  generateSentenceSync fuel rand this opts = Some run →
  let options := assignIn (options this) opts in
  run_ok this options (cloneDeep (next_ref this) c) (maxTries options) run.
Proof.
  intros Hc. unfold generateSentenceSync. rewrite Hc. apply try_loop_spec.
Qed.

Lemma generateSentenceSync_terminates fuel rand this opts :
  (Z.to_nat (maxTries (assignIn (options this) opts)) < fuel)%nat →
  is_Some (generateSentenceSync fuel rand this opts).
Proof.
  intros Hfuel. unfold generateSentenceSync.
  destruct (corpus this); [|eauto]. by apply try_loop_terminates.
Qed.

(** The value of a call does not depend on the fuel, once there is
    enough of it. *)
Lemma generateSentenceSync_mono fuel fuel' rand this opts run :
  (fuel ≤ fuel')%nat →
  generateSentenceSync fuel rand this opts = Some run →
  generateSentenceSync fuel' rand this opts = Some run.
Proof.
  intros Hle. unfold generateSentenceSync.
  destruct (corpus this) as [c|]; [|done].
  apply loop_mono; [|done].
  intros t x. unfold try_body.
  destruct (i t <? _); [|done].
  destruct (sample _ (startWords this)) as [first|]; [|done].
  destruct (loop fuel _ _) as [r|] eqn:Hloop; [|done].
  by rewrite (loop_mono _ _ fuel fuel' _ r (fun _ _ H => H) Hle Hloop).
Qed.

(** ** [uniqBy] *)

Section UniqBy.
Implicit Types (l seen : list JsValue) (x y v : JsValue).

Lemma same_value_zero_refl v : same_value_zero v v = true.
Proof.
  destruct v; simpl; auto using Z.eqb_refl, String.eqb_refl, Nat.eqb_refl.
Qed.

Lemma same_value_zero_sym x y : same_value_zero x y = same_value_zero y x.
Proof.
  destruct x, y; simpl; auto using Z.eqb_sym, String.eqb_sym, Nat.eqb_sym.
Qed.

Lemma includes_snoc seen v x :
  includes (seen ++ [v]) x = includes seen x || same_value_zero x v.
Proof. unfold includes. rewrite existsb_app. simpl. by rewrite orb_false_r. Qed.

Lemma uniqBy_from_sublist seen l : uniqBy_from seen l `sublist_of` l.
Proof.
  revert seen. induction l as [|v rest IH]; intros seen; simpl; [done|].
  destruct (includes seen (string_of v)).
  - by apply sublist_cons.
  - by apply sublist_skip.
Qed.

Lemma uniqBy_from_not_seen seen l x :
  x ∈ uniqBy_from seen l → includes seen (string_of x) = false.
Proof.
  revert seen. induction l as [|v rest IH]; intros seen; simpl.
  - by intros ?%elem_of_nil.
  - destruct (includes seen (string_of v)) eqn:Hv; [by apply IH|].
    intros [->|Hin]%elem_of_cons; [done|].
    apply IH in Hin. rewrite includes_snoc in Hin. by apply orb_false_elim in Hin as [? _].
Qed.

Lemma uniqBy_from_distinct seen l i j a b :
  (i < j)%nat →
  uniqBy_from seen l !! i = Some a → uniqBy_from seen l !! j = Some b →
  same_value_zero (string_of a) (string_of b) = false.
Proof.
  revert seen i j. induction l as [|v rest IH]; intros seen i j Hij; simpl; [done|].
  destruct (includes seen (string_of v)) eqn:Hv; [by apply IH|].
  destruct j as [|j]; [lia|]. destruct i as [|i]; simpl.
  - intros [= <-] Hb. apply list_elem_of_lookup_2, uniqBy_from_not_seen in Hb.
    rewrite includes_snoc in Hb. apply orb_false_elim in Hb as [_ Hb].
    by rewrite same_value_zero_sym.
  - apply IH. lia.
Qed.

Lemma uniqBy_from_covers seen l x :
  x ∈ l →
  includes seen (string_of x) = true ∨
  ∃ y, y ∈ uniqBy_from seen l ∧ same_value_zero (string_of y) (string_of x) = true.
Proof.
  revert seen. induction l as [|v rest IH]; intros seen; simpl.
  - by intros ?%elem_of_nil.
  - destruct (includes seen (string_of v)) eqn:Hv.
    + intros [->|Hin]%elem_of_cons; [by left|by apply IH].
    + intros [->|Hin]%elem_of_cons.
      * right. exists v. split; [by left|apply same_value_zero_refl].
      * destruct (IH (seen ++ [string_of v]) Hin) as [Hseen|(y & Hy & Hxy)].
        -- rewrite includes_snoc in Hseen. apply orb_true_iff in Hseen as [?|Hxv]; [by left|].
           right. exists v. split; [by left|by rewrite same_value_zero_sym].
        -- right. exists y. split; [by right|done].
Qed.

Lemma uniqBy_from_first seen l1 x l2 :
  includes seen (string_of x) = false →
  (∀ y, y ∈ l1 → same_value_zero (string_of x) (string_of y) = false) →
  x ∈ uniqBy_from seen (l1 ++ x :: l2).
Proof.
  revert seen. induction l1 as [|y l1 IH]; intros seen Hseen Hl1; simpl.
  - rewrite Hseen. by left.
  - destruct (includes seen (string_of y)).
    + apply IH; [done|]. intros y' Hy'. apply Hl1. by right.
    + right. apply IH.
      * rewrite includes_snoc, Hseen. simpl. apply Hl1. by left.
      * intros y' Hy'. apply Hl1. by right.
Qed.

End UniqBy.

(** ** A second build over the same data *)

Section Rebuild.

Lemma add_word_registers key item entries :
  registered key item (add_word key item entries).
Proof.
  unfold registered, find_words.
  induction entries as [|o0 rest IH]; simpl.
  - rewrite String.eqb_refl. eexists. split; [done|]. simpl.
    by rewrite same_value_zero_refl.
  - destruct (String.eqb (words o0) key) eqn:Hk; simpl.
    + destruct (includes (refs o0) item) eqn:Hin; simpl; rewrite Hk;
        eexists; (split; [done|]); [done|].
      simpl. unfold includes. rewrite existsb_app. simpl.
      by rewrite same_value_zero_refl, orb_true_r.
    + by rewrite Hk.
Qed.

Lemma add_word_registered k x key item entries :
  registered k x entries → registered k x (add_word key item entries).
Proof.
  unfold registered, find_words.
  induction entries as [|o0 rest IH]; simpl; [by intros (? & ? & ?)|].
  destruct (String.eqb (words o0) k) eqn:Hk.
  - intros (o & [= <-] & Hin).
    destruct (String.eqb (words o0) key); simpl.
    + destruct (includes (refs o0) item); simpl; rewrite Hk;
        eexists; (split; [done|]); [done|].
      simpl. unfold includes in *. rewrite existsb_app. by rewrite Hin.
    + rewrite Hk. eauto.
  - intros Hreg. destruct (String.eqb (words o0) key); simpl.
    + destruct (includes (refs o0) item); simpl; rewrite Hk; auto.
    + rewrite Hk. auto.
Qed.

Lemma add_word_fixed key item entries :
  registered key item entries → add_word key item entries = entries.
Proof. intros (o & Hfind & Hin). by eapply add_word_present. Qed.

Lemma forEach_item_registered size items st k x :
  (registered k x (b_startWords st) →
   registered k x (b_startWords (forEach_item size items st).1)) ∧
  (registered k x (b_endWords st) →
   registered k x (b_endWords (forEach_item size items st).1)).
Proof.
  split; intros H.
  - apply (forEach_item_inv (fun st => registered k x (b_startWords st))); [|done].
    intros item wds st' _ _ Hst'. by apply add_word_registered.
  - apply (forEach_item_inv (fun st => registered k x (b_endWords st))); [|done].
    intros item wds st' _ _ Hst'. by apply add_word_registered.
Qed.

(** A [forEach] that raised nothing has registered every item. *)
Lemma forEach_item_registers size items st :
  (forEach_item size items st).2 = None →
  ∀ item, item ∈ items →
    ∃ wds, line_words item = Normal wds ∧
      registered (start_key size wds) item (b_startWords (forEach_item size items st).1) ∧
      registered (end_key size wds) item (b_endWords (forEach_item size items st).1).
Proof.
  revert st. induction items as [|item0 rest IH]; intros st.
  - by intros _ item ?%elem_of_nil.
  - cbn [forEach_item]. destruct (line_words item0) as [wds0|e] eqn:Hline; [|done].
    destruct (add_item size item0 wds0 st) as [st' [e|]] eqn:Hadd; [done|].
    intros Hnone item [->|Hin]%elem_of_cons; [|by apply IH].
    exists wds0. split; [done|].
    assert (st' = (add_item size item0 wds0 st).1) as -> by by rewrite Hadd.
    rewrite add_item_fields. cbn [fst].
    split; [apply forEach_item_registered|apply forEach_item_registered];
      apply add_word_registers.
Qed.

(** A second [forEach] over the same items, started from the start and end
    words that the first has left and from the corpus that the first was
    started from, does what the first did and leaves what the first left. *)
Lemma forEach_item_again size items st st' :
  b_corpus st' = b_corpus st →
  b_startWords st' = b_startWords (forEach_item size items st).1 →
  b_endWords st' = b_endWords (forEach_item size items st).1 →
  forEach_item size items st' = forEach_item size items st.
Proof.
  revert st st'. induction items as [|item rest IH]; intros st st'.
  - cbn [forEach_item fst]. intros Hc Hs He. destruct st, st'; simpl in *. by subst.
  - cbn [forEach_item]. destruct (line_words item) as [wds|e] eqn:Hline.
    2:{ cbn [fst]. intros Hc Hs He. destruct st, st'; simpl in *. by subst. }
    rewrite !add_item_fields. intros Hc. rewrite Hc.
    destruct (corpus_loop _ _ _ _ _) as [c [e|]]; cbn [fst snd].
    + cbn [b_startWords b_endWords]. intros -> ->.
      by rewrite !(add_word_fixed _ _ (add_word _ _ _)) by apply add_word_registers.
    + set (sta := {| b_startWords := add_word (start_key size wds) item (b_startWords st);
                     b_endWords := add_word (end_key size wds) item (b_endWords st);
                     b_corpus := c |}).
      intros Hs He.
      destruct (forEach_item_registered size rest sta (start_key size wds) item)
        as [Hstart _].
      destruct (forEach_item_registered size rest sta (end_key size wds) item)
        as [_ Hend].
      apply IH; cbn [b_corpus b_startWords b_endWords]; [done| |].
      * rewrite Hs. apply add_word_fixed, Hstart. apply add_word_registers.
      * rewrite He. apply add_word_fixed, Hend. apply add_word_registers.
Qed.

(** Building again, with the data and the options as they were, changes
    nothing. *)
Lemma buildCorpusSync_again this :
  buildCorpusSync (buildCorpusSync this).1 = buildCorpusSync this.
Proof.
  unfold buildCorpusSync.
  set (size := stateSize (options this)).
  set (st0 := {| b_startWords := startWords this; b_endWords := endWords this;
                 b_corpus := ∅ |}).
  pose proof (forEach_item_again size (data this) st0) as Hagain.
  destruct (forEach_item size (data this) st0) as [st1 err1] eqn:Hfirst.
  cbn [fst data options startWords endWords] in *. fold size.
  by rewrite Hagain.
Qed.

End Rebuild.

(** ** Small facts used by the theorems *)


Lemma some_words_spec (entries : list Entry) (w : string) :
  some_words entries w = true ↔ ∃ o, o ∈ entries ∧ words o = w.
Proof.
  unfold some_words. rewrite existsb_exists. split.
  - intros (o & Hin & Heq). exists o. split; [by apply list_elem_of_In|].
    by apply String.eqb_eq.
  - intros (o & Hin & Heq). exists o. split; [by apply list_elem_of_In|].
    by apply String.eqb_eq.
Qed.

(** What an attempt that is not given up satisfies. *)
Lemma rejected_false (options : MarkovOptions) (w : WalkState) (r : Result.t) :
  rejected options w r = false →
  ended w = true ∧
  (∀ f, checker options = Some f → f (Result.string r) = true) ∧
  (∀ f, filter options = Some f → f r = true) ∧
  (0 < minWords options → minWords options ≤ token_count (Result.string r)) ∧
  (0 < maxWords options → token_count (Result.string r) ≤ maxWords options) ∧
  (0 < maxLength options → char_length (Result.string r) ≤ maxLength options) ∧
  (minScore options ≠ 0 → minScore options ≤ Result.score r) ∧
  (minScorePerWord options ≠ 0 → minScorePerWord options ≤ Result.scorePerWord r).
Proof.
  unfold rejected. intros H.
  repeat (apply orb_false_elim in H as [H ?]).
  apply negb_false_iff in H.
  split; [done|].
  split. { intros f Hf. rewrite Hf in *. by apply negb_false_iff. }
  split. { intros f Hf. rewrite Hf in *. by apply negb_false_iff. }
  repeat split; intros Hpos;
    repeat match goal with
    | Hb : _ && _ = false |- _ => apply andb_false_iff in Hb as [Hb|Hb]
    | Hb : negb _ = false |- _ => apply negb_false_iff in Hb
    | Hb : (_ =? _) = true |- _ => apply Z.eqb_eq in Hb
    | Hb : (_ <? _) = false |- _ => apply Z.ltb_ge in Hb
    end; lia.
Qed.

(** A new instance has an empty corpus, which is not a falsy value, and
    empty [startWords] and [endWords]. *)
Lemma constructor_fields data opts m :
  constructor data opts = Normal m →
  corpus m = Some ∅ ∧ startWords m = [] ∧ endWords m = [] ∧
  options m = assignIn defaultOptions opts.
Proof.
  unfold constructor.
  destruct (isString _); [by intros [= <-]|].
  destruct (hasOwnProperty_string _) as [[|]|]; [|done..].
  by intros [= <-].
Qed.

(** Without start words a call makes no attempt. *)
Lemma generateSentenceSync_no_startWords fuel rand this opts c :
  corpus this = Some c → startWords this = [] →
  generateSentenceSync (S fuel) rand this opts =
  Some {| outcome := Throw (if 0 <? maxTries (assignIn (options this) opts)
                            then TypeError else GenerationExhausted);
          attempts := [] |}.
Proof.
  intros Hc Hs. unfold generateSentenceSync. rewrite Hc.
  cbn [loop]. unfold try_body. cbn [i next_pos tried]. rewrite Hs.
  by destruct (0 <? maxTries _).
Qed.

(** * The claims *)

(** ** Building *)

(** C1 (the code departs from the claim).  [buildCorpusSync] resets
    [corpus] only.  The corpus after a build is the corpus of a single build
    over the current data, and a second build over data that did not change
    changes nothing; but the keys that [startWords] and [endWords] held
    before the call are still there after it.  When the caller replaced the
    item ["a b c d"] by the item ["e f g h"] between two builds, the second
    build leaves the start state ["a b"] and the end state ["c d"] of the
    item that is gone, which a single build over the current data does not
    have. *)
Theorem rebuild_keeps_old_start_and_end_words :
  (∀ this, corpus (buildCorpusSync this).1
           = corpus (buildCorpusSync (without_index this)).1) ∧
  (∀ this, buildCorpusSync (buildCorpusSync this).1 = buildCorpusSync this) ∧
  (∀ this k,
     (is_Some (find_words k (startWords this)) →
      is_Some (find_words k (startWords (buildCorpusSync this).1))) ∧
     (is_Some (find_words k (endWords this)) →
      is_Some (find_words k (endWords (buildCorpusSync this).1)))) ∧
  let old := JObject 1 (Some (JString "a b c d")) in
  let new := JObject 2 (Some (JString "e f g h")) in
  let twice := (buildCorpusSync (set_data [new] (built_from [old]))).1 in
  let once := built_from [new] in
  startWords twice = [{| words := "a b"; refs := [old] |};
                      {| words := "e f"; refs := [new] |}] ∧
  startWords once = [{| words := "e f"; refs := [new] |}] ∧
  endWords twice = [{| words := "c d"; refs := [old] |};
                    {| words := "g h"; refs := [new] |}] ∧
  endWords once = [{| words := "g h"; refs := [new] |}] ∧
  corpus twice = corpus once.
Proof.
  split; [|split; [|split]].
  - intros this. rewrite !buildCorpusSync_corpus. f_equal.
    by apply forEach_item_corpus.
  - apply buildCorpusSync_again.
  - intros this k. unfold buildCorpusSync.
    pose proof (forEach_item_keeps (stateSize (options this)) (data this)
      {| b_startWords := startWords this; b_endWords := endWords this;
         b_corpus := ∅ |} k) as Hkeeps.
    by destruct (forEach_item _ _ _).
  - by vm_compute.
Qed.

(** C3.  After [buildCorpusSync], whatever the instance held before and
    whether or not the call raised, every key of the corpus and the [words]
    of every entry of its chains have exactly [stateSize] tokens; and the
    step of the loop raises nothing and adds nothing when the successor
    window has fewer than [stateSize] words, as the last windows of a line
    do. *)
Theorem corpus_states_have_stateSize_tokens (this : Markov) :
  let size := stateSize (options this) in
  (∃ c, corpus (buildCorpusSync this).1 = Some c ∧
     ∀ key chain, c !! key = Some chain →
       token_count key = size ∧
       ∀ o, o ∈ chain → token_count (words o) = size) ∧
  (∀ item line c i,
     Z.of_nat (length (next_window size (split line) i)) < size →
     corpus_step size item (split line) c i = Normal c).
Proof.
  intros size. split.
  - eexists. split; [apply buildCorpusSync_corpus|].
    apply forEach_item_keys. simpl. intros key chain Hlook.
    by rewrite lookup_empty in Hlook.
  - intros item line c i Hshort. apply corpus_step_skip.
    + apply split_no_space.
    + right. lia.
Qed.

(** C8.  [add_word], which serves [startWords] and [endWords], leaves the
    list as it is when the entry of the key already refers to the item, and
    appends the item to the refs of that entry otherwise; [add_next], which
    serves the chains of the corpus, appends the item to the refs of the
    entry found in any case.  So the one item of ["a b a b a b"], in which
    the pair ["a b"], ["a b"] occurs twice, is twice in the refs of that
    transition, and once in the refs of its start and end states, also after
    a second build has met these again; a second object with the same text
    is another item and is added to the refs of the start state. *)
Theorem refs_deduplicated_in_index_only :
  (∀ key item entries o,
     find_words key entries = Some o →
     (includes (refs o) item = true → add_word key item entries = entries) ∧
     (includes (refs o) item = false →
      find_words key (add_word key item entries)
      = Some {| words := words o; refs := refs o ++ [item] |})) ∧
  (∀ next item chain o,
     find_words next chain = Some o →
     find_words next (add_next next item chain)
     = Some {| words := words o; refs := refs o ++ [item] |}) ∧
  let item := JObject 1 (Some (JString "a b a b a b")) in
  let m := (buildCorpusSync (built_from [item])).1 in
  (corpus m ≫= (.!! "a b")) = Some [{| words := "a b"; refs := [item; item] |}] ∧
  startWords m = [{| words := "a b"; refs := [item] |}] ∧
  endWords m = [{| words := "a b"; refs := [item] |}] ∧
  let twin := JObject 2 (Some (JString "a b a b a b")) in
  startWords (built_from [item; twin]) = [{| words := "a b"; refs := [item; twin] |}].
Proof.
  split; [|split].
  - intros key item entries o Hfind. split; intros Hin.
    + by eapply add_word_present.
    + by apply add_word_absent.
  - intros next item chain o Hfind. by apply add_next_found.
  - by vm_compute.
Qed.

(** A corpus without transitions: no attempt gets beyond its start entry or
    ends, and the call is exhausted unless there is no start entry at all. *)
Lemma no_transition_run fuel rand this opts run :
  corpus this = Some ∅ →
  generateSentenceSync fuel rand this opts = Some run →
  Forall (fun w => ended w = false ∧ length (arr w) = 1%nat) (attempts run) ∧
  (startWords this ≠ [] →
   outcome run = Throw GenerationExhausted ∧
   length (attempts run) = Z.to_nat (maxTries (assignIn (options this) opts))).
Proof.
  intros Hc Hrun.
  pose proof (generateSentenceSync_spec _ _ _ _ _ _ Hc Hrun) as Hspec.
  cbv zeta in Hspec. rewrite cloneDeep_empty in Hspec. destruct Hspec as [Hall Hout].
  assert (Forall (fun w => ended w = false ∧ length (arr w) = 1%nat) (attempts run))
    as Hstuck.
  { eapply Forall_impl; [exact Hall|].
    intros w ((first & Hhead & _) & Hpath & _ & _ & Hend).
    assert (length (arr w) = 1%nat) as Hlen.
    { destruct (arr w) as [|o [|o' rest]] eqn:Harr; [done|done|].
      specialize (Hpath 0%nat o o' eq_refl eq_refl).
      unfold available in Hpath. rewrite lookup_empty in Hpath.
      by apply elem_of_nil in Hpath. }
    split; [|done]. destruct (ended w); [|done].
    destruct Hend as [Htwo _]; [done|lia]. }
  split; [done|]. intros Hstart.
  destruct (outcome run) as [r|[]]; try done.
  - destruct Hout as (ws & w & Hatt & -> & Hrej & _).
    apply rejected_false in Hrej as [Hended _].
    rewrite Hatt in Hstuck. apply Forall_app in Hstuck as [_ Hw].
    inversion Hw as [|? ? [Hfalse _] _]; subst. congruence.
  - by destruct Hout as [_ ?].
  - by destruct Hout as [? _].
Qed.

(** C9, as amended.  When every line of the data has fewer than
    [2 * stateSize] words, the corpus that [buildCorpusSync] produces has no
    transition; generation over the instance returns (given fuel beyond
    [maxTries]), none of its attempts gets beyond its start entry and none
    ends, and with at least one start entry every one of the [maxTries]
    attempts is given up and the call fails with [GenerationExhausted],
    whether or not a start state is also an end state. *)
Theorem short_lines_give_no_transition (this : Markov) :
  (∀ item wds, item ∈ data this → line_words item = Normal wds →
     Z.of_nat (length wds) < 2 * stateSize (options this)) →
  let m := (buildCorpusSync this).1 in
  corpus m = Some ∅ ∧
  ∀ rand opts,
    let max := maxTries (assignIn (options m) opts) in
    (∀ fuel, (Z.to_nat max < fuel)%nat →
       is_Some (generateSentenceSync fuel rand m opts)) ∧
    (∀ fuel run, generateSentenceSync fuel rand m opts = Some run →
       Forall (fun w => ended w = false ∧ length (arr w) = 1%nat) (attempts run) ∧
       (startWords m ≠ [] →
        outcome run = Throw GenerationExhausted ∧
        length (attempts run) = Z.to_nat max)).
Proof.
  intros Hshort m.
  assert (corpus m = Some ∅) as Hc.
  { subst m. rewrite buildCorpusSync_corpus. f_equal.
    by rewrite forEach_item_no_transition. }
  split; [done|]. intros rand opts max. split.
  - intros fuel Hfuel. by apply generateSentenceSync_terminates.
  - intros fuel run Hrun. by eapply no_transition_run.
Qed.

Lemma short_lines_give_no_transition_witness :
  let this := instance_of (constructor [JString "a b"] no_options) in
  (∀ item wds, item ∈ data this → line_words item = Normal wds →
     Z.of_nat (length wds) < 2 * stateSize (options this)) ∧
  corpus (buildCorpusSync this).1 = Some ∅.
Proof.
  intros this.
  assert (∀ item wds, item ∈ data this → line_words item = Normal wds →
            Z.of_nat (length wds) < 2 * stateSize (options this)) as Hshort.
  { intros item wds Hin Hline. vm_compute in Hin.
    apply list_elem_of_singleton in Hin. subst item.
    vm_compute in Hline. injection Hline as <-. vm_compute. reflexivity. }
  split; [exact Hshort|].
  exact (proj1 (short_lines_give_no_transition this Hshort)).
Defined.

(** C9, as the claim states it, fails on the corpus [["a b"]] with the
    default [stateSize] of 2: its one line has fewer than 4 words, its start
    state ["a b"] is also its end state, and yet no attempt of any call ever
    reaches [ended = true]; every call that returns fails with
    [GenerationExhausted], and calls do return. *)
Lemma start_state_that_is_end_state_is_not_accepted :
  let m := built_from [JString "a b"] in
  (∃ o, o ∈ startWords m ∧ some_words (endWords m) (words o) = true) ∧
  (∀ rand, is_Some (generateSentenceSync (Z.to_nat 10001) rand m no_options)) ∧
  (∀ fuel rand run, generateSentenceSync fuel rand m no_options = Some run →
     outcome run = Throw GenerationExhausted) ∧
  ¬ (∃ fuel rand run w,
       generateSentenceSync fuel rand m no_options = Some run ∧
       w ∈ attempts run ∧ ended w = true).
Proof.
  intros m.
  assert (corpus m = Some ∅) as Hc by by vm_compute.
  assert (startWords m ≠ []) as Hs by by vm_compute.
  split; [|split; [|split]].
  - eexists. split; [by left|]. by vm_compute.
  - intros rand. apply generateSentenceSync_terminates.
    change (maxTries _) with 10000. lia.
  - intros fuel rand run Hrun.
    by destruct (no_transition_run _ _ _ _ _ Hc Hrun) as [_ [? _]].
  - intros (fuel & rand & run & w & Hrun & Hin & Hended).
    destruct (no_transition_run _ _ _ _ _ Hc Hrun) as [Hall _].
    rewrite Forall_forall in Hall. destruct (Hall w Hin). congruence.
Qed.

(** ** The constructor *)

Lemma wrap_strings_cons first rest :
  ∃ ref tail, wrap_strings (first :: rest) = JObject ref (Some first) :: tail ∧
              (max_ref first < ref)%nat.
Proof.
  unfold wrap_strings. simpl. eexists _, _. split; [done|]. lia.
Qed.

Lemma wrap_strings_lookup data k v :
  data !! k = Some v → ∃ ref, wrap_strings data !! k = Some (JObject ref (Some v)).
Proof.
  intros Hk. unfold wrap_strings. rewrite list_lookup_imap, Hk. simpl. eauto.
Qed.

Lemma wrap_strings_changes first rest : wrap_strings (first :: rest) ≠ first :: rest.
Proof.
  destruct (wrap_strings_cons first rest) as (ref & tail & -> & Hfresh).
  intros [= Hfirst _]. rewrite <- Hfirst in Hfresh. simpl in Hfresh. lia.
Qed.

(** C10, as the claim states it, fails when the first element is [null]:
    it is a value that is not a string and has no [string] property, and
    the constructor raises a [TypeError], not the error about the missing
    property.  The same happens for an empty list, whose first element is
    [undefined]. *)
Lemma null_first_element_raises_TypeError :
  constructor [JNull] no_options = Throw TypeError ∧
  constructor [] no_options = Throw TypeError ∧
  ¬ (∀ first rest opts,
       constructor (first :: rest) opts = Throw InvalidCorpusItem ↔
       isString first = false ∧ has_string_property first = false).
Proof.
  split; [done|]. split; [done|]. intros Hclaim.
  destruct (Hclaim JNull [] no_options) as [_ Hraise].
  by specialize (Hraise (conj eq_refl eq_refl)).
Qed.

(** C10, as amended.  The constructor looks at the first element only.  The
    list is wrapped exactly when the first element is a string.  The error
    about the missing property is raised exactly when the first element is
    neither a string nor [null] nor [undefined] and has no own [string]
    property; a first element that is [null] or [undefined] raises a
    [TypeError], and so does an empty list.  When the first element is a
    string or an object with the property, no error is raised whatever the
    other elements are, and they are all kept, as they are or wrapped. *)
Theorem constructor_inspects_first_element_only (first : JsValue)
    (rest : list JsValue) (opts : OptionsArg) :
  let made := constructor (first :: rest) opts in
  ((∃ m, made = Normal m ∧ data m = wrap_strings (first :: rest)) ↔
   isString first = true) ∧
  (made = Throw InvalidCorpusItem ↔
   isString first = false ∧ has_string_property first = false ∧
   first ≠ JNull ∧ first ≠ JUndefined) ∧
  (made = Throw TypeError ↔ first = JNull ∨ first = JUndefined) ∧
  (isString first = true ∨ has_string_property first = true →
   ∃ m, made = Normal m ∧ length (data m) = S (length rest) ∧
        ∀ k v, rest !! k = Some v →
          data m !! S k = Some v ∨ ∃ ref, data m !! S k = Some (JObject ref (Some v))) ∧
  constructor [] opts = Throw TypeError.
Proof.
  intros made. subst made. unfold constructor.
  change (default JUndefined ((first :: rest) !! 0%nat)) with first.
  split; [|split; [|split; [|split; [|done]]]].
  - split.
    + intros (m & Hmade & Hdata).
      destruct first as [| | | |ref [p|]]; simpl in *; try done.
      injection Hmade as <-. simpl in Hdata.
      by destruct (wrap_strings_changes (JObject ref (Some p)) rest).
    + intros Hstr. rewrite Hstr. eauto.
  - destruct first as [| | | |ref [p|]]; simpl; split; try done;
      try (by intros (? & ? & ? & ?)); by repeat split.
  - destruct first as [| | | |ref [p|]]; simpl; split; try done;
      try (by intros [?|?]); auto.
  - intros Hgood.
    destruct first as [| | |line|ref [p|]]; simpl in *;
      try (by destruct Hgood).
    + eexists. split; [done|]. simpl. split.
      * unfold wrap_strings. by rewrite length_imap.
      * intros k v Hk. right.
        apply (wrap_strings_lookup (JString line :: rest) (S k) v Hk).
    + eexists. split; [done|]. simpl. split; [done|]. intros k v Hk. by left.
Qed.

(** ** Generation *)

(** C2 (the code departs from the claim).  On an instance that the
    constructor has just made, on which nothing was built, a call of
    [generateSentenceSync] makes no attempt and raises a [TypeError] when
    [maxTries] is positive and [GenerationExhausted] when it is not: the
    guard of line 137 does not fire, because the constructor has set
    [corpus] to an empty object, which is not a falsy value. *)
Theorem generation_before_build_is_not_ModelNotBuilt data opts m :
  constructor data opts = Normal m →
  ∀ fuel rand opts',
    generateSentenceSync (S fuel) rand m opts' =
    Some {| outcome := Throw (if 0 <? maxTries (assignIn (options m) opts')
                              then TypeError else GenerationExhausted);
            attempts := [] |}.
Proof.
  intros Hmade fuel rand opts'.
  destruct (constructor_fields _ _ _ Hmade) as (Hc & Hs & _).
  by eapply generateSentenceSync_no_startWords.
Qed.

Lemma generation_before_build_is_not_ModelNotBuilt_witness :
  ∃ m, constructor cat_and_dog no_options = Normal m ∧
       generateSentenceSync 1 first_choice m no_options =
       Some {| outcome := Throw TypeError; attempts := [] |}.
Proof.
  eexists. split; [reflexivity|].
  exact (generation_before_build_is_not_ModelNotBuilt cat_and_dog no_options _
           eq_refl 0%nat first_choice no_options).
Defined.

(** A result that is returned is composed from the last attempt, which was
    not given up. *)
Lemma returned_result fuel rand this opts run r :
  generateSentenceSync fuel rand this opts = Some run →
  outcome run = Normal r →
  ∃ c w, corpus this = Some c ∧ last (attempts run) = Some w ∧ r = compose w ∧
         walk_ok this (cloneDeep (next_ref this) c)
           (maxTries (assignIn (options this) opts)) w ∧
         rejected (assignIn (options this) opts) w r = false.
Proof.
  intros Hrun Hout.
  destruct (corpus this) as [c|] eqn:Hc.
  2:{ unfold generateSentenceSync in Hrun. rewrite Hc in Hrun.
      injection Hrun as <-. done. }
  destruct (generateSentenceSync_spec _ _ _ _ _ _ Hc Hrun) as [Hall Hok].
  rewrite Hout in Hok. destruct Hok as (ws & w & Hatt & -> & Hrej & _).
  exists c, w. rewrite Hatt, last_snoc. do 3 (split; [done|]). split; [|done].
  rewrite Hatt in Hall. apply Forall_app in Hall as [_ Hw]. by inversion Hw.
Qed.





(** C6, as the claim states it, fails for the ceiling on the length of the
    path: with [maxTries] at 1 the one attempt over the corpus of the cat
    and the dog has a path of two elements, ["the cat"] and ["sat on"]. *)
Lemma path_can_exceed_maxTries :
  ¬ (∀ fuel rand this opts run w,
       generateSentenceSync fuel rand this opts = Some run →
       w ∈ attempts run →
       Z.of_nat (length (arr w)) ≤ maxTries (assignIn (options this) opts)).
Proof.
  intros Hclaim.
  specialize (Hclaim 2%nat first_choice (built_from cat_and_dog) (only_maxTries 1)
                _ _ ltac:(by vm_compute) ltac:(by left)).
  vm_compute in Hclaim. by apply Hclaim.
Qed.

(** C6, as amended.  [generateSentenceSync] returns: fuel beyond [maxTries]
    is enough for its two loops.  It makes at most [maxTries] attempts; the
    walk of each attempt takes at most [maxTries] steps, so that its path
    has at most [maxTries + 1] elements, the start element included; and
    when [maxTries] attempts were made and all were given up the call fails
    with [GenerationExhausted] (on an instance whose [corpus] passes the
    guard of line 137). *)
Theorem generateSentenceSync_bounded_by_maxTries fuel rand this opts :
  let options := assignIn (options this) opts in
  let max := maxTries options in
  (Z.to_nat max < fuel)%nat →
  ∃ run, generateSentenceSync fuel rand this opts = Some run ∧
    Z.of_nat (length (attempts run)) ≤ Z.max 0 max ∧
    Forall (fun w => 1 ≤ Z.of_nat (length (arr w)) ≤ max + 1) (attempts run) ∧
    (is_Some (corpus this) →
     length (attempts run) = Z.to_nat max →
     Forall (given_up options) (attempts run) →
     outcome run = Throw GenerationExhausted).
Proof.
  intros options max Hfuel.
  destruct (generateSentenceSync_terminates fuel rand this opts Hfuel) as [run Hrun].
  exists run. split; [done|].
  destruct (corpus this) as [c|] eqn:Hc.
  2:{ unfold generateSentenceSync in Hrun. rewrite Hc in Hrun.
      injection Hrun as <-. simpl. split; [lia|]. split; [done|].
      by intros [? ?]. }
  destruct (generateSentenceSync_spec _ _ _ _ _ _ Hc Hrun) as [Hall Hok].
  fold options max in Hall, Hok.
  assert (Z.of_nat (length (attempts run)) ≤ Z.max 0 max) as Hcount.
  { destruct (outcome run) as [r|[]]; try done.
    - destruct Hok as (ws & w & -> & _ & _ & _ & Hlt).
      rewrite length_app. simpl. lia.
    - destruct Hok as [_ ->]. lia.
    - destruct Hok as (_ & -> & _). simpl. lia. }
  split; [done|]. split.
  - apply Forall_forall. intros w Hin.
    assert (0 < max) as Hpos.
    { destruct (attempts run); [by apply elem_of_nil in Hin|simpl in Hcount; lia]. }
    rewrite Forall_forall in Hall.
    destruct (Hall w Hin) as ((first & Hhead & _) & _ & _ & Hlen & _).
    destruct (arr w); [done|]. simpl in *. lia.
  - intros _ Hlen Hgiven.
    destruct (outcome run) as [r|[]]; try done.
    + destruct Hok as (ws & w & Hatt & -> & Hrej & _).
      rewrite Hatt in Hgiven. apply Forall_app in Hgiven as [_ Hw].
      inversion Hw as [|? ? Hup _]; subst. unfold given_up in Hup. congruence.
    + destruct Hok as (_ & Hatt & Hpos). rewrite Hatt in Hlen. simpl in Hlen. lia.
Qed.

Lemma generateSentenceSync_bounded_by_maxTries_witness :
  (Z.to_nat 5 < 6)%nat ∧
  ∃ run,
    generateSentenceSync 6 first_choice (built_from [JString "a b"]) (only_maxTries 5)
    = Some run ∧
    outcome run = Throw GenerationExhausted ∧ length (attempts run) = 5%nat ∧
    Z.of_nat (length (attempts run)) ≤ Z.max 0 5.
Proof.
  split; [by vm_compute|].
  destruct (generateSentenceSync_bounded_by_maxTries 6 first_choice
              (built_from [JString "a b"]) (only_maxTries 5))
    as (run & Hrun & Hbound & _); [by vm_compute|].
  exists run. split; [exact Hrun|].
  vm_compute in Hrun. injection Hrun as <-.
  split; [reflexivity|]. split; [reflexivity|]. exact Hbound.
Defined.

(** The key under which [_.uniqBy] files a value is the string [line]
    exactly for the items whose [string] is that string. *)
Lemma string_of_item (y : JsValue) (line : string) :
  same_value_zero (JString line) (string_of y) = true ↔ ∃ ref, y = item_of ref line.
Proof.
  split.
  - destruct y as [| | | |ref [[| | |t|]|]]; simpl; try done.
    intros ->%String.eqb_eq. by exists ref.
  - intros [ref ->]. simpl. apply String.eqb_refl.
Qed.

(** C7.  The refs of a result that is returned come from the refs of the
    elements of the path, in the order of the path: they are a subsequence
    of their concatenation.  No two of them are items with the same string
    as their [string].  Every string that is the [string] of an item among
    the refs of the path is the [string] of one of them.  An item before
    which the refs of the path have no item with the same [string] is one
    of them: the first occurrence is kept.  And two different objects with
    the same string as their [string] are never both among them. *)
Theorem result_refs_unique_by_string fuel rand this opts run r :
  generateSentenceSync fuel rand this opts = Some run →
  outcome run = Normal r →
  ∃ w, last (attempts run) = Some w ∧
    let all := concat (refs <$> arr w) in
    Result.refs r `sublist_of` all ∧
    (∀ i j ra rb sa sb, (i < j)%nat →
       Result.refs r !! i = Some (item_of ra sa) →
       Result.refs r !! j = Some (item_of rb sb) → sa ≠ sb) ∧
    (∀ rx s, item_of rx s ∈ all → ∃ ry, item_of ry s ∈ Result.refs r) ∧
    (∀ before rx s after, all = before ++ item_of rx s :: after →
       (∀ ry, item_of ry s ∉ before) → item_of rx s ∈ Result.refs r) ∧
    (∀ ra rb s, ra ≠ rb →
       item_of ra s ∈ Result.refs r → item_of rb s ∈ Result.refs r → False).
Proof.
  intros Hrun Hout.
  destruct (returned_result _ _ _ _ _ _ Hrun Hout) as (c & w & _ & Hlast & -> & _).
  exists w. split; [done|]. simpl. unfold uniqBy_string.
  set (all := concat (refs <$> arr w)).
  assert (∀ i j ra rb sa sb, (i < j)%nat →
            uniqBy_from [] all !! i = Some (item_of ra sa) →
            uniqBy_from [] all !! j = Some (item_of rb sb) → sa ≠ sb) as Hdistinct.
  { intros i j ra rb sa sb Hij Ha Hb Heq.
    pose proof (uniqBy_from_distinct [] all i j _ _ Hij Ha Hb) as Hne.
    simpl in Hne. apply String.eqb_neq in Hne. done. }
  split; [apply uniqBy_from_sublist|].
  split; [exact Hdistinct|].
  split; [|split].
  - intros rx s Hx.
    destruct (uniqBy_from_covers [] all _ Hx) as [?|(y & Hy & Hsame)]; [done|].
    rewrite same_value_zero_sym in Hsame.
    apply (string_of_item y s) in Hsame as [ry ->]. by exists ry.
  - intros before rx s after Hall Hbefore. rewrite Hall.
    apply uniqBy_from_first; [done|].
    intros y Hy. destruct (same_value_zero _ (string_of y)) eqn:Hsame; [|done].
    apply (string_of_item y s) in Hsame as [ry ->]. by destruct (Hbefore ry).
  - intros ra rb s Hab [i Hi]%list_elem_of_lookup [j Hj]%list_elem_of_lookup.
    destruct (Nat.lt_trichotomy i j) as [Hlt|[->|Hgt]].
    + by eapply (Hdistinct i j ra rb s s).
    + rewrite Hi in Hj. injection Hj as ->. done.
    + by eapply (Hdistinct j i rb ra s s).
Qed.

(** Over the three items of [twins], which all start with ["a b"]: the
    refs of the path are the three items, from the start entry, and the
    copies of the first two, from the entry of ["c d"].  The result keeps the
    first item and the third, which have different texts; the second item,
    another object with the text of the first, and the two copies are
    dropped. *)
Lemma result_refs_unique_by_string_witness :
  ∃ run r w,
    generateSentenceSync 4 first_choice (built_from twins) no_options = Some run ∧
    outcome run = Normal r ∧ last (attempts run) = Some w ∧
    concat (refs <$> arr w)
    = [item_of 1 "a b c d"; item_of 2 "a b c d"; item_of 3 "a b e f";
       item_of 5 "a b c d"; item_of 6 "a b c d"] ∧
    Result.refs r = [item_of 1 "a b c d"; item_of 3 "a b e f"] ∧
    Result.refs r `sublist_of` concat (refs <$> arr w) ∧
    item_of 2 "a b c d" ∉ Result.refs r.
Proof.
  eexists _, _, _. split; [by vm_compute|]. split; [reflexivity|].
  split; [reflexivity|]. split; [by vm_compute|]. split; [by vm_compute|].
  destruct (result_refs_unique_by_string 4 first_choice (built_from twins)
              no_options _ _ ltac:(by vm_compute) eq_refl)
    as (w & Hlast & Hsub & _ & _ & _ & Hcollapse).
  injection Hlast as <-. split; [exact Hsub|].
  intros Hin. apply (Hcollapse 1%nat 2%nat "a b c d"); [done| |exact Hin].
  apply list_elem_of_lookup. exists 0%nat. by vm_compute.
Defined.

(** ** The scenario of the specification *)

Example cat_and_dog_index :
  startWords (built_from cat_and_dog)
  = [{| words := "the cat"; refs := [JObject 1 (Some (JString "the cat sat on the mat"))] |};
     {| words := "the dog"; refs := [JObject 2 (Some (JString "the dog sat on the rug"))] |}] ∧
  endWords (built_from cat_and_dog)
  = [{| words := "the mat"; refs := [JObject 1 (Some (JString "the cat sat on the mat"))] |};
     {| words := "the rug"; refs := [JObject 2 (Some (JString "the dog sat on the rug"))] |}].
Proof. by vm_compute. Qed.

Example cat_and_dog_chain :
  (corpus (built_from cat_and_dog) ≫= (.!! "sat on"))
  = Some [{| words := "the mat"; refs := [JObject 1 (Some (JString "the cat sat on the mat"))] |};
          {| words := "the rug"; refs := [JObject 2 (Some (JString "the dog sat on the rug"))] |}].
Proof. by vm_compute. Qed.

Example cat_and_dog_sentence :
  outcome <$> generateSentenceSync 4 first_choice (built_from cat_and_dog) no_options
  = Some (Normal {| Result.string := "the cat sat on the mat"; Result.score := 1;
                    Result.scorePerWord := 1;
                    Result.refs := [JObject 1 (Some (JString "the cat sat on the mat"))] |}).
Proof. by vm_compute. Qed.

(** Every sentence over the corpus of the cat and the dog has 6 words, 22
    characters and a score of 1: a [maxWords] of 5, a [maxLength] of 21 or a
    [minScore] of 2 makes every attempt be given up. *)
Example constraints_give_up_every_attempt :
  let exhausted opts :=
    outcome <$> generateSentenceSync 4 first_choice (built_from cat_and_dog) opts
    = Some (Throw GenerationExhausted) in
  exhausted {| arg_stateSize := None; arg_maxLength := None; arg_minWords := None;
               arg_maxWords := Some 5; arg_minScore := None;
               arg_minScorePerWord := None; arg_maxTries := Some 3;
               arg_checker := None; arg_filter := None |} ∧
  exhausted {| arg_stateSize := None; arg_maxLength := Some 21; arg_minWords := None;
               arg_maxWords := None; arg_minScore := None;
               arg_minScorePerWord := None; arg_maxTries := Some 3;
               arg_checker := None; arg_filter := None |} ∧
  exhausted {| arg_stateSize := None; arg_maxLength := None; arg_minWords := None;
               arg_maxWords := None; arg_minScore := Some 2;
               arg_minScorePerWord := None; arg_maxTries := Some 3;
               arg_checker := None; arg_filter := None |}.
Proof. by vm_compute. Qed.

Example same_text_collapses :
  uniqBy_string [JObject 1 (Some (JString "a b")); JObject 2 (Some (JString "c d"));
                 JObject 3 (Some (JString "a b"))]
  = [JObject 1 (Some (JString "a b")); JObject 2 (Some (JString "c d"))].
Proof. reflexivity. Qed.

Example split_double_space : split "the cat  sat" = ["the"; "cat"; ""; "sat"].
Proof. reflexivity. Qed.

Example trim_both_ends : trim "  a b " = "a b".
Proof. reflexivity. Qed.

Example slice_negative_start : slice ["a"; "b"; "c"] (3 - 4) 3 = ["c"].
Proof. reflexivity. Qed.

(** * Further properties of the code *)

(** ** Errors of a build *)

Section BuildErrors.
Implicit Types (items : list JsValue) (st : BuildState) (c : gmap string (list Entry)).

Lemma line_words_well_formed item :
  (∃ wds, line_words item = Normal wds) ↔ well_formed item.
Proof.
  split.
  - intros [wds Hline].
    destruct item as [| | | |ref [[| | |line|]|]]; simplify_eq/=. by exists ref, line.
  - intros (ref & line & ->). simpl. eauto.
Qed.

Lemma line_words_error item e : line_words item = Throw e → e = TypeError.
Proof.
  destruct item as [| | | |ref [[| | |line|]|]]; simpl; congruence.
Qed.

Lemma well_formed_or_not items :
  Forall well_formed items ∨ ∃ item, item ∈ items ∧ ¬ well_formed item.
Proof.
  induction items as [|item rest [IH|(bad & Hin & Hbad)]].
  - left. constructor.
  - destruct (line_words item) as [wds|e] eqn:Hline.
    + left. constructor; [|done]. apply line_words_well_formed. eauto.
    + right. exists item. split; [by left|].
      intros [wds Hwds]%line_words_well_formed. congruence.
  - right. exists bad. split; [by right|done].
Qed.

(** What a build raises is a [TypeError], and a build that raises nothing
    has met well-formed items only. *)
Lemma forEach_item_error size items st :
  (∀ e, (forEach_item size items st).2 = Some e → e = TypeError) ∧
  ((forEach_item size items st).2 = None → Forall well_formed items).
Proof.
  revert st. induction items as [|item rest IH]; intros st; cbn [forEach_item].
  - split; [done|]. by constructor.
  - destruct (line_words item) as [wds|e0] eqn:Hline.
    + pose proof (add_item_error size item wds st) as Herr.
      destruct (add_item size item wds st) as [st' [e'|]].
      * split; [|done]. intros e [= <-]. by apply Herr.
      * destruct (IH st') as [IHerr IHnone]. split; [done|].
        intros Hnone. constructor; [|by apply IHnone].
        apply line_words_well_formed. eauto.
    + split; [|done]. intros e [= <-]. by eapply line_words_error.
Qed.

(** A key that passes the test of line 90 and is a single token is a word
    of the line, and the size of the states is 1. *)
Lemma written_key size wds i name :
  Forall no_space wds → 0 ≤ i →
  String.eqb (join (next_window size wds i)) ""
  || negb (token_count (join (next_window size wds i)) =? size) = false →
  token_count name = 1 →
  join (slice wds i (i + size)) = name → size = 1 ∧ name ∈ wds.
Proof.
  intros Hwds Hi Htest Hname Hkey.
  destruct (corpus_step_full size wds i Hwds Hi Htest) as [Hcurr _].
  rewrite Hkey, Hname in Hcurr. subst size. split; [done|].
  assert (i + 1 ≤ Z.of_nat (length wds)) as Hlen.
  { apply orb_false_elim in Htest as [Hne _].
    destruct (next_window 1 wds i) as [|w ws] eqn:Hwin; [done|].
    assert (Z.of_nat (length (next_window 1 wds i)) ≠ 0) as Hpos by by rewrite Hwin.
    unfold next_window in Hpos. rewrite slice_length in Hpos by lia. lia. }
  rewrite slice_take_drop in Hkey by lia.
  destruct (lookup_lt_is_Some_2 wds (Z.to_nat i)) as [w Hw]; [lia|].
  rewrite (drop_S _ _ _ Hw) in Hkey. simpl in Hkey. subst w.
  by eapply list_elem_of_lookup_2.
Qed.

(** A step over a line that has not [name] among its keys leaves a corpus
    without the key [name] without it. *)
Lemma corpus_step_free name size item wds c i c' :
  Forall no_space wds → 0 ≤ i → token_count name = 1 →
  (size = 1 → name ∉ wds) →
  c !! name = None →
  corpus_step size item wds c i = Normal c' → c' !! name = None.
Proof.
  intros Hwds Hi Hname Hfree Hc Hstep.
  apply corpus_step_Normal in Hstep as [->|[Htest Hwrite]]; [done|].
  assert (join (slice wds i (i + size)) ≠ name) as Hne.
  { intros Hkey.
    destruct (written_key size wds i name Hwds Hi Htest Hname Hkey) as [Hsize Hin].
    by apply Hfree. }
  destruct Hwrite as [(_ & chain & _ & ->)|[_ ->]]; by rewrite lookup_insert_ne.
Qed.

(** Over items none of which has [name] among its keys, a build that
    starts without the key [name] ends without it. *)
Lemma forEach_item_keeps_free name size items st :
  token_count name = 1 → key_free name size items →
  b_corpus st !! name = None →
  b_corpus (forEach_item size items st).1 !! name = None.
Proof.
  intros Hname Hfree.
  apply (forEach_item_inv (fun st => b_corpus st !! name = None)).
  intros item wds st' Hin Hline Hst'. rewrite add_item_fields. cbn [fst b_corpus].
  apply (corpus_loop_inv (fun c => c !! name = None)); [|done].
  intros i c c' Hi Hc. apply corpus_step_free; [by eapply line_words_no_space| |done| |done].
  - apply elem_of_seqZ in Hi. lia.
  - intros Hsize. by eapply Hfree.
Qed.

Lemma corpus_loop_free size item wds idx c :
  Forall no_space wds → Forall (fun i => 0 ≤ i) idx →
  (size = 1 → "hasOwnProperty" ∉ wds) →
  c !! "hasOwnProperty" = None →
  (corpus_loop size item wds idx c).2 = None ∧
  (corpus_loop size item wds idx c).1 !! "hasOwnProperty" = None.
Proof.
  intros Hwds Hidx Hfree. revert c.
  induction Hidx as [|i idx Hi _ IH]; intros c Hc; simpl; [done|].
  destruct (corpus_step size item wds c i) as [c'|e] eqn:Hstep.
  - apply IH. by eapply (corpus_step_free "hasOwnProperty").
  - destruct (corpus_step_Throw _ _ _ _ _ _ Hstep) as [_ [chain Hown]]. congruence.
Qed.

(** Over items none of which has [hasOwnProperty] among its keys, a build
    that starts without that key raises nothing at line 94. *)
Lemma forEach_item_free size items st :
  key_free "hasOwnProperty" size items →
  b_corpus st !! "hasOwnProperty" = None →
  Forall well_formed items →
  (forEach_item size items st).2 = None.
Proof.
  revert st. induction items as [|item rest IH]; intros st Hfree Hst Hwf; [done|].
  cbn [forEach_item]. inversion Hwf as [|? ? Hitem Hrest]; subst.
  apply line_words_well_formed in Hitem as [wds Hline]. rewrite Hline.
  rewrite add_item_fields.
  destruct (corpus_loop_free size item wds (seqZ 0 (Z.of_nat (length wds) - 1))
              (b_corpus st)) as [Hnone Hkey];
    [by eapply line_words_no_space|apply seqZ_nonneg| |done|].
  { intros Hsize. eapply Hfree; [done|by left|done]. }
  destruct (corpus_loop _ _ _ _ _) as [c [e|]]; [done|]. cbn [fst snd] in *.
  apply IH; [|done..]. intros Hsize x wx Hx. apply Hfree; [done|by right].
Qed.


Lemma buildCorpusSync_fields this :
  let st := forEach_item (stateSize (options this)) (data this)
              {| b_startWords := startWords this; b_endWords := endWords this;
                 b_corpus := ∅ |} in
  buildCorpusSync this
  = ({| data := data this; options := options this;
        startWords := b_startWords st.1; endWords := b_endWords st.1;
        corpus := Some (b_corpus st.1) |}, st.2).
Proof. unfold buildCorpusSync. by destruct (forEach_item _ _ _). Qed.

(** When no key is [hasOwnProperty], a build raises exactly when an item
    is malformed. *)
Lemma buildCorpusSync_error this :
  key_free "hasOwnProperty" (stateSize (options this)) (data this) →
  (buildCorpusSync this).2 = None ↔ Forall well_formed (data this).
Proof.
  intros Hfree. rewrite buildCorpusSync_fields. cbn [snd]. split.
  - apply forEach_item_error.
  - by apply forEach_item_free.
Qed.

Lemma buildCorpusSync_keeps_free name this c :
  token_count name = 1 → key_free name (stateSize (options this)) (data this) →
  corpus (buildCorpusSync this).1 = Some c → c !! name = None.
Proof.
  intros Hname Hfree. rewrite buildCorpusSync_fields. cbn [fst corpus]. intros [= <-].
  by apply forEach_item_keeps_free.
Qed.

End BuildErrors.

(** X1.  On data none of whose keys is [hasOwnProperty], [buildCorpusSync]
    raises exactly when some item of the data is not an object whose
    [string] is a string.  What it raises is a [TypeError]; it changes
    neither the data nor the options; and the promise of [buildCorpus] is
    resolved when nothing is raised and rejected with the error otherwise,
    the instance being the one that [buildCorpusSync] leaves. *)
Theorem build_raises_iff_item_malformed (this : Markov) :
  key_free "hasOwnProperty" (stateSize (options this)) (data this) →
  let sync := buildCorpusSync this in
  (sync.2 = None ↔ ∀ item, item ∈ data this → well_formed item) ∧
  (∀ e, sync.2 = Some e → e = TypeError) ∧
  data sync.1 = data this ∧ options sync.1 = options this ∧
  (buildCorpus this).1 = sync.1 ∧
  ((buildCorpus this).2 = Resolved tt ↔ ∀ item, item ∈ data this → well_formed item) ∧
  ((buildCorpus this).2 = Rejected TypeError ↔
   ∃ item, item ∈ data this ∧ ¬ well_formed item).
Proof.
  intros Hfree sync. subst sync. unfold buildCorpus.
  pose proof (buildCorpusSync_error this Hfree) as Hnone.
  rewrite Forall_forall in Hnone.
  rewrite buildCorpusSync_fields in Hnone |- *. cbn [fst snd data options] in Hnone |- *.
  destruct (forEach_item_error (stateSize (options this)) (data this)
    {| b_startWords := startWords this; b_endWords := endWords this; b_corpus := ∅ |})
    as [Herr _].
  destruct (forEach_item _ _ _).2 as [e|] eqn:He.
  - rewrite (Herr e eq_refl).
    assert (¬ ∀ item, item ∈ data this → well_formed item) as Hnot.
    { intros Hall. by apply Hnone in Hall. }
    assert (∃ item, item ∈ data this ∧ ¬ well_formed item) as Hbad.
    { destruct (well_formed_or_not (data this)) as [Hall|Hsome]; [|done].
      destruct Hnot. by apply Forall_forall. }
    split; [by split|]. split; [by intros ? [= <-]|].
    do 3 (split; [done|]). split; [by split|]. by split.
  - assert (∀ item, item ∈ data this → well_formed item) as Hall by by apply Hnone.
    split; [by split|]. split; [done|].
    do 3 (split; [done|]). split; [by split|].
    split; [done|]. intros (item & Hin & Hbad). destruct Hbad. by apply Hall.
Qed.

Lemma build_raises_iff_item_malformed_witness :
  let this := instance_of (constructor [JString "a b c"; JString "b d"]
                             (with_stateSize 1 no_options)) in
  stateSize (options this) = 1 ∧
  key_free "hasOwnProperty" (stateSize (options this)) (data this) ∧
  (buildCorpusSync this).2 = None ∧ (buildCorpus this).2 = Resolved tt.
Proof.
  intros this.
  assert (key_free "hasOwnProperty" (stateSize (options this)) (data this)) as Hfree.
  { intros _ item wds Hin Hline. vm_compute in Hin.
    apply elem_of_cons in Hin as [->|Hin].
    - injection Hline as <-. apply (bool_decide_unpack _). by vm_compute.
    - apply list_elem_of_singleton in Hin as ->.
      injection Hline as <-. apply (bool_decide_unpack _). by vm_compute. }
  split; [reflexivity|]. split; [exact Hfree|].
  destruct (build_raises_iff_item_malformed this Hfree)
    as (Hnone & _ & _ & _ & _ & Hresolved & _).
  assert (∀ item, item ∈ data this → well_formed item) as Hall.
  { intros item Hin. vm_compute in Hin.
    apply elem_of_cons in Hin as [->|Hin]; [by eexists _, _|].
    apply list_elem_of_singleton in Hin as ->. by eexists _, _. }
  split; [by apply Hnone|by apply Hresolved].
Defined.

(** Without that condition a build can raise although every item is well
    formed.  With a [stateSize] of 1 the line ["hasOwnProperty a b"] writes
    the chain of the key [hasOwnProperty] at its first step; at the second
    step line 94 finds that chain where it looks for the method, and the
    call raises a [TypeError].  The start and end words were written before,
    the corpus keeps its one chain, and no sentence can be generated. *)
Example hasOwnProperty_key_breaks_the_build :
  let item := item_of 1 "hasOwnProperty a b" in
  let this := instance_of (constructor [item] (with_stateSize 1 no_options)) in
  let m := (buildCorpusSync this).1 in
  well_formed item ∧
  (buildCorpusSync this).2 = Some TypeError ∧
  (buildCorpus this).2 = Rejected TypeError ∧
  startWords m = [{| words := "hasOwnProperty"; refs := [item] |}] ∧
  endWords m = [{| words := "b"; refs := [item] |}] ∧
  corpus m = Some {[ "hasOwnProperty" := [{| words := "a"; refs := [item] |}] ]} ∧
  outcome <$> generateSentenceSync 4 first_choice m (only_maxTries 3)
  = Some (Throw GenerationExhausted).
Proof.
  intros item this m. split; [by eexists _, _|].
  split; [by vm_compute|]. split; [by vm_compute|]. split; [by vm_compute|].
  split; [by vm_compute|]. split; [by vm_compute|]. by vm_compute.
Qed.

(** The key [__proto__] keeps no chain from one line to the next: line 94
    does not find it among the own properties, so that line 105 replaces
    what an earlier line had put there.  The chain of the second line is the
    only one that generation reads. *)
Example proto_key_is_replaced :
  let this := instance_of (constructor [JString "__proto__ a"; JString "__proto__ b"]
                             (with_stateSize 1 no_options)) in
  let m := (buildCorpusSync this).1 in
  (buildCorpusSync this).2 = None ∧
  corpus m
  = Some {[ "__proto__" := [{| words := "b"; refs := [item_of 2 "__proto__ b"] |}] ]} ∧
  outcome <$> generateSentenceSync 4 first_choice m (only_maxTries 3)
  = Some (Normal {| Result.string := "__proto__ b";
                    Result.score := 0;
                    Result.scorePerWord := 0;
                    Result.refs := [item_of 1 "__proto__ a"; item_of 2 "__proto__ b"] |}).
Proof. intros this m. split; [by vm_compute|]. split; by vm_compute. Qed.



Lemma wrap_strings_lookup_inv data k v :
  wrap_strings data !! k = Some v →
  ∃ x, data !! k = Some x ∧
       v = JObject (S (foldr Nat.max 0%nat (max_ref <$> data)) + k) (Some x).
Proof.
  unfold wrap_strings. rewrite list_lookup_imap.
  destruct (data !! k) as [x|]; simpl; [|done]. intros [= <-]. eauto.
Qed.

(** X3.  From a list of strings that is not empty the constructor makes one
    item per string, in the order of the list, each a new object with the
    string as its [string]; no two of these items are the same object; and
    [buildCorpusSync] on the instance raises nothing, provided that no key
    is [hasOwnProperty]: that the [stateSize] is not 1 or no string has
    [hasOwnProperty] among its words. *)
Theorem build_from_strings_succeeds (strings : list JsValue) (opts : OptionsArg) :
  strings ≠ [] → Forall (fun v => isString v = true) strings →
  (stateSize (assignIn defaultOptions opts) = 1 →
   ∀ line, JString line ∈ strings → "hasOwnProperty" ∉ split line) →
  ∃ m, constructor strings opts = Normal m ∧
    length (data m) = length strings ∧
    (∀ k v, strings !! k = Some v → ∃ ref, data m !! k = Some (JObject ref (Some v))) ∧
    (∀ j k a b, j ≠ k → data m !! j = Some a → data m !! k = Some b →
       same_value_zero a b = false) ∧
    (buildCorpusSync m).2 = None.
Proof.
  intros Hne Hstrings Hfree.
  destruct strings as [|first rest]; [done|].
  inversion Hstrings as [|? ? Hfirst _]; subst.
  unfold constructor. change (default JUndefined ((first :: rest) !! 0%nat)) with first.
  rewrite Hfirst. eexists. split; [done|]. cbn [data].
  split; [unfold wrap_strings; by rewrite length_imap|].
  split; [intros k v; apply wrap_strings_lookup|].
  split.
  - intros j k a b Hjk (x & _ & ->)%wrap_strings_lookup_inv
      (y & _ & ->)%wrap_strings_lookup_inv.
    simpl. apply Nat.eqb_neq. lia.
  - apply buildCorpusSync_error; cbn [data options].
    + intros Hsize item wds [k Hk]%list_elem_of_lookup Hline.
      apply wrap_strings_lookup_inv in Hk as (x & Hx & ->).
      apply list_elem_of_lookup_2 in Hx.
      destruct x as [| | |line|]; try done. injection Hline as <-. by apply Hfree.
    + apply Forall_forall. intros item [k Hk]%list_elem_of_lookup.
      apply wrap_strings_lookup_inv in Hk as (x & Hx & ->).
      apply list_elem_of_lookup_2 in Hx. rewrite Forall_forall in Hstrings.
      specialize (Hstrings x Hx). destruct x; try done. by eexists _, _.
Qed.

Lemma build_from_strings_succeeds_witness :
  let opts := with_stateSize 1 no_options in
  cat_and_dog ≠ [] ∧ Forall (fun v => isString v = true) cat_and_dog ∧
  stateSize (assignIn defaultOptions opts) = 1 ∧
  ∃ m, constructor cat_and_dog opts = Normal m ∧ (buildCorpusSync m).2 = None.
Proof.
  intros opts.
  assert (cat_and_dog ≠ []) as Hne by done.
  assert (Forall (fun v => isString v = true) cat_and_dog) as Hall
    by (repeat constructor).
  split; [exact Hne|]. split; [exact Hall|]. split; [reflexivity|].
  destruct (build_from_strings_succeeds cat_and_dog opts Hne Hall)
    as (m & Hm & _ & _ & _ & Hbuild).
  - intros _ line Hin. unfold cat_and_dog in Hin.
    apply elem_of_cons in Hin as [[= ->]|Hin].
    + apply (bool_decide_unpack _). by vm_compute.
    + apply list_elem_of_singleton in Hin as [= ->].
      apply (bool_decide_unpack _). by vm_compute.
  - exists m. by split.
Defined.

(** ** The lists of start and end words *)

Section Index.
Implicit Types (entries : list Entry) (items : list JsValue) (st : BuildState).

(** What the entries of [add_word] are. *)
Lemma add_word_elem key item entries o' :
  o' ∈ add_word key item entries →
  o' ∈ entries ∨
  (o' = {| words := key; refs := [item] |} ∧ key ∉ words <$> entries) ∨
  (∃ o, o ∈ entries ∧ words o = key ∧ includes (refs o) item = false ∧
        o' = {| words := key; refs := refs o ++ [item] |}).
Proof.
  induction entries as [|o0 rest IH]; simpl.
  - intros ->%list_elem_of_singleton. right. left. split; [done|]. by intros ?%elem_of_nil.
  - destruct (String.eqb_spec (words o0) key) as [Heq|Hne].
    + destruct (includes (refs o0) item) eqn:Hin.
      * intros H. by left.
      * intros [->|Hrest]%elem_of_cons.
        -- right. right. exists o0. rewrite Heq. repeat split; [by left|done].
        -- left. by right.
    + intros [->|Hrest]%elem_of_cons; [left; by left|].
      destruct (IH Hrest) as [?|[[-> Hnew]|(o & Ho & Hk & Hin & ->)]].
      * left. by right.
      * right. left. split; [done|]. simpl. intros [?|?]%elem_of_cons; done.
      * right. right. exists o. repeat split; [by right|done..].
Qed.

Lemma add_word_words key item entries :
  words <$> add_word key item entries
  = (words <$> entries) ++ (if decide (key ∈ words <$> entries) then [] else [key]).
Proof.
  induction entries as [|o0 rest IH]; cbn [add_word].
  - rewrite decide_False; [done|]. by intros ?%elem_of_nil.
  - destruct (String.eqb_spec (words o0) key) as [Heq|Hne].
    + rewrite decide_True by (rewrite fmap_cons, Heq; by left).
      rewrite app_nil_r. by destruct (includes (refs o0) item).
    + rewrite !fmap_cons, IH. rewrite <- app_comm_cons. f_equal. f_equal.
      destruct (decide (key ∈ words <$> rest)) as [Hin|Hout].
      * rewrite decide_True; [done|by right].
      * rewrite decide_False; [done|]. intros [?|?]%elem_of_cons; done.
Qed.

Lemma includes_false l x a : includes l x = false → a ∈ l → same_value_zero a x = false.
Proof.
  unfold includes. intros Hex Hin. rewrite same_value_zero_sym.
  destruct (same_value_zero x a) eqn:Hxa; [|done].
  assert (existsb (same_value_zero x) l = true) as Htrue; [|congruence].
  apply existsb_exists. exists a. split; [by apply list_elem_of_In|done].
Qed.

Lemma distinct_items_snoc l x :
  distinct_items l → includes l x = false → distinct_items (l ++ [x]).
Proof.
  intros Hl Hx j k a b Hjk Ha Hb.
  pose proof (lookup_lt_Some _ _ _ Hb) as Hk. rewrite length_app in Hk. simpl in Hk.
  rewrite lookup_app_l in Ha by lia.
  destruct (decide (k = length l)) as [->|Hne].
  - rewrite lookup_app_r in Hb by lia. rewrite Nat.sub_diag in Hb.
    simpl in Hb. injection Hb as <-.
    eapply includes_false; [exact Hx|]. by eapply list_elem_of_lookup_2.
  - rewrite lookup_app_l in Hb by lia. exact (Hl j k a b Hjk Ha Hb).
Qed.

Lemma add_word_index_ok key item entries :
  index_ok entries → index_ok (add_word key item entries).
Proof.
  intros [Hkeys Hrefs]. split.
  - rewrite add_word_words. case_decide; [by rewrite app_nil_r|].
    apply NoDup_app. split; [done|]. split; [|apply NoDup_singleton].
    by intros w Hw ->%list_elem_of_singleton.
  - intros o' [?|[[-> _]|(o & Ho & _ & Hin & ->)]]%add_word_elem; [auto| |]; simpl.
    + split; [done|]. intros j k a b Hjk Ha Hb.
      apply lookup_lt_Some in Hb. simpl in Hb. lia.
    + destruct (Hrefs o Ho) as [_ Hdistinct].
      split; [by destruct (refs o)|]. by apply distinct_items_snoc.
Qed.

Lemma forEach_item_index_ok size items st :
  (index_ok (b_startWords st) → index_ok (b_startWords (forEach_item size items st).1)) ∧
  (index_ok (b_endWords st) → index_ok (b_endWords (forEach_item size items st).1)).
Proof.
  split; intros H.
  - apply (forEach_item_inv (fun st => index_ok (b_startWords st))); [|done].
    intros item wds st' _ _ Hst'. by apply add_word_index_ok.
  - apply (forEach_item_inv (fun st => index_ok (b_endWords st))); [|done].
    intros item wds st' _ _ Hst'. by apply add_word_index_ok.
Qed.

Lemma add_word_origin key_of old all key item wds entries :
  item ∈ all → line_words item = Normal wds → key = key_of wds →
  (∀ o x, o ∈ entries → x ∈ refs o → ref_origin key_of old all o x) →
  ∀ o x, o ∈ add_word key item entries → x ∈ refs o → ref_origin key_of old all o x.
Proof.
  intros Hitem Hline -> Hentries o x Ho Hx.
  apply add_word_elem in Ho as [?|[[-> _]|(o0 & Ho0 & Hk & _ & ->)]]; [by auto| |];
    simpl in Hx.
  - apply list_elem_of_singleton in Hx as ->. right. split; [done|]. by exists wds.
  - apply elem_of_app in Hx as [Hx| ->%list_elem_of_singleton].
    + destruct (Hentries o0 x Ho0 Hx) as [(o1 & ? & Hw & ?)|(? & wds' & ? & Hw)].
      * left. exists o1. simpl. repeat split; [done| |done]. congruence.
      * right. split; [done|]. exists wds'. simpl. split; [done|]. congruence.
    + right. split; [done|]. by exists wds.
Qed.

Lemma forEach_item_origin size old_start old_end all items st :
  (∀ item, item ∈ items → item ∈ all) →
  (∀ o x, o ∈ b_startWords st → x ∈ refs o →
     ref_origin (start_key size) old_start all o x) →
  (∀ o x, o ∈ b_endWords st → x ∈ refs o →
     ref_origin (end_key size) old_end all o x) →
  let st' := (forEach_item size items st).1 in
  (∀ o x, o ∈ b_startWords st' → x ∈ refs o →
     ref_origin (start_key size) old_start all o x) ∧
  (∀ o x, o ∈ b_endWords st' → x ∈ refs o →
     ref_origin (end_key size) old_end all o x).
Proof.
  intros Hall Hs He st'. subst st'.
  apply (forEach_item_inv (fun st =>
    (∀ o x, o ∈ b_startWords st → x ∈ refs o →
       ref_origin (start_key size) old_start all o x) ∧
    (∀ o x, o ∈ b_endWords st → x ∈ refs o →
       ref_origin (end_key size) old_end all o x))); [|done].
  intros item wds st' Hin Hline [Hs' He']. rewrite add_item_fields. cbn [fst].
  split; cbn [b_startWords b_endWords].
  - eapply add_word_origin; [by apply Hall|done..].
  - eapply add_word_origin; [by apply Hall|done..].
Qed.

End Index.

Lemma index_refs_origin_helper (this : Markov) :
  let size := stateSize (options this) in
  let m := (buildCorpusSync this).1 in
  (∀ o x, o ∈ startWords m → x ∈ refs o →
     ref_origin (start_key size) (startWords this) (data this) o x) ∧
  (∀ o x, o ∈ endWords m → x ∈ refs o →
     ref_origin (end_key size) (endWords this) (data this) o x).
Proof.
  intros size m. subst m. rewrite buildCorpusSync_fields. cbn [fst startWords endWords].
  apply forEach_item_origin; [done| |]; simpl.
  - intros o x Ho Hx. left. by exists o.
  - intros o x Ho Hx. left. by exists o.
Qed.

(** X4.  [buildCorpusSync] keeps the lists of start and end words well
    formed: when every key occurred once and every entry had refs with no
    item twice before the call, this holds after it. *)
Theorem build_keeps_index_well_formed (this : Markov) :
  index_ok (startWords this) → index_ok (endWords this) →
  index_ok (startWords (buildCorpusSync this).1) ∧
  index_ok (endWords (buildCorpusSync this).1).
Proof.
  intros Hs He. rewrite buildCorpusSync_fields. cbn [fst startWords endWords].
  split; by apply forEach_item_index_ok.
Qed.

Lemma build_keeps_index_well_formed_witness :
  let this := instance_of (constructor cat_and_dog no_options) in
  index_ok (startWords this) ∧ index_ok (endWords this) ∧
  NoDup (words <$> startWords (buildCorpusSync (buildCorpusSync this).1).1).
Proof.
  intros this.
  assert (index_ok []) as Hempty.
  { split; [constructor|]. by intros o ?%elem_of_nil. }
  split; [exact Hempty|]. split; [exact Hempty|].
  destruct (build_keeps_index_well_formed this Hempty Hempty) as [Hs He].
  exact (proj1 (proj1 (build_keeps_index_well_formed _ Hs He))).
Defined.

(** X5.  After a [buildCorpusSync] that raised nothing, every item of the
    data is among the refs of the entry of its start key in [startWords] and
    of the entry of its end key in [endWords]. *)
Theorem build_registers_every_item (this : Markov) :
  (buildCorpusSync this).2 = None →
  let size := stateSize (options this) in
  let m := (buildCorpusSync this).1 in
  ∀ item, item ∈ data this →
    ∃ wds s e, line_words item = Normal wds ∧
      find_words (start_key size wds) (startWords m) = Some s ∧
      includes (refs s) item = true ∧
      find_words (end_key size wds) (endWords m) = Some e ∧
      includes (refs e) item = true.
Proof.
  intros Hnone size m item Hin. subst m.
  rewrite buildCorpusSync_fields in Hnone |- *.
  cbn [fst snd startWords endWords] in Hnone |- *.
  destruct (forEach_item_registers size (data this) _ Hnone item Hin)
    as (wds & Hline & (s & Hs & Hsin) & (e & He & Hein)).
  by exists wds, s, e.
Qed.

Lemma build_registers_every_item_witness :
  let this := instance_of (constructor cat_and_dog no_options) in
  (buildCorpusSync this).2 = None ∧
  ∀ item, item ∈ data this →
    ∃ wds s, line_words item = Normal wds ∧
      find_words (start_key 2 wds) (startWords (buildCorpusSync this).1) = Some s ∧
      includes (refs s) item = true.
Proof.
  intros this.
  assert ((buildCorpusSync this).2 = None) as Hnone by by vm_compute.
  split; [exact Hnone|]. intros item Hin.
  destruct (build_registers_every_item this Hnone item Hin)
    as (wds & s & e & Hline & Hs & Hsin & _).
  by exists wds, s.
Defined.

(** X6.  After [buildCorpusSync], a ref of an entry of [startWords] was a
    ref of the entry of the same key before the call, or is an item of the
    data whose start key is the key of the entry; and the same holds of
    [endWords] with the end key.  On an instance without start and end words
    every ref is thus an item of the data, filed under its own key. *)
Theorem index_refs_come_from_the_data (this : Markov) :
  let size := stateSize (options this) in
  let m := (buildCorpusSync this).1 in
  (∀ o x, o ∈ startWords m → x ∈ refs o →
     ref_origin (start_key size) (startWords this) (data this) o x) ∧
  (∀ o x, o ∈ endWords m → x ∈ refs o →
     ref_origin (end_key size) (endWords this) (data this) o x).
Proof. apply index_refs_origin_helper. Qed.

(** ** The transitions of the corpus *)

Section Transitions.
Implicit Types (c : gmap string (list Entry)) (chain : list Entry)
  (wds : list string) (items : list JsValue).

Lemma add_next_elem next item chain o' :
  o' ∈ add_next next item chain →
  o' ∈ chain ∨
  o' = {| words := next; refs := [item] |} ∨
  (∃ o, o ∈ chain ∧ words o = next ∧
        o' = {| words := next; refs := refs o ++ [item] |}).
Proof.
  induction chain as [|o0 rest IH]; simpl.
  - intros ->%list_elem_of_singleton. right. by left.
  - destruct (String.eqb_spec (words o0) next) as [Heq|Hne].
    + intros [->|Hrest]%elem_of_cons.
      * right. right. exists o0. rewrite Heq. repeat split. by left.
      * left. by right.
    + intros [->|Hrest]%elem_of_cons; [left; by left|].
      destruct (IH Hrest) as [?|[->|(o & Ho & Hk & ->)]].
      * left. by right.
      * right. by left.
      * right. right. exists o. repeat split; [by right|done].
Qed.

Lemma add_next_keys next item chain :
  words <$> add_next next item chain
  = (words <$> chain) ++ (if decide (next ∈ words <$> chain) then [] else [next]).
Proof.
  induction chain as [|o0 rest IH]; cbn [add_next].
  - rewrite decide_False; [done|]. by intros ?%elem_of_nil.
  - destruct (String.eqb_spec (words o0) next) as [Heq|Hne].
    + rewrite decide_True by (rewrite fmap_cons, Heq; by left).
      by rewrite app_nil_r.
    + rewrite !fmap_cons, IH. rewrite <- app_comm_cons. f_equal. f_equal.
      destruct (decide (next ∈ words <$> rest)) as [Hin|Hout].
      * rewrite decide_True; [done|by right].
      * rewrite decide_False; [done|]. intros [?|?]%elem_of_cons; done.
Qed.

Lemma add_next_has next item chain :
  ∃ o, o ∈ add_next next item chain ∧ words o = next ∧ item ∈ refs o.
Proof.
  induction chain as [|o0 rest IH]; simpl.
  - eexists. split; [by left|]. split; [done|]. by left.
  - destruct (String.eqb_spec (words o0) next) as [Heq|Hne].
    + eexists. split; [by left|]. split; [done|]. simpl.
      apply elem_of_app. right. by left.
    + destruct IH as (o & Ho & Hw & Hin). exists o. split; [by right|done].
Qed.

Lemma add_next_mono next item chain o :
  o ∈ chain →
  ∃ o', o' ∈ add_next next item chain ∧ words o' = words o ∧
        ∀ x, x ∈ refs o → x ∈ refs o'.
Proof.
  induction chain as [|o0 rest IH]; simpl; [by intros ?%elem_of_nil|].
  destruct (String.eqb (words o0) next).
  - intros [->|Hrest]%elem_of_cons.
    + eexists. split; [by left|]. split; [done|]. simpl.
      intros x Hx. apply elem_of_app. by left.
    + exists o. split; [by right|done].
  - intros [->|Hrest]%elem_of_cons.
    + exists o0. split; [by left|done].
    + destruct (IH Hrest) as (o' & Ho' & Hw & Hsub). exists o'. split; [by right|done].
Qed.

(** The test of line 90 lets the step through exactly at the indices that
    have two full windows, the second not the empty string. *)
Lemma corpus_step_test size wds i :
  Forall no_space wds → 0 ≤ i →
  let next := join (next_window size wds i) in
  String.eqb next "" || negb (token_count next =? size) = false ↔
  1 ≤ size ∧ i + size * 2 ≤ Z.of_nat (length wds) ∧ next ≠ "".
Proof.
  intros Hwds Hi next. split.
  - intros [Hne Hcount]%orb_false_elim.
    apply negb_false_iff, Z.eqb_eq in Hcount.
    apply String.eqb_neq in Hne.
    assert (next_window size wds i ≠ []) as Hnil.
    { intros Heq. subst next. by rewrite Heq in Hne. }
    subst next. rewrite token_count_join in Hcount; [|done|by apply slice_Forall].
    assert (1 ≤ size) as Hsize.
    { destruct (next_window size wds i); [done|simpl in Hcount; lia]. }
    unfold next_window in Hcount. rewrite slice_length in Hcount by lia.
    split; [done|]. split; [lia|done].
  - intros (Hsize & Hlen & Hne).
    assert (Z.of_nat (length (next_window size wds i)) = size) as Hwin.
    { unfold next_window. rewrite slice_length by lia. lia. }
    apply orb_false_intro; [by apply String.eqb_neq|].
    apply negb_false_iff, Z.eqb_eq. subst next.
    rewrite token_count_join; [done| |by apply slice_Forall].
    intros Heq. rewrite Heq in Hwin. simpl in Hwin. lia.
Qed.

Lemma corpus_step_from size items item wds c i c' :
  item ∈ items → line_words item = Normal wds → 0 ≤ i →
  corpus_from size items c →
  corpus_step size item wds c i = Normal c' →
  corpus_from size items c'.
Proof.
  intros Hitem Hline Hi Hc Hstep.
  pose proof (line_words_no_space _ _ Hline) as Hwds.
  pose proof (corpus_step_test size wds i Hwds Hi) as Htest.
  apply corpus_step_Normal in Hstep. simpl in Htest, Hstep.
  set (curr := join (slice wds i (i + size))) in *.
  set (next := join (next_window size wds i)) in *.
  destruct Hstep as [->|[Hpass Hwrite]]; [done|].
  destruct Htest as [Htest _]. destruct (Htest Hpass) as (Hsize & Hlen & Hne).
  assert (transition_at size wds i curr next) as Hat by done.
  intros key chain'.
  destruct Hwrite as [(_ & chain & Hlook & ->)|[_ ->]].
  - destruct (decide (curr = key)) as [<-|Hk].
    2:{ rewrite lookup_insert_ne by done. apply Hc. }
    rewrite lookup_insert_eq. intros [= <-].
    destruct (Hc curr chain Hlook) as (Hnil & Hdup & Hrefs).
    split; [|split].
    + destruct (add_next_has next item chain) as (o & Ho & _).
      intros Heq. rewrite Heq in Ho. by apply elem_of_nil in Ho.
    + rewrite add_next_keys. case_decide; [by rewrite app_nil_r|].
      apply NoDup_app. split; [done|]. split; [|apply NoDup_singleton].
      by intros w Hw ->%list_elem_of_singleton.
    + intros o' [?|[->|(o & Ho & Hw & ->)]]%add_next_elem; [auto| |]; simpl.
      * split; [done|]. intros x ->%list_elem_of_singleton. split; [done|].
        by exists wds, i.
      * destruct (Hrefs o Ho) as [_ Hx].
        split; [by destruct (refs o)|].
        intros x [Hold| ->%list_elem_of_singleton]%elem_of_app.
        -- rewrite <- Hw. by apply Hx.
        -- split; [done|]. by exists wds, i.
  - destruct (decide (curr = key)) as [<-|Hk].
    2:{ rewrite lookup_insert_ne by done. apply Hc. }
    rewrite lookup_insert_eq. intros [= <-].
    split; [done|]. split; [apply NoDup_singleton|].
    intros o ->%list_elem_of_singleton. simpl. split; [done|].
    intros x ->%list_elem_of_singleton. split; [done|]. by exists wds, i.
Qed.

(** A step that raises nothing at a transition from a state other than
    [__proto__] leaves the transition in the corpus. *)
Lemma corpus_step_has size item wds c i curr next c' :
  Forall no_space wds → transition_at size wds i curr next → curr ≠ "__proto__" →
  corpus_step size item wds c i = Normal c' →
  has_transition c' curr next item.
Proof.
  intros Hwds (Hi & Hsize & Hlen & -> & -> & Hne) Hproto.
  pose proof (corpus_step_test size wds i Hwds Hi) as Htest. simpl in Htest.
  unfold corpus_step. fold (next_window size wds i).
  destruct Htest as [_ Htest]. rewrite Htest by done.
  destruct (c !! "hasOwnProperty"); [done|].
  apply String.eqb_neq in Hproto. rewrite Hproto.
  destruct (c !! _) as [chain|] eqn:Hlook; intros [= <-].
  - destruct (add_next_has (join (next_window size wds i)) item chain)
      as (o & Ho & Hw & Hin).
    exists (add_next (join (next_window size wds i)) item chain), o.
    by rewrite lookup_insert_eq.
  - eexists _, _. rewrite lookup_insert_eq. split; [done|].
    split; [by left|]. split; [done|]. by left.
Qed.

(** A step that raises nothing keeps the transitions from a state other
    than [__proto__]. *)
Lemma corpus_step_keeps size item wds c i curr next x c' :
  curr ≠ "__proto__" →
  has_transition c curr next x →
  corpus_step size item wds c i = Normal c' →
  has_transition c' curr next x.
Proof.
  intros Hproto (chain & o & Hlook & Ho & Hw & Hx) Hstep.
  apply corpus_step_Normal in Hstep. simpl in Hstep.
  set (k := join (slice wds i (i + size))) in *.
  destruct Hstep as [->|[_ Hwrite]]; [by exists chain, o|].
  destruct (decide (k = curr)) as [Heq|Hne].
  - subst curr.
    destruct Hwrite as [(_ & chain' & Hlook' & ->)|[[?|Hlook'] _]]; [|done|congruence].
    assert (chain' = chain) as -> by congruence.
    destruct (add_next_mono (join (next_window size wds i)) item chain o Ho)
      as (o' & Ho' & Hw' & Hsub).
    eexists _, o'. rewrite lookup_insert_eq. split; [done|].
    split; [done|]. split; [congruence|auto].
  - exists chain, o.
    destruct Hwrite as [(_ & chain' & _ & ->)|[_ ->]]; by rewrite lookup_insert_ne.
Qed.

Lemma corpus_loop_has size item wds c idx i curr next :
  Forall no_space wds → i ∈ idx → transition_at size wds i curr next →
  curr ≠ "__proto__" →
  (corpus_loop size item wds idx c).2 = None →
  has_transition (corpus_loop size item wds idx c).1 curr next item.
Proof.
  intros Hwds Hin Hat Hproto. revert c.
  induction idx as [|j idx IH]; intros c; [by apply elem_of_nil in Hin|].
  cbn [corpus_loop].
  destruct (corpus_step size item wds c j) as [c'|e] eqn:Hstep; [|done].
  apply elem_of_cons in Hin as [->|Hin]; [|by apply IH].
  intros _. apply corpus_loop_inv.
  - intros k c1 c2 _ Hc1. by apply corpus_step_keeps.
  - by eapply corpus_step_has.
Qed.

Lemma forEach_item_from size all items st :
  (∀ item, item ∈ items → item ∈ all) →
  corpus_from size all (b_corpus st) →
  corpus_from size all (b_corpus (forEach_item size items st).1).
Proof.
  intros Hall.
  apply (forEach_item_inv (fun st => corpus_from size all (b_corpus st))).
  intros item wds st' Hin Hline Hst'. rewrite add_item_fields. cbn [fst b_corpus].
  apply corpus_loop_inv; [|done].
  intros i c c' Hi Hc. eapply corpus_step_from; [by apply Hall|done| |done].
  apply elem_of_seqZ in Hi. lia.
Qed.

Lemma forEach_item_keeps_transition size items st curr next x :
  curr ≠ "__proto__" →
  has_transition (b_corpus st) curr next x →
  has_transition (b_corpus (forEach_item size items st).1) curr next x.
Proof.
  intros Hproto.
  apply (forEach_item_inv (fun st => has_transition (b_corpus st) curr next x)).
  intros item wds st' _ _ Hst'. rewrite add_item_fields. cbn [fst b_corpus].
  apply corpus_loop_inv; [|done].
  intros i c c' _ Hc. by apply corpus_step_keeps.
Qed.

(** A [forEach] that raised nothing has written every transition of every
    item from a state other than [__proto__]. *)
Lemma forEach_item_has_transition size items st item wds i curr next :
  (forEach_item size items st).2 = None → item ∈ items →
  line_words item = Normal wds → transition_at size wds i curr next →
  curr ≠ "__proto__" →
  has_transition (b_corpus (forEach_item size items st).1) curr next item.
Proof.
  intros Hnone Hin Hline Hat Hproto. revert st Hnone.
  induction items as [|item0 rest IH]; [by apply elem_of_nil in Hin|].
  intros st. cbn [forEach_item].
  destruct (line_words item0) as [wds0|e] eqn:Hline0; [|done].
  pose proof (add_item_fields size item0 wds0 st) as Hfields.
  destruct (add_item size item0 wds0 st) as [st' [e|]]; [done|].
  injection Hfields as -> Herr. intros Hnone.
  apply elem_of_cons in Hin as [->|Hin]; [|by apply IH].
  apply forEach_item_keeps_transition; [done|]. cbn [b_corpus].
  assert (wds0 = wds) as -> by congruence.
  apply (corpus_loop_has _ _ _ _ _ i); [by eapply line_words_no_space| |done..].
  destruct Hat as (Hi & Hsize & Hlen & _). apply elem_of_seqZ. lia.
Qed.

End Transitions.

(** X7.  After [buildCorpusSync] every chain of the corpus has at least one
    entry, no two entries of a chain have the same [words], and every entry
    has at least one ref. *)
Theorem corpus_chains_list_each_successor_once (this : Markov) :
  ∃ c, corpus (buildCorpusSync this).1 = Some c ∧
    ∀ curr chain, c !! curr = Some chain →
      chain ≠ [] ∧ NoDup (words <$> chain) ∧ ∀ o, o ∈ chain → refs o ≠ [].
Proof.
  eexists. split; [apply buildCorpusSync_corpus|].
  intros curr chain Hlook.
  edestruct (forEach_item_from (stateSize (options this)) (data this) (data this))
    as (Hnil & Hdup & Hrefs); [done| |exact Hlook|].
  - simpl. intros k ch Hk. by rewrite lookup_empty in Hk.
  - split; [done|]. split; [done|]. intros o Ho. by destruct (Hrefs o Ho).
Qed.

(** X8.  After [buildCorpusSync] every ref of a transition of the corpus is
    an item of the data in whose line the transition occurs: at some index
    the line has [stateSize] words that join into the key, followed by
    [stateSize] words that join into the [words] of the entry. *)
Theorem corpus_transitions_occur_in_the_data (this : Markov) :
  let size := stateSize (options this) in
  ∃ c, corpus (buildCorpusSync this).1 = Some c ∧
    ∀ curr chain o x, c !! curr = Some chain → o ∈ chain → x ∈ refs o →
      x ∈ data this ∧
      ∃ wds i, line_words x = Normal wds ∧ 0 ≤ i ∧ 1 ≤ size ∧
               i + size * 2 ≤ Z.of_nat (length wds) ∧
               curr = join (slice wds i (i + size)) ∧
               words o = join (slice wds (i + size) (i + size * 2)).
Proof.
  intros size. eexists. split; [apply buildCorpusSync_corpus|].
  intros curr chain o x Hlook Ho Hx.
  edestruct (forEach_item_from size (data this) (data this))
    as (_ & _ & Hrefs); [done| |exact Hlook|].
  - simpl. intros k ch Hk. by rewrite lookup_empty in Hk.
  - destruct (Hrefs o Ho) as [_ Horigin].
    destruct (Horigin x Hx) as (Hin & wds & i & Hline & Hi & Hsize & Hlen & Hc & Hn & _).
    split; [done|]. by exists wds, i.
Qed.

(** X9.  After a [buildCorpusSync] that raised nothing the corpus has every
    transition of the data from a state other than [__proto__]: when the
    line of an item has, from some index on, [stateSize] words that do not
    join into [__proto__], followed by [stateSize] more words that do not
    join into the empty string, the chain of the first window has an entry
    for the second, and the item is among its refs.  (Of the transitions
    from [__proto__] only the last is kept: line 94 does not find what the
    assignment of line 105 has written for that key.) *)
Theorem corpus_has_every_transition_of_the_data (this : Markov)
    (item : JsValue) (wds : list string) (i : Z) :
  (buildCorpusSync this).2 = None →
  item ∈ data this → line_words item = Normal wds →
  let size := stateSize (options this) in
  let curr := join (slice wds i (i + size)) in
  let next := join (slice wds (i + size) (i + size * 2)) in
  0 ≤ i → 1 ≤ size → i + size * 2 ≤ Z.of_nat (length wds) → next ≠ "" →
  curr ≠ "__proto__" →
  ∃ c chain o, corpus (buildCorpusSync this).1 = Some c ∧
    c !! curr = Some chain ∧
    o ∈ chain ∧ words o = next ∧ item ∈ refs o.
Proof.
  intros Hnone Hin Hline size curr next Hi Hsize Hlen Hne Hproto.
  rewrite buildCorpusSync_fields in Hnone. cbn [snd] in Hnone.
  set (st0 := {| b_startWords := startWords this; b_endWords := endWords this;
                 b_corpus := ∅ |}) in *.
  destruct (forEach_item_has_transition size (data this) st0 item wds i
              curr next Hnone Hin Hline)
    as (chain & o & Hlook & Ho & Hw & Hx); [done|done|].
  exists (b_corpus (forEach_item size (data this) st0).1), chain, o.
  split; [apply buildCorpusSync_corpus|done].
Qed.

(** With a [stateSize] of 1, over a line that has the word [__proto__]: the
    transition from ["a"] to ["b"] is in the corpus. *)
Lemma corpus_has_every_transition_of_the_data_witness :
  let item := item_of 1 "__proto__ a b" in
  let this := instance_of (constructor [JString "__proto__ a b"]
                             (with_stateSize 1 no_options)) in
  stateSize (options this) = 1 ∧ data this = [item] ∧
  ∃ c chain o, corpus (buildCorpusSync this).1 = Some c ∧
    c !! "a" = Some chain ∧ o ∈ chain ∧ words o = "b" ∧ item ∈ refs o.
Proof.
  intros item this. split; [reflexivity|]. split; [reflexivity|].
  exact (corpus_has_every_transition_of_the_data this item
           ["__proto__"; "a"; "b"] 1
           eq_refl ltac:(by left) eq_refl ltac:(done) ltac:(done) ltac:(done)
           ltac:(done) ltac:(done)).
Defined.

(** ** Generation over a built corpus *)

Section Generated.
Implicit Types (c : gmap string (list Entry)) (path : list Entry).

Lemma removelast_elem path o :
  o ∈ removelast path → ∃ k o', path !! k = Some o ∧ path !! S k = Some o'.
Proof.
  rewrite removelast_firstn_len. intros [k Hk]%list_elem_of_lookup.
  change (firstn (Nat.pred (length path)) path) with (take (Nat.pred (length path)) path) in Hk.
  apply lookup_take_Some in Hk as [Hk Hlt].
  destruct (lookup_lt_is_Some_2 path (S k)) as [o' Ho']; [lia|].
  by exists k, o'.
Qed.

Lemma chain_path_available c path o :
  chain_path c path → o ∈ removelast path → (1 ≤ length (available c o))%nat.
Proof.
  intros Hpath (k & o' & Ho & Ho')%removelast_elem.
  specialize (Hpath k o o' Ho Ho').
  destruct (available c o); [by apply elem_of_nil in Hpath|simpl; lia].
Qed.


Lemma generateSentenceSync_fuel fuel rand this opts run :
  generateSentenceSync fuel rand this opts = Some run →
  corpus this = None ∨ ∃ fuel', fuel = S fuel'.
Proof.
  unfold generateSentenceSync. destruct (corpus this); [|by left].
  destruct fuel; [done|]. right. eauto.
Qed.

Lemma index_ok_nil : index_ok [].
Proof. split; [constructor|]. by intros o ?%elem_of_nil. Qed.

(** The identities of the data are below the first identity that the
    instance left by a build does not hold. *)
Lemma next_ref_data this :
  (max_ref_list (data this) < next_ref (buildCorpusSync this).1)%nat.
Proof. rewrite buildCorpusSync_fields. unfold next_ref. cbn [fst data]. lia. Qed.

(** A step of an attempt over a built instance: the state reached is the
    copy of an entry of the chain that the corpus has for the state left,
    and every ref of that entry is an item of the data in whose line the
    transition occurs. *)
Lemma attempt_step (this : Markov) fuel rand opts run w k o o' :
  let size := stateSize (options this) in
  let m := (buildCorpusSync this).1 in
  key_free "__proto__" size (data this) →
  generateSentenceSync fuel rand m opts = Some run →
  w ∈ attempts run → arr w !! k = Some o → arr w !! S k = Some o' →
  ∃ c chain e, corpus m = Some c ∧ c !! words o = Some chain ∧ e ∈ chain ∧
    o' = cloneDeep_entry (next_ref m) e ∧
    NoDup (words <$> chain) ∧ refs e ≠ [] ∧
    ∀ x, x ∈ refs e →
      x ∈ data this ∧
      ∃ wds i, line_words x = Normal wds ∧ transition_at size wds i (words o) (words e).
Proof.
  intros size m Hfree Hrun Hw Ho Ho'.
  pose proof (buildCorpusSync_corpus this) as Hc. fold m in Hc.
  pose proof (buildCorpusSync_keeps_free "__proto__" this _ eq_refl Hfree Hc) as Hplain.
  destruct (generateSentenceSync_spec _ _ _ _ _ _ Hc Hrun) as [Hall _].
  rewrite Forall_forall in Hall. destruct (Hall w Hw) as (_ & Hpath & _).
  destruct (chain_path_cloneDeep _ _ _ _ _ _ Hpath Ho Ho')
    as (chain & e & Hlook & He & [->|[Hkey _]]); [|congruence].
  edestruct (forEach_item_from size (data this) (data this))
    as (_ & Hdup & Hrefs); [done| |exact Hlook|].
  { simpl. intros key ch Hk. by rewrite lookup_empty in Hk. }
  destruct (Hrefs e He) as [Hne Horigin].
  eexists _, chain, e. by repeat (split; [done|]).
Qed.

(** The start entry of an attempt over an instance built from an empty
    list of start words: its refs are items of the data, and it has some. *)
Lemma attempt_start (this : Markov) fuel rand opts run w :
  let m := (buildCorpusSync this).1 in
  startWords this = [] →
  generateSentenceSync fuel rand m opts = Some run → w ∈ attempts run →
  ∃ first, head (arr w) = Some first ∧ first ∈ startWords m ∧ refs first ≠ [] ∧
    ∀ x, x ∈ refs first →
      x ∈ data this ∧
      ∃ wds, line_words x = Normal wds ∧
             words first = start_key (stateSize (options this)) wds.
Proof.
  intros m Hs Hrun Hw.
  pose proof (buildCorpusSync_corpus this) as Hc. fold m in Hc.
  destruct (generateSentenceSync_spec _ _ _ _ _ _ Hc Hrun) as [Hall _].
  rewrite Forall_forall in Hall.
  destruct (Hall w Hw) as ((first & Hhead & Hfirst) & _).
  exists first. split; [done|]. split; [done|].
  subst m. rewrite buildCorpusSync_fields in Hfirst. cbn [fst startWords] in Hfirst.
  destruct (forEach_item_index_ok (stateSize (options this)) (data this)
    {| b_startWords := startWords this; b_endWords := endWords this; b_corpus := ∅ |})
    as [Hok _].
  destruct Hok as [_ Hrefs]; [simpl; rewrite Hs; apply index_ok_nil|].
  split; [by destruct (Hrefs first Hfirst)|].
  intros x Hx.
  destruct (forEach_item_origin (stateSize (options this)) [] (endWords this)
    (data this) (data this)
    {| b_startWords := startWords this; b_endWords := endWords this; b_corpus := ∅ |})
    as [Horigin _]; [done| | |].
  { simpl. rewrite Hs. by intros o z ?%elem_of_nil. }
  { simpl. intros o z Ho Hz. left. by exists o. }
  destruct (Horigin first x Hfirst Hx) as [(o0 & ?%elem_of_nil & _)|(Hin & wds & Hline & Hkey)];
    [done|].
  split; [done|]. by exists wds.
Qed.

End Generated.

(** X10.  Over an instance that [buildCorpusSync] has built from data no
    key of which is [__proto__], every step of every attempt of
    [generateSentenceSync] is a transition of the data: some item of the data
    has, at some index of its line, [stateSize] words that join into the
    state the step leaves, followed by [stateSize] words that join into the
    state it reaches; and the state reached has among its refs the copy
    of that item that [_.cloneDeep] has made, which is not an item of the
    data. *)
Theorem generated_steps_occur_in_the_data (this : Markov) fuel rand opts run :
  let size := stateSize (options this) in
  let m := (buildCorpusSync this).1 in
  key_free "__proto__" size (data this) →
  generateSentenceSync fuel rand m opts = Some run →
  ∀ w k o o', w ∈ attempts run → arr w !! k = Some o → arr w !! S k = Some o' →
    ∃ item wds i, item ∈ data this ∧
      cloneDeep_value (next_ref m) item ∈ refs o' ∧
      (cloneDeep_value (next_ref m) item ∉ data this) ∧
      line_words item = Normal wds ∧ 0 ≤ i ∧
      i + size * 2 ≤ Z.of_nat (length wds) ∧
      words o = join (slice wds i (i + size)) ∧
      words o' = join (slice wds (i + size) (i + size * 2)).
Proof.
  intros size m Hfree Hrun w k o o' Hw Ho Ho'.
  destruct (attempt_step this fuel rand opts run w k o o' Hfree Hrun Hw Ho Ho')
    as (c & chain & e & _ & _ & _ & -> & _ & Hne & Horigin).
  destruct (refs e) as [|item more] eqn:Hrefs; [done|].
  destruct (Horigin item ltac:(by left))
    as (Hdata & wds & i & Hline & Hi & _ & Hlen & Hcurr & Hnext & _).
  exists item, wds, i. cbn [cloneDeep_entry refs words]. rewrite Hrefs.
  split; [done|]. split; [by left|]. split; [|done].
  assert (well_formed item) as (ref & line & ->)
    by (apply line_words_well_formed; eauto).
  apply cloneDeep_value_fresh, next_ref_data.
Qed.

Lemma generated_steps_occur_in_the_data_witness :
  let this := instance_of (constructor cat_and_dog (with_stateSize 1 no_options)) in
  let m := (buildCorpusSync this).1 in
  key_free "__proto__" (stateSize (options this)) (data this) ∧
  stateSize (options this) = 1 ∧
  ∃ run w o o',
    generateSentenceSync 7 (draws [0; 0; 0; 0; 0; 1]%nat) m no_options = Some run ∧
    w ∈ attempts run ∧ arr w !! 1%nat = Some o ∧ arr w !! 2%nat = Some o' ∧
    words o = "cat" ∧ words o' = "sat" ∧
    ∃ item, item ∈ data this ∧ cloneDeep_value (next_ref m) item ∈ refs o' ∧
            cloneDeep_value (next_ref m) item ∉ data this.
Proof.
  intros this m.
  assert (key_free "__proto__" (stateSize (options this)) (data this)) as Hfree.
  { intros _ item wds Hin Hline. vm_compute in Hin.
    apply elem_of_cons in Hin as [->|Hin].
    - injection Hline as <-. apply (bool_decide_unpack _). by vm_compute.
    - apply list_elem_of_singleton in Hin as ->.
      injection Hline as <-. apply (bool_decide_unpack _). by vm_compute. }
  split; [exact Hfree|]. split; [reflexivity|]. eexists _, _, _, _.
  split; [by vm_compute|]. split; [by left|]. split; [reflexivity|].
  split; [reflexivity|]. split; [reflexivity|]. split; [reflexivity|].
  destruct (generated_steps_occur_in_the_data this 7 (draws [0; 0; 0; 0; 0; 1]%nat)
              no_options _
              Hfree ltac:(by vm_compute) _ 1%nat _ _ ltac:(by left) eq_refl eq_refl)
    as (item & wds & i & Hdata & Hcopy & Hnew & _).
  by exists item.
Defined.

(** X11.  Over an instance built by [buildCorpusSync] from an empty list of
    start words and from data no key of which is [__proto__], the first ref
    of a result that [generateSentenceSync] returns is an item of the data,
    and every ref is an item of the data or the copy that [_.cloneDeep] has
    made of one, which is not an item of the data: the refs of the start
    entry are the items themselves, those of the other elements of the path
    come from the copy of the corpus. *)
Theorem result_refs_are_items_or_copies (this : Markov) fuel rand opts run r :
  let m := (buildCorpusSync this).1 in
  startWords this = [] →
  key_free "__proto__" (stateSize (options this)) (data this) →
  generateSentenceSync fuel rand m opts = Some run →
  outcome run = Normal r →
  (∃ x, head (Result.refs r) = Some x ∧ x ∈ data this) ∧
  ∀ x, x ∈ Result.refs r →
    ∃ item, item ∈ data this ∧ well_formed item ∧
      (x = item ∨ (x = cloneDeep_value (next_ref m) item ∧ x ∉ data this)).
Proof.
  intros m Hfresh Hfree Hrun Hout.
  destruct (returned_result _ _ _ _ _ _ Hrun Hout) as (c & w & _ & Hlast & -> & _).
  assert (w ∈ attempts run) as Hw.
  { apply last_Some in Hlast as [ws ->]. apply elem_of_app. right. by left. }
  destruct (attempt_start this fuel rand opts run w Hfresh Hrun Hw)
    as (first & Hhead & _ & Hne & Hfirst).
  split.
  - cbn [compose Result.refs].
    destruct (arr w) as [|o os]; [done|]. simpl in Hhead. injection Hhead as ->.
    rewrite fmap_cons. cbn [concat]. destruct (refs first) as [|x xs]; [done|].
    exists x. split; [done|]. by destruct (Hfirst x ltac:(by left)).
  - intros x Hx. simpl in Hx. unfold uniqBy_string in Hx.
    eapply elem_of_sublist in Hx; [|apply uniqBy_from_sublist].
    apply list_elem_of_In, in_concat in Hx as (l & Hl & Hxl).
    apply list_elem_of_In, list_elem_of_fmap in Hl as (o & -> & Ho).
    apply list_elem_of_In in Hxl.
    apply list_elem_of_lookup in Ho as [k Hk].
    destruct k as [|k].
    + rewrite <- head_lookup, Hhead in Hk. injection Hk as <-.
      destruct (Hfirst x Hxl) as (Hin & wds & Hline & _).
      exists x. split; [done|]. split; [|by left].
      apply line_words_well_formed. eauto.
    + destruct (lookup_lt_is_Some_2 (arr w) k) as [prev Hprev].
      { apply lookup_lt_Some in Hk. lia. }
      destruct (attempt_step this fuel rand opts run w k prev o Hfree Hrun Hw Hprev Hk)
        as (c' & chain & e & _ & _ & _ & -> & _ & _ & Horigin).
      cbn [cloneDeep_entry refs] in Hxl.
      apply list_elem_of_fmap in Hxl as (item & -> & Hitem).
      destruct (Horigin item Hitem) as (Hin & wds & i & Hline & _).
      exists item. split; [done|].
      assert (well_formed item) as (ref & line & ->)
        by (apply line_words_well_formed; eauto).
      split; [by eexists _, _|]. right. split; [done|].
      apply cloneDeep_value_fresh, next_ref_data.
Qed.

(** With a [stateSize] of 1, over the lines ["a b x"] and ["y b c"]: the
    walk from ["a"] over ["b"] to ["c"] gives the first item, from the start
    entry, and the copy of the second, an object that the data does not
    have. *)
Lemma result_refs_are_items_or_copies_witness :
  let this := instance_of (constructor [JString "a b x"; JString "y b c"]
                             (with_stateSize 1 no_options)) in
  startWords this = [] ∧ stateSize (options this) = 1 ∧
  key_free "__proto__" (stateSize (options this)) (data this) ∧
  ∃ run r,
    generateSentenceSync 4 (draws [0; 0; 1]%nat) (buildCorpusSync this).1 no_options
    = Some run ∧
    outcome run = Normal r ∧
    Result.string r = "a b c" ∧
    data this = [item_of 1 "a b x"; item_of 2 "y b c"] ∧
    Result.refs r = [item_of 1 "a b x"; item_of 5 "y b c"] ∧
    ∃ x, head (Result.refs r) = Some x ∧ x ∈ data this.
Proof.
  intros this. split; [reflexivity|]. split; [reflexivity|].
  assert (key_free "__proto__" (stateSize (options this)) (data this)) as Hfree.
  { intros _ item wds Hin Hline. vm_compute in Hin.
    apply elem_of_cons in Hin as [->|Hin].
    - injection Hline as <-. apply (bool_decide_unpack _). by vm_compute.
    - apply list_elem_of_singleton in Hin as ->.
      injection Hline as <-. apply (bool_decide_unpack _). by vm_compute. }
  split; [exact Hfree|]. eexists _, _.
  split; [by vm_compute|]. split; [reflexivity|]. split; [by vm_compute|].
  split; [by vm_compute|]. split; [by vm_compute|].
  exact (proj1 (result_refs_are_items_or_copies this 4 (draws [0; 0; 1]%nat) no_options
                  _ _ eq_refl Hfree ltac:(by vm_compute) eq_refl)).
Defined.



(** X13.  What [generateSentenceSync] raises: the error of the guard of
    line 137 exactly when [corpus] holds a falsy value; a [TypeError] exactly
    when the guard is passed, [startWords] is empty and [maxTries] is
    positive; never the error of the constructor; and, the guard passed, with
    a [maxTries] that is not positive it makes no attempt and fails with
    [GenerationExhausted].  The promise of [generateSentence] is resolved
    with the result or rejected with the error. *)
Theorem generation_errors fuel rand this opts run :
  generateSentenceSync fuel rand this opts = Some run →
  let max := maxTries (assignIn (options this) opts) in
  (outcome run = Throw ModelNotBuilt ↔ corpus this = None) ∧
  (outcome run = Throw TypeError ↔
   is_Some (corpus this) ∧ startWords this = [] ∧ 0 < max) ∧
  outcome run ≠ Throw InvalidCorpusItem ∧
  (is_Some (corpus this) → max ≤ 0 →
   outcome run = Throw GenerationExhausted ∧ attempts run = []) ∧
  generateSentence fuel rand this opts
  = Some (match outcome run with
          | Normal result => Resolved result
          | Throw e => Rejected e
          end).
Proof.
  intros Hrun max.
  assert (generateSentence fuel rand this opts
          = Some (match outcome run with
                  | Normal result => Resolved result
                  | Throw e => Rejected e
                  end)) as Hpromise.
  { unfold generateSentence. by rewrite Hrun. }
  destruct (corpus this) as [c|] eqn:Hc.
  2:{ unfold generateSentenceSync in Hrun. rewrite Hc in Hrun. injection Hrun as <-.
      simpl. split; [done|]. split; [|split; [done|split; [|done]]].
      - split; [done|]. by intros [[? ?] _].
      - by intros [? ?]. }
  destruct (generateSentenceSync_spec _ _ _ _ _ _ Hc Hrun) as [_ Hok].
  fold max in Hok.
  destruct (generateSentenceSync_fuel _ _ _ _ _ Hrun) as [?|[fuel' ->]]; [congruence|].
  split; [|split; [|split; [|split; [|done]]]].
  - split; [|done]. intros Hout. by rewrite Hout in Hok.
  - split.
    + intros Hout. rewrite Hout in Hok. destruct Hok as (? & _ & ?). eauto.
    + intros (_ & Hs & Hmax).
      rewrite (generateSentenceSync_no_startWords fuel' rand this opts c Hc Hs) in Hrun.
      injection Hrun as <-. cbn [outcome]. unfold max in Hmax.
      cbn [maxTries assignIn] in Hmax. apply Z.ltb_lt in Hmax. by rewrite Hmax.
  - intros Hout. by rewrite Hout in Hok.
  - intros _ Hmax. destruct (outcome run) as [r|[]]; try done.
    + destruct Hok as (ws & w & _ & _ & _ & _ & Hlt). lia.
    + destruct Hok as [_ Hlen]. split; [done|].
      destruct (attempts run); [done|]. simpl in Hlen. lia.
    + destruct Hok as (_ & _ & ?). lia.
Qed.

Lemma generation_errors_witness :
  ∃ run,
    generateSentenceSync 1 first_choice (built_from cat_and_dog) (only_maxTries 0)
    = Some run ∧
    outcome run = Throw GenerationExhausted ∧ attempts run = [] ∧
    generateSentence 1 first_choice (built_from cat_and_dog) (only_maxTries 0)
    = Some (Rejected GenerationExhausted).
Proof.
  eexists. split; [by vm_compute|].
  destruct (generation_errors 1 first_choice (built_from cat_and_dog) (only_maxTries 0)
              _ ltac:(by vm_compute)) as (_ & _ & _ & Hzero & Hpromise).
  destruct Hzero as [Hout Hatt]; [by eexists|by vm_compute|].
  split; [exact Hout|]. split; [exact Hatt|exact Hpromise].
Defined.

(** X14.  [generateSentenceSync] does not read [stateSize]: a value given
    for it in the options of the call changes nothing. *)
Theorem generation_ignores_stateSize fuel rand this opts size :
  generateSentenceSync fuel rand this (with_stateSize size opts)
  = generateSentenceSync fuel rand this opts.
Proof.
  unfold generateSentenceSync. destruct (corpus this) as [c|]; [|done].
  destruct opts. reflexivity.
Qed.

(** ** Strings and keys *)

Section Trim.

Lemma trim_start_first s c :
  first_char (trim_start s) = Some c → is_white_space c = false.
Proof.
  induction s as [|c0 rest IH]; simpl; [done|].
  destruct (is_white_space c0) eqn:Hc0; [done|].
  simpl. by intros [= <-].
Qed.

Lemma trim_start_split s :
  ∃ pre, s = pre +:+ trim_start s ∧ all_white_space pre.
Proof.
  induction s as [|c0 rest (pre & Hpre & Hws)]; simpl.
  - by exists "".
  - destruct (is_white_space c0) eqn:Hc0.
    + exists (String c0 pre). split; [|done].
      change (String c0 rest = String c0 (pre +:+ trim_start rest)). by f_equal.
    + by exists "".
Qed.

Lemma trim_end_first s c :
  first_char (trim_end s) = Some c → first_char s = Some c.
Proof.
  destruct s as [|c0 rest]; simpl; [done|].
  destruct (trim_end rest); [destruct (is_white_space c0)|]; simpl; done.
Qed.

Lemma trim_end_last s c :
  last_char (trim_end s) = Some c → is_white_space c = false.
Proof.
  induction s as [|c0 rest IH]; simpl; [done|].
  destruct (trim_end rest) as [|c1 kept] eqn:Hkept.
  - destruct (is_white_space c0) eqn:Hc0; simpl; [done|]. by intros [= <-].
  - simpl. exact IH.
Qed.

Lemma trim_end_split s :
  ∃ post, s = trim_end s +:+ post ∧ all_white_space post.
Proof.
  induction s as [|c0 rest (post & Hpost & Hws)]; cbn [trim_end].
  - by exists "".
  - destruct (trim_end rest) as [|c1 kept] eqn:Hkept.
    + change (rest = post) in Hpost. subst post.
      destruct (is_white_space c0) eqn:Hc0.
      * by exists (String c0 rest).
      * by exists rest.
    + exists post. split; [|done].
      change (String c0 rest = String c0 (String c1 kept +:+ post)). by f_equal.
Qed.

End Trim.

(** X15.  The sentence of a candidate has no white space at its ends, and
    it is what the [words] of the path, joined by spaces, have between the
    white space they start and end with: nothing else is dropped. *)
Theorem sentence_is_trimmed (w : WalkState) :
  let sentence := Result.string (compose w) in
  (∀ c, first_char sentence = Some c → is_white_space c = false) ∧
  (∀ c, last_char sentence = Some c → is_white_space c = false) ∧
  ∃ pre post, join (words <$> arr w) = pre +:+ sentence +:+ post ∧
              all_white_space pre ∧ all_white_space post.
Proof.
  simpl. unfold trim. set (joined := join (words <$> arr w)).
  split; [|split].
  - intros c Hc. by apply trim_end_first, trim_start_first in Hc.
  - apply trim_end_last.
  - destruct (trim_start_split joined) as (pre & Hpre & Hpre_ws).
    destruct (trim_end_split (trim_start joined)) as (post & Hpost & Hpost_ws).
    exists pre, post. split; [|done]. by rewrite <- Hpost.
Qed.

Lemma join_split (s : string) : join (split s) = s.
Proof.
  induction s as [|c rest IH]; simpl; [done|].
  pose proof (split_not_nil rest) as Hne.
  destruct (split rest) as [|w ws]; [done|].
  destruct (Ascii.eqb_spec c space) as [->|Hc].
  - change (join ("" :: w :: ws)) with ("" +:+ String space (join (w :: ws))).
    simpl. by rewrite <- IH.
  - rewrite <- IH. by destruct ws.
Qed.

Lemma token_count_spaces (s : string) :
  token_count s = Z.of_nat (count_spaces s) + 1.
Proof.
  unfold token_count. induction s as [|c rest IH]; simpl; [done|].
  pose proof (split_not_nil rest) as Hne.
  destruct (Ascii.eqb c space); [simpl length; lia|].
  destruct (split rest) as [|w ws]; [done|]. simpl in *. lia.
Qed.

(** X16.  Splitting at the spaces and joining with spaces are inverse to
    each other: a string is the join of its words; words without spaces, at
    least one, are the words of their join; and a string has one word more
    than it has spaces. *)
Theorem split_and_join_are_inverse :
  (∀ s, join (split s) = s) ∧
  (∀ ws, ws ≠ [] → Forall no_space ws → split (join ws) = ws) ∧
  (∀ s, Forall no_space (split s)) ∧
  (∀ s, token_count s = Z.of_nat (count_spaces s) + 1).
Proof.
  split; [apply join_split|]. split; [apply split_join|].
  split; [apply split_no_space|apply token_count_spaces].
Qed.

(** X17.  The start and end keys of a line of [len] words.  With
    [stateSize] between 0 and [len] they are the first and the last
    [stateSize] words.  With [stateSize] above [len] the start key is the
    whole line, while the end key is the whole line only from [2 * len] on:
    in between it is the last [stateSize - len] words, because the start
    index of the slice is negative and counts from the end. *)
Theorem keys_of_a_line (size : Z) (wds : list string) :
  let len := Z.of_nat (length wds) in
  (0 ≤ size ≤ len →
   start_key size wds = join (take (Z.to_nat size) wds) ∧
   end_key size wds = join (drop (Z.to_nat (len - size)) wds)) ∧
  (len ≤ size → start_key size wds = join wds) ∧
  (len < size < 2 * len →
   end_key size wds = join (drop (Z.to_nat (2 * len - size)) wds)) ∧
  (2 * len ≤ size → end_key size wds = join wds).
Proof.
  intros len. unfold start_key, end_key, slice. fold len.
  assert (∀ n (l : list string), (length l ≤ n)%nat → take n l = l) as Htake.
  { intros n l Hn. by apply take_ge. }
  split; [|split; [|split]].
  - intros Hsize. split; f_equal.
    + repeat case_match; try lia. simpl. f_equal. lia.
    + repeat case_match; try lia.
      apply Htake. rewrite length_drop. lia.
  - intros Hsize. f_equal. repeat case_match; try lia; simpl; apply Htake; lia.
  - intros Hsize. f_equal. repeat case_match; try lia.
    replace (Z.to_nat (len + (len - size))) with (Z.to_nat (2 * len - size)) by lia.
    apply Htake. rewrite length_drop. lia.
  - intros Hsize. f_equal.
    assert (∀ n m (l : list string), m = 0%nat → (length l ≤ n)%nat →
              take n (drop m l) = l) as Hall.
    { intros n m l -> Hn. by apply Htake. }
    repeat case_match; try lia; first [simpl; apply Htake; lia|apply Hall; lia].
Qed.

Lemma uniqBy_string_not_nil (l : list JsValue) : l ≠ [] → uniqBy_string l ≠ [].
Proof. by destruct l. Qed.

(** X18.  Over an instance built by [buildCorpusSync] from empty lists of
    start and end words, a sentence that [generateSentenceSync] returns
    starts as an item of the data starts and ends as an item of the data
    ends: the path it is composed from has at least two elements, the first
    has the start key of some item of the data as its [words], and the last
    has the end key of some item of the data; and the result has at least
    one ref. *)
Theorem sentence_starts_and_ends_as_the_data (this : Markov) fuel rand opts run r :
  startWords this = [] → endWords this = [] →
  generateSentenceSync fuel rand (buildCorpusSync this).1 opts = Some run →
  outcome run = Normal r →
  let size := stateSize (options this) in
  ∃ w first final from_item from_wds to_item to_wds,
    last (attempts run) = Some w ∧ r = compose w ∧
    (2 ≤ length (arr w))%nat ∧
    head (arr w) = Some first ∧ last (arr w) = Some final ∧
    from_item ∈ data this ∧ line_words from_item = Normal from_wds ∧
    words first = start_key size from_wds ∧
    to_item ∈ data this ∧ line_words to_item = Normal to_wds ∧
    words final = end_key size to_wds ∧
    Result.refs r ≠ [].
Proof.
  intros Hs He Hrun Hout size.
  destruct (returned_result _ _ _ _ _ _ Hrun Hout)
    as (c & w & Hc & Hlast & -> & ((first & Hhead & Hfirst) & _ & _ & _ & Hend) & Hrej).
  apply rejected_false in Hrej as [Hended _].
  destruct (Hend Hended) as (Htwo & final & Hfinal & [e [He_in He_eq]]%some_words_spec).
  assert (index_ok (startWords this)) as Hs_ok by (rewrite Hs; apply index_ok_nil).
  assert (index_ok (endWords this)) as He_ok by (rewrite He; apply index_ok_nil).
  destruct (forEach_item_index_ok size (data this)
    {| b_startWords := startWords this; b_endWords := endWords this; b_corpus := ∅ |})
    as [Hs_after He_after].
  pose proof (buildCorpusSync_fields this) as Hfields. simpl in Hfields.
  rewrite Hfields in Hfirst, He_in. cbn [fst startWords endWords] in Hfirst, He_in.
  destruct (Hs_after Hs_ok) as [_ Hs_refs]. destruct (He_after He_ok) as [_ He_refs].
  destruct (Hs_refs first Hfirst) as [Hfirst_refs _].
  destruct (He_refs e He_in) as [He_refs' _].
  destruct (refs first) as [|x xs] eqn:Hx; [done|].
  destruct (refs e) as [|y ys] eqn:Hy; [done|].
  destruct (forEach_item_origin size [] [] (data this) (data this)
    {| b_startWords := startWords this; b_endWords := endWords this; b_corpus := ∅ |})
    as [Hs_origin He_origin]; [done| | |].
  { simpl. rewrite Hs. by intros o z ?%elem_of_nil. }
  { simpl. rewrite He. by intros o z ?%elem_of_nil. }
  destruct (Hs_origin first x Hfirst) as [(o0 & ?%elem_of_nil & _)|(Hx_in & wx & Hwx & Hkx)];
    [rewrite Hx; by left|done|].
  destruct (He_origin e y He_in) as [(o0 & ?%elem_of_nil & _)|(Hy_in & wy & Hwy & Hky)];
    [rewrite Hy; by left|done|].
  exists w, first, final, x, wx, y, wy.
  repeat (split; [done || congruence|]).
  simpl. apply uniqBy_string_not_nil.
  destruct (arr w) as [|o os]; [done|]. simpl in Hhead. injection Hhead as ->.
  simpl. rewrite Hx. done.
Qed.

Lemma sentence_starts_and_ends_as_the_data_witness :
  let this := instance_of (constructor cat_and_dog no_options) in
  startWords this = [] ∧ endWords this = [] ∧
  ∃ run r,
    generateSentenceSync 4 first_choice (buildCorpusSync this).1 no_options = Some run ∧
    outcome run = Normal r ∧ Result.refs r ≠ [].
Proof.
  intros this. split; [reflexivity|]. split; [reflexivity|]. eexists _, _.
  split; [by vm_compute|]. split; [reflexivity|].
  destruct (sentence_starts_and_ends_as_the_data this 4 first_choice no_options _ _
              eq_refl eq_refl ltac:(by vm_compute) eq_refl)
    as (w & first & final & a & wa & b & wb & H).
  exact (proj2 (proj2 (proj2 (proj2 (proj2 (proj2 (proj2 (proj2 (proj2 (proj2 (proj2 H))))))))))).
Defined.

(** ** Walks along a single line *)

Section Windows.
Implicit Types (wds : list string).

(** In a line without repeated words, a window determines its index. *)
Lemma window_inj size wds i j :
  NoDup wds → Forall no_space wds → 1 ≤ size →
  0 ≤ i → i + size ≤ Z.of_nat (length wds) →
  0 ≤ j → j + size ≤ Z.of_nat (length wds) →
  join (slice wds i (i + size)) = join (slice wds j (j + size)) → i = j.
Proof.
  intros Hdup Hwds Hsize Hi Hilen Hj Hjlen Heq.
  assert (∀ a, 0 ≤ a → a + size ≤ Z.of_nat (length wds) →
            slice wds a (a + size) ≠ []) as Hne.
  { intros a Ha Halen Hnil.
    pose proof (slice_length wds a (a + size) Ha ltac:(lia)) as Hl.
    rewrite Hnil in Hl. simpl in Hl. lia. }
  assert (slice wds i (i + size) = slice wds j (j + size)) as Hslices.
  { rewrite <- (split_join (slice wds i (i + size))), <- (split_join (slice wds j (j + size)));
      auto using slice_Forall. by rewrite Heq. }
  pose proof (slice_head wds i size Hi Hsize Hilen) as Hhi.
  pose proof (slice_head wds j size Hj Hsize Hjlen) as Hhj.
  rewrite Hslices, Hhj in Hhi.
  destruct (lookup_lt_is_Some_2 wds (Z.to_nat i)) as [x Hx]; [lia|].
  rewrite Hx in Hhi.
  pose proof (NoDup_lookup wds _ _ x Hdup Hx Hhi). lia.
Qed.

End Windows.

Section WalkEnd.
Context (rand : nat → nat) (c : gmap string (list Entry)) (endW : list Entry) (max : Z).

Lemma walk_unended_continue w w' :
  walk_unended endW max w →
  walk_body rand c endW max w = Some (inl w') → walk_unended endW max w'.
Proof.
  intros (Hne & Hended & Hlen & Hlim & Hnone). unfold walk_body.
  destruct (Z.ltb_spec (limit w) max) as [Hlt|]; [|done].
  destruct (last (arr w)) as [block|]; [|done].
  destruct (c !! words block ≫= sample (rand (pos w))) as [state|]; [|done].
  destruct (some_words endW (words state)) eqn:Hsome; [done|].
  intros [= <-]. unfold walk_unended. cbn [arr score limit ended pos].
  split; [by destruct (arr w)|]. split; [done|].
  split; [rewrite length_app; simpl; lia|]. split; [lia|].
  intros t o Ht Ho. destruct (decide (t < length (arr w))%nat) as [Hin|Hout].
  - rewrite lookup_app_l in Ho by done. by eapply Hnone.
  - rewrite lookup_app_r in Ho by lia.
    destruct (t - length (arr w))%nat; simpl in Ho; [|done]. by injection Ho as <-.
Qed.

Lemma walk_unended_exit w r :
  walk_unended endW max w →
  walk_body rand c endW max w = Some (inr r) →
  ∃ w', r = Normal w' ∧
    (∀ t o, (1 ≤ t)%nat → arr w' !! t = Some o →
       some_words endW (words o) = true → ended w' = true ∧ S t = length (arr w')) ∧
    (ended w' = false →
     Z.max 0 max ≤ Z.of_nat (length (arr w')) - 1 ∨
     ∃ block, last (arr w') = Some block ∧ available c block = []).
Proof.
  intros (Hne & Hended & Hlen & Hlim & Hnone). unfold walk_body.
  assert (∀ t o, (1 ≤ t)%nat → arr w !! t = Some o →
            some_words endW (words o) = true → ended w = true ∧ S t = length (arr w))
    as Hnever.
  { intros t o Ht Ho Hsome. rewrite (Hnone t o Ht Ho) in Hsome. done. }
  assert (1 ≤ Z.of_nat (length (arr w))) as Hpos.
  { destruct (arr w); [done|simpl; lia]. }
  destruct (Z.ltb_spec (limit w) max) as [Hlt|Hge].
  2:{ intros [= <-]. eexists. split; [done|]. split; [done|]. intros _. left. lia. }
  destruct (last (arr w)) as [block|] eqn:Hlast.
  2:{ apply last_None in Hlast. done. }
  destruct (c !! words block) as [chain|] eqn:Hchain; simpl.
  2:{ intros [= <-]. eexists. split; [done|]. split; [done|]. intros _. right.
      exists block. split; [done|]. unfold available. by rewrite Hchain. }
  destruct (sample (rand (pos w)) chain) as [state|] eqn:Hsample.
  2:{ intros [= <-]. eexists. split; [done|]. split; [done|]. intros _. right.
      exists block. split; [done|]. unfold available. rewrite Hchain. simpl.
      by eapply sample_None. }
  destruct (some_words endW (words state)) eqn:Hsome; [|done].
  intros [= <-]. eexists. split; [done|]. cbn [arr score limit ended pos].
  split; [|done]. intros t o Ht Ho Ho_end. split; [done|].
  destruct (decide (t < length (arr w))%nat) as [Hin|Hout].
  - rewrite lookup_app_l in Ho by done. rewrite (Hnone t o Ht Ho) in Ho_end. done.
  - apply lookup_lt_Some in Ho. rewrite length_app in *. simpl in *. lia.
Qed.

(** Why a walk is over: it has ended on the first end state it met after
    its start, or it has taken [max] steps, or its last state has no
    successor. *)
Lemma walk_end fuel first p r :
  loop fuel (walk_body rand c endW max)
    {| arr := [first]; score := 0; limit := 0; ended := false; pos := p |} = Some r →
  ∃ w, r = Normal w ∧
    (∀ t o, (1 ≤ t)%nat → arr w !! t = Some o →
       some_words endW (words o) = true → ended w = true ∧ S t = length (arr w)) ∧
    (ended w = false →
     Z.max 0 max ≤ Z.of_nat (length (arr w)) - 1 ∨
     ∃ block, last (arr w) = Some block ∧ available c block = []).
Proof.
  intros Hloop.
  eapply (loop_inv _ (walk_unended endW max)
            (fun r => ∃ w, r = Normal w ∧
               (∀ t o, (1 ≤ t)%nat → arr w !! t = Some o →
                  some_words endW (words o) = true →
                  ended w = true ∧ S t = length (arr w)) ∧
               (ended w = false →
                Z.max 0 max ≤ Z.of_nat (length (arr w)) - 1 ∨
                ∃ block, last (arr w) = Some block ∧ available c block = [])));
    [| | |exact Hloop].
  - apply walk_unended_continue.
  - apply walk_unended_exit.
  - repeat split; simpl; try done; try lia.
    intros t o Ht Ho. destruct t; [lia|]. done.
Qed.

End WalkEnd.

(** What holds of the end of every walk from a start entry holds of every
    attempt of a call. *)
Lemma attempts_satisfy (P : WalkState → Prop) fuel rand this opts run c :
  corpus this = Some c →
  (∀ fuel' first p w, first ∈ startWords this →
     loop fuel' (walk_body rand (cloneDeep (next_ref this) c) (endWords this)
                   (maxTries (assignIn (options this) opts)))
       {| arr := [first]; score := 0; limit := 0; ended := false; pos := p |}
     = Some (Normal w) → P w) →
  generateSentenceSync fuel rand this opts = Some run →
  Forall P (attempts run).
Proof.
  intros Hc HP. unfold generateSentenceSync. rewrite Hc. intros Hloop.
  eapply (loop_inv _ (fun t => Forall P (tried t)) (fun run => Forall P (attempts run)));
    [| | |exact Hloop]; [| |by constructor].
  - intros t t' Ht. unfold try_body.
    destruct (i t <? _); [|done].
    destruct (sample _ (startWords this)) as [first|] eqn:Hfirst; [|done].
    destruct (loop fuel (walk_body _ _ _ _) _) as [[w|e]|] eqn:Hw; [|done..].
    destruct (rejected _ w (compose w)); [|done].
    intros [= <-]. simpl. apply Forall_app. split; [done|].
    constructor; [|done]. eapply HP; [by eapply sample_elem_of|done].
  - intros t r Ht. unfold try_body.
    destruct (i t <? _); [|by intros [= <-]].
    destruct (sample _ (startWords this)) as [first|] eqn:Hfirst; [|by intros [= <-]].
    destruct (loop fuel (walk_body _ _ _ _) _) as [[w|e]|] eqn:Hw; [|by intros [= <-]|done].
    destruct (rejected _ w (compose w)); [done|].
    intros [= <-]. simpl. apply Forall_app. split; [done|].
    constructor; [|done]. eapply HP; [by eapply sample_elem_of|done].
Qed.

Section SingleLine.
Context (this : Markov) (item : JsValue) (wds : list string).
Context (Hs : startWords this = []) (He : endWords this = []).
Context (Hdata : data this = [item]) (Hline : line_words item = Normal wds).
Context (Hdup : NoDup wds).
Context (Hsize : 1 ≤ stateSize (options this)).
Context (Hfit : stateSize (options this) ≤ Z.of_nat (length wds)).
Context (Hproto : key_free "__proto__" (stateSize (options this)) (data this)).

Lemma single_line_fields :
  let size := stateSize (options this) in
  let m := (buildCorpusSync this).1 in
  startWords m = [{| words := start_key size wds; refs := [item] |}] ∧
  endWords m = [{| words := end_key size wds; refs := [item] |}] ∧
  ∃ c, corpus m = Some c ∧ corpus_from size [item] c.
Proof.
  intros size m. subst m size. rewrite buildCorpusSync_fields.
  cbn [fst startWords endWords corpus]. rewrite Hdata, Hs, He.
  cbn [forEach_item]. rewrite Hline, add_item_fields.
  split; [by destruct (corpus_loop _ _ _ _ _) as [c [e|]]|].
  split; [by destruct (corpus_loop _ _ _ _ _) as [c [e|]]|].
  eexists. split; [done|].
  pose proof (forEach_item_from (stateSize (options this)) [item] [item]
    {| b_startWords := []; b_endWords := []; b_corpus := ∅ |}) as Hfrom.
  cbn [forEach_item] in Hfrom. rewrite Hline, add_item_fields in Hfrom.
  apply Hfrom; [done|]. simpl. intros k ch Hk. by rewrite lookup_empty in Hk.
Qed.

Lemma start_key_chunk : start_key (stateSize (options this)) wds = chunk (stateSize (options this)) wds 0.
Proof. unfold start_key, chunk. do 2 f_equal. Qed.

Lemma end_key_window :
  let size := stateSize (options this) in
  let len := Z.of_nat (length wds) in
  end_key size wds = join (slice wds (len - size) ((len - size) + size)).
Proof. intros size len. unfold end_key. do 2 f_equal. lia. Qed.

(** A walk over the instance goes along the line, a block of [stateSize]
    words at each step. *)
Lemma single_line_path fuel rand opts run w t o :
  generateSentenceSync fuel rand (buildCorpusSync this).1 opts = Some run →
  w ∈ attempts run → arr w !! t = Some o →
  words o = chunk (stateSize (options this)) wds t ∧
  Z.of_nat t * stateSize (options this) + stateSize (options this)
    ≤ Z.of_nat (length wds).
Proof.
  intros Hrun Hw.
  destruct single_line_fields as (Hstart & _ & c & Hc & _).
  destruct (generateSentenceSync_spec _ _ _ _ _ _ Hc Hrun) as [Hall _].
  rewrite Forall_forall in Hall.
  destruct (Hall w Hw) as ((first & Hhead & Hfirst) & _).
  pose proof (line_words_no_space _ _ Hline) as Hwds.
  revert o. induction t as [|t IH]; intros o Ho.
  - rewrite <- head_lookup, Hhead in Ho. injection Ho as <-.
    rewrite Hstart in Hfirst. apply list_elem_of_singleton in Hfirst as ->.
    split; [apply start_key_chunk|]. lia.
  - destruct (lookup_lt_is_Some_2 (arr w) t) as [prev Hprev].
    { apply lookup_lt_Some in Ho. lia. }
    destruct (IH prev Hprev) as [Hprev_words Hprev_len].
    destruct (attempt_step this fuel rand opts run w t prev o Hproto Hrun Hw Hprev Ho)
      as (c' & chain & e & _ & _ & _ & -> & _ & Hne & Horigin).
    destruct (refs e) as [|x more]; [done|].
    destruct (Horigin x ltac:(by left))
      as (Hx & wds' & i & Hline' & Hi & _ & Hlen & Hcurr & Hnext & _).
    rewrite Hdata in Hx. apply list_elem_of_singleton in Hx as ->.
    assert (wds' = wds) as -> by congruence.
    assert (i = Z.of_nat t * stateSize (options this)) as ->.
    { apply (window_inj (stateSize (options this)) wds); try done; try lia; try nia.
      rewrite <- Hcurr, Hprev_words. done. }
    split; [|lia]. cbn [cloneDeep_entry words]. rewrite Hnext.
    unfold next_window, chunk. do 2 f_equal; lia.
Qed.

(** An attempt that has ended has gone through the whole line, whose
    length is then a multiple of [stateSize]. *)
Lemma single_line_ended fuel rand opts run w :
  generateSentenceSync fuel rand (buildCorpusSync this).1 opts = Some run →
  w ∈ attempts run → ended w = true →
  Z.of_nat (length wds) = Z.of_nat (length (arr w)) * stateSize (options this).
Proof.
  intros Hrun Hw Hended.
  destruct single_line_fields as (_ & Hend & c & Hc & _).
  destruct (generateSentenceSync_spec _ _ _ _ _ _ Hc Hrun) as [Hall _].
  rewrite Forall_forall in Hall.
  destruct (Hall w Hw) as (_ & _ & _ & _ & Hlast).
  destruct (Hlast Hended) as (Htwo & o & Ho & [e [He_in He_eq]]%some_words_spec).
  rewrite Hend in He_in. apply list_elem_of_singleton in He_in as ->.
  cbn [words] in He_eq.
  rewrite last_lookup in Ho.
  destruct (single_line_path fuel rand opts run w _ o Hrun Hw Ho) as [Hwords Hlen].
  pose proof (line_words_no_space _ _ Hline) as Hwds.
  pose proof end_key_window as Hkey. simpl in Hkey. rewrite Hkey in He_eq.
  assert (Z.of_nat (length wds) - stateSize (options this)
          = Z.of_nat (Nat.pred (length (arr w))) * stateSize (options this))
    as Hidx.
  { apply (window_inj (stateSize (options this)) wds); try done; try lia; try nia.
    rewrite He_eq, Hwords. done. }
  lia.
Qed.

End SingleLine.

(** X19.  An instance built from a single item whose words are all
    different and are at least [stateSize], but not a multiple of
    [stateSize], in number never gives a sentence: a walk goes along the line
    in blocks of [stateSize] words and cannot arrive on the last
    [stateSize] words, so no attempt ends and every call that returns fails
    with [GenerationExhausted]. *)
Theorem line_of_other_length_is_never_regenerated (this : Markov)
    (item : JsValue) (wds : list string) fuel rand opts run :
  startWords this = [] → endWords this = [] →
  data this = [item] → line_words item = Normal wds → NoDup wds →
  let size := stateSize (options this) in
  1 ≤ size → size ≤ Z.of_nat (length wds) → ¬ (size | Z.of_nat (length wds)) →
  generateSentenceSync fuel rand (buildCorpusSync this).1 opts = Some run →
  outcome run = Throw GenerationExhausted ∧
  Forall (fun w => ended w = false) (attempts run).
Proof.
  intros Hs He Hdata Hline Hdup size Hsize Hfit Hodd Hrun.
  assert (key_free "__proto__" (stateSize (options this)) (data this)) as Hproto.
  { intros Hone. destruct Hodd. exists (Z.of_nat (length wds)).
    subst size. rewrite Hone. lia. }
  assert (Forall (fun w => ended w = false) (attempts run)) as Hnone.
  { apply Forall_forall. intros w Hw. destruct (ended w) eqn:Hended; [|done].
    destruct Hodd. exists (Z.of_nat (length (arr w))).
    by eapply (single_line_ended this item wds). }
  split; [|done].
  destruct (single_line_fields this item wds Hs He Hdata Hline)
    as (Hstart & _ & c & Hc & _).
  destruct (generateSentenceSync_spec _ _ _ _ _ _ Hc Hrun) as [_ Hok].
  destruct (outcome run) as [r|[]]; try done.
  - destruct Hok as (ws & w & Hatt & -> & Hrej & _).
    apply rejected_false in Hrej as [Hended _].
    rewrite Hatt in Hnone. apply Forall_app in Hnone as [_ Hw].
    inversion Hw; subst. congruence.
  - destruct Hok as [Hempty _]. by rewrite Hstart in Hempty.
Qed.

Lemma line_of_other_length_is_never_regenerated_witness :
  let item := JObject 1 (Some (JString "a b c d e")) in
  let this := instance_of (constructor [item] (only_maxTries 3)) in
  ∃ run, generateSentenceSync 4 first_choice (buildCorpusSync this).1 no_options
         = Some run ∧
         outcome run = Throw GenerationExhausted.
Proof.
  intros item this. eexists. split; [by vm_compute|].
  refine (proj1 (line_of_other_length_is_never_regenerated this item
            ["a"; "b"; "c"; "d"; "e"] 4 first_choice no_options _
            eq_refl eq_refl eq_refl eq_refl _ _ _ _ _)).
  - apply (bool_decide_unpack _). by vm_compute.
  - done.
  - done.
  - intros [q Hq]. change (5 = q * 2) in Hq. lia.
  - by vm_compute.
Defined.

(** ** A single line that is regenerated *)

Section Joins.
Implicit Types (ws : list string).

Lemma join_cons w ws : ws ≠ [] → join (w :: ws) = w +:+ String space (join ws).
Proof. by destruct ws. Qed.

Lemma append_cons (x : ascii) (a b : string) : String x a +:+ b = String x (a +:+ b).
Proof. reflexivity. Qed.

Lemma append_assoc (a b c : string) : (a +:+ b) +:+ c = a +:+ (b +:+ c).
Proof. induction a as [|x a IH]; [done|]. by rewrite !append_cons, IH. Qed.

Lemma join_app ws1 ws2 :
  ws1 ≠ [] → ws2 ≠ [] → join (ws1 ++ ws2) = join ws1 +:+ String space (join ws2).
Proof.
  intros H1 H2. induction ws1 as [|w ws1 IH]; [done|].
  destruct ws1 as [|w' ws1'].
  - simpl app. by rewrite join_cons.
  - rewrite <- app_comm_cons, join_cons by done.
    rewrite IH by done. rewrite (join_cons w (w' :: ws1')) by done.
    by rewrite append_assoc.
Qed.

Lemma join_not_empty ws :
  ws ≠ [] → Forall (fun w => w ≠ "") ws → join ws ≠ "".
Proof.
  intros Hne Hall. destruct ws as [|w ws]; [done|].
  inversion Hall as [|? ? Hw _]; subst.
  destruct ws; simpl; [done|]. by destruct w.
Qed.

(** The blocks of a line whose length is a multiple of [size] join into
    the join of the line. *)
Lemma join_chunks (size : Z) (k : nat) ws :
  1 ≤ size → Z.of_nat (length ws) = Z.of_nat (S k) * size →
  join (chunk size ws <$> seq 0 (S k)) = join ws.
Proof.
  intros Hsize. revert ws. induction k as [|k IH]; intros ws Hlen.
  - simpl. unfold chunk. rewrite Z.mul_0_l, slice_take_drop by lia.
    simpl. rewrite take_ge; [done|]. rewrite length_drop. lia.
  - assert (chunk size ws <$> seq 0 (S (S k))
            = join (take (Z.to_nat size) ws)
              :: (chunk size (drop (Z.to_nat size) ws) <$> seq 0 (S k))) as ->.
    { change (seq 0 (S (S k))) with (0%nat :: seq 1 (S k)).
      rewrite fmap_cons. f_equal.
      - unfold chunk. rewrite Z.mul_0_l, slice_take_drop by lia. done.
      - rewrite <- fmap_S_seq, <- list_fmap_compose. apply list_fmap_ext.
        intros j t [-> Hj]%lookup_seq. simpl. unfold chunk.
        rewrite !slice_take_drop; rewrite ?length_drop; try nia.
        rewrite drop_drop. do 3 f_equal.
        rewrite <- Z2Nat.inj_add by nia. f_equal. lia. }
    rewrite join_cons by done.
    rewrite IH by (rewrite length_drop; nia).
    rewrite <- (take_drop (Z.to_nat size) ws) at 3.
    rewrite join_app; [done| |].
    + intros Hnil. apply (f_equal length) in Hnil. rewrite length_take in Hnil.
      simpl in Hnil. nia.
    + intros Hnil. apply (f_equal length) in Hnil. rewrite length_drop in Hnil.
      simpl in Hnil. nia.
Qed.

Lemma NoDup_fmap_constant {A B : Type} (f : A → B) (l : list A) :
  NoDup (f <$> l) → (∀ x y, x ∈ l → y ∈ l → f x = f y) → (length l ≤ 1)%nat.
Proof.
  intros Hdup Hsame. destruct l as [|a [|b l]]; simpl; [lia..|].
  rewrite !fmap_cons in Hdup. apply NoDup_cons in Hdup as [Hnot _].
  destruct Hnot. rewrite (Hsame a b) by (by left || by right; left). by left.
Qed.

End Joins.

Lemma walk_end_normal rand c endW max fuel first p w :
  loop fuel (walk_body rand c endW max)
    {| arr := [first]; score := 0; limit := 0; ended := false; pos := p |}
  = Some (Normal w) →
  (∀ t o, (1 ≤ t)%nat → arr w !! t = Some o →
     some_words endW (words o) = true → ended w = true ∧ S t = length (arr w)) ∧
  (ended w = false →
   Z.max 0 max ≤ Z.of_nat (length (arr w)) - 1 ∨
   ∃ block, last (arr w) = Some block ∧ available c block = []).
Proof.
  intros Hloop. destruct (walk_end _ _ _ _ _ _ _ _ Hloop) as (w' & [= <-] & Hprops).
  exact Hprops.
Qed.

Section WholeLine.
Context (this : Markov) (item : JsValue) (wds : list string) (k : nat)
  (opts : OptionsArg).
Context (Hs : startWords this = []) (He : endWords this = []).
Context (Hdata : data this = [item]) (Hline : line_words item = Normal wds).
Context (Hdup : NoDup wds) (Hwords : Forall (fun w => w ≠ "") wds).
Context (Hsize : 1 ≤ stateSize (options this)) (Hk : (2 ≤ k)%nat).
Context (Hlen : Z.of_nat (length wds) = Z.of_nat k * stateSize (options this)).
Context (Hplain : stateSize (options this) = 1 →
                  ("hasOwnProperty" ∉ wds) ∧ ("__proto__" ∉ wds)).
Context (Hfree : no_constraint (assignIn (options this) opts)).
Context (Hmax : Z.of_nat k - 1 ≤ maxTries (assignIn (options this) opts)).

Lemma whole_line_fit : stateSize (options this) ≤ Z.of_nat (length wds).
Proof. nia. Qed.

Lemma whole_line_end_key :
  end_key (stateSize (options this)) wds
  = chunk (stateSize (options this)) wds (k - 1).
Proof. unfold end_key, chunk. do 2 f_equal; nia. Qed.

Lemma whole_line_options : options (buildCorpusSync this).1 = options this.
Proof. by rewrite buildCorpusSync_fields. Qed.

(** The build raises nothing, and the corpus has every transition of the
    line. *)
Lemma whole_line_has i curr next :
  transition_at (stateSize (options this)) wds i curr next →
  ∃ c, corpus (buildCorpusSync this).1 = Some c ∧ has_transition c curr next item.
Proof.
  intros Hat. eexists. split; [apply buildCorpusSync_corpus|].
  pose proof (line_words_no_space _ _ Hline) as Hwds.
  assert ((buildCorpusSync this).2 = None) as Hnone.
  { apply buildCorpusSync_error; rewrite Hdata.
    - intros Hone x wx ->%list_elem_of_singleton Hx.
      assert (wx = wds) as -> by congruence. by apply Hplain.
    - constructor; [|done]. apply line_words_well_formed. eauto. }
  rewrite buildCorpusSync_fields in Hnone. cbn [snd] in Hnone.
  eapply forEach_item_has_transition; [done|rewrite Hdata; by left|done..|].
  intros Hproto. destruct Hat as (Hi & Hone & Hfull & Hcurr & Hnext & Hne).
  destruct (written_key (stateSize (options this)) wds i "__proto__") as [Hsize1 Hin];
    [done|done| |done|by rewrite <- Hcurr|].
  - apply corpus_step_test; [done..|]. simpl. by rewrite <- Hnext.
  - by destruct (Hplain Hsize1).
Qed.

Lemma whole_line_proto : key_free "__proto__" (stateSize (options this)) (data this).
Proof.
  intros Hone x wx Hx Hwx. rewrite Hdata in Hx. apply list_elem_of_singleton in Hx as ->.
  assert (wx = wds) as -> by congruence. by apply Hplain.
Qed.

(** Every attempt ends. *)
Lemma whole_line_attempt_ends fuel rand run w :
  generateSentenceSync fuel rand (buildCorpusSync this).1 opts = Some run →
  w ∈ attempts run → ended w = true.
Proof.
  intros Hrun Hw.
  pose proof whole_line_fit as Hfit.
  pose proof whole_line_proto as Hproto.
  destruct (single_line_fields this item wds Hs He Hdata Hline)
    as (_ & Hend & c & Hc & _).
  assert (Forall (fun w =>
    (∀ t o, (1 ≤ t)%nat → arr w !! t = Some o →
       some_words (endWords (buildCorpusSync this).1) (words o) = true →
       ended w = true ∧ S t = length (arr w)) ∧
    (ended w = false →
     Z.max 0 (maxTries (assignIn (options (buildCorpusSync this).1) opts))
       ≤ Z.of_nat (length (arr w)) - 1 ∨
     ∃ block, last (arr w) = Some block ∧
       available (cloneDeep (next_ref (buildCorpusSync this).1) c) block = []))
    (attempts run))
    as Hends.
  { eapply attempts_satisfy; [exact Hc| |exact Hrun].
    intros fuel' first p w' _ Hloop. by eapply walk_end_normal. }
  rewrite Forall_forall in Hends. destruct (Hends w Hw) as [Hfirst_end Hwhy].
  rewrite whole_line_options in Hwhy.
  destruct (ended w) eqn:Hended; [done|]. exfalso.
  pose proof (line_words_no_space _ _ Hline) as Hwds.
  destruct (generateSentenceSync_spec _ _ _ _ _ _ Hc Hrun) as [Hall _].
  rewrite Forall_forall in Hall. destruct (Hall w Hw) as ((first & Hhead & _) & _).
  assert (arr w ≠ []) as Hne by (by destruct (arr w)).
  destruct (lookup_lt_is_Some_2 (arr w) (Nat.pred (length (arr w)))) as [block Hblock].
  { destruct (arr w); [done|simpl; lia]. }
  destruct (single_line_path this item wds Hs He Hdata Hline Hdup Hsize Hfit Hproto
              fuel rand opts run w _ block Hrun Hw Hblock) as [Hblock_words Hblock_len].
  assert (length (arr w) < k)%nat as Hshort.
  { destruct (decide (length (arr w) < k)%nat) as [|Hlong]; [done|].
    assert (length (arr w) = k) as Heq by nia.
    destruct (Hfirst_end (k - 1)%nat block) as [Htrue _]; [lia| | |congruence].
    - by replace (k - 1)%nat with (Nat.pred (length (arr w))) by lia.
    - rewrite Hend. simpl. rewrite orb_false_r. apply String.eqb_eq.
      rewrite whole_line_end_key, Hblock_words. f_equal. lia. }
  destruct (Hwhy eq_refl) as [Hlimit|(block' & Hlast & Hdead)]; [lia|].
  rewrite last_lookup, Hblock in Hlast. injection Hlast as <-.
  set (t := Nat.pred (length (arr w))) in *.
  set (size := stateSize (options this)) in *.
  destruct (whole_line_has (Z.of_nat t * size) (words block)
              (join (next_window size wds (Z.of_nat t * size))))
    as (c' & Hc' & chain & o & Hlook & Hin & _).
  { repeat split; try done; try nia.
    apply join_not_empty; [|by apply slice_Forall].
    intros Hnil. apply (f_equal length) in Hnil.
    pose proof (slice_length wds (Z.of_nat t * size + size)
                  (Z.of_nat t * size + size * 2) ltac:(nia) ltac:(nia)) as Hl.
    unfold next_window in Hnil. rewrite Hnil in Hl. simpl in Hl. nia. }
  assert (c' = c) as -> by congruence.
  rewrite available_cloneDeep_plain in Hdead
    by by eapply (buildCorpusSync_keeps_free "__proto__").
  apply fmap_nil_inv in Hdead.
  unfold available in Hdead. rewrite Hlook in Hdead. simpl in Hdead.
  rewrite Hdead in Hin. by apply elem_of_nil in Hin.
Qed.

(** An attempt goes through the [k] blocks of the line. *)
Lemma whole_line_path fuel rand run w :
  generateSentenceSync fuel rand (buildCorpusSync this).1 opts = Some run →
  w ∈ attempts run →
  words <$> arr w = chunk (stateSize (options this)) wds <$> seq 0 k.
Proof.
  intros Hrun Hw.
  pose proof whole_line_fit as Hfit.
  pose proof whole_line_proto as Hproto.
  pose proof (whole_line_attempt_ends fuel rand run w Hrun Hw) as Hended.
  pose proof (single_line_ended this item wds Hs He Hdata Hline Hdup Hsize Hfit Hproto
                fuel rand opts run w Hrun Hw Hended) as Hwhole.
  assert (length (arr w) = k) as Hlength by nia.
  apply list_eq. intros t. rewrite !list_lookup_fmap.
  destruct (arr w !! t) as [o|] eqn:Ho; simpl.
  - destruct (single_line_path this item wds Hs He Hdata Hline Hdup Hsize Hfit Hproto
                fuel rand opts run w t o Hrun Hw Ho) as [-> _].
    apply lookup_lt_Some in Ho. by rewrite lookup_seq_lt by lia.
  - apply lookup_ge_None in Ho. by rewrite lookup_seq_ge by lia.
Qed.

End WholeLine.

Lemma not_rejected (o : MarkovOptions) (w : WalkState) (r : Result.t) :
  no_constraint o → ended w = true → rejected o w r = false.
Proof.
  intros (Hlen & Hmin & Hmax & Hscore & Hper & Hchk & Hflt) Hended.
  unfold rejected. rewrite Hended, Hlen, Hmin, Hmax, Hscore, Hper, Hchk, Hflt. done.
Qed.

Lemma sum_zero {A : Type} (f : A → Z) (l : list A) :
  (∀ x, x ∈ l → f x = 0) → foldr Z.add 0 (f <$> l) = 0.
Proof.
  induction l as [|x l IH]; [done|].
  intros Hall. rewrite fmap_cons. cbn [foldr].
  rewrite (Hall x) by by left. rewrite IH; [done|].
  intros y Hy. apply Hall. by right.
Qed.

(** The values that come after one with the same key are dropped. *)
Lemma uniqBy_string_same_key (x : JsValue) (l : list JsValue) :
  (∀ y, y ∈ l → string_of y = string_of x) → uniqBy_string (x :: l) = [x].
Proof.
  intros Hall. unfold uniqBy_string. simpl. f_equal.
  assert (includes [string_of x] (string_of x) = true) as Hseen.
  { simpl. by rewrite same_value_zero_refl. }
  revert Hseen. generalize [string_of x] as seen.
  induction l as [|y l IH]; intros seen Hseen; simpl; [done|].
  rewrite (Hall y) by by left. rewrite Hseen. apply IH; [|done].
  intros z Hz. apply Hall. by right.
Qed.

(** X20.  An instance built from a single item whose words are all
    different, none of them empty, and are [k] times [stateSize] in number,
    [k] at least 2, gives that item back, provided that no key of the line
    is [hasOwnProperty] or [__proto__] (with a [stateSize] of 1, no word of
    the line): with options that put no constraint on the sentence and a
    [maxTries] of at least [k - 1], every call of [generateSentenceSync]
    returns at its first attempt, whatever the random choices, and the
    result has the line of the item, trimmed, as its sentence, the score and
    the score per word 0, and the item as its only ref. *)
Theorem single_line_is_regenerated (this : Markov) (ref : nat) (line : string)
    (k : nat) (opts : OptionsArg) (fuel : nat) (rand : nat → nat) :
  let item := JObject ref (Some (JString line)) in
  let size := stateSize (options this) in
  let o := assignIn (options this) opts in
  startWords this = [] → endWords this = [] → data this = [item] →
  NoDup (split line) → Forall (fun w => w ≠ "") (split line) →
  1 ≤ size → (2 ≤ k)%nat → Z.of_nat (length (split line)) = Z.of_nat k * size →
  (size = 1 → ("hasOwnProperty" ∉ split line) ∧ ("__proto__" ∉ split line)) →
  no_constraint o → Z.of_nat k - 1 ≤ maxTries o → (Z.to_nat (maxTries o) < fuel)%nat →
  ∃ w, generateSentenceSync fuel rand (buildCorpusSync this).1 opts
       = Some {| outcome := Normal (compose w); attempts := [w] |} ∧
       Result.string (compose w) = trim line ∧
       Result.score (compose w) = 0 ∧ Result.scorePerWord (compose w) = 0 ∧
       Result.refs (compose w) = [item].
Proof.
  intros item size o Hs He Hdata Hdup Hwords Hsize Hk Hlen Hplain Hfree Hmax Hfuel.
  unfold size in *. clear size.
  set (wds := split line) in *.
  assert (line_words item = Normal wds) as Hline by done.
  assert (stateSize (options this) ≤ Z.of_nat (length wds)) as Hfit by nia.
  pose proof (line_words_no_space _ _ Hline) as Hwds.
  pose proof (whole_line_options this) as Hopts.
  pose proof (whole_line_proto this item wds Hdata Hline Hplain) as Hproto.
  destruct (generateSentenceSync_terminates fuel rand (buildCorpusSync this).1 opts)
    as [run Hrun]; [by rewrite Hopts|].
  destruct (single_line_fields this item wds Hs He Hdata Hline)
    as (Hstart & _ & c & Hc & Hfrom).
  destruct (generateSentenceSync_spec _ _ _ _ _ _ Hc Hrun) as [Hall Hok].
  rewrite Hopts in Hok. fold o in Hok.
  assert (∀ w, w ∈ attempts run → rejected o w (compose w) = false) as Haccept.
  { intros w Hw. apply not_rejected; [done|].
    by eapply (whole_line_attempt_ends this item wds k opts). }
  assert (∃ w, run = {| outcome := Normal (compose w); attempts := [w] |}) as [w ->].
  { destruct run as [out att]. simpl in *. destruct out as [r|[]]; try done.
    - destruct Hok as (ws & w & -> & -> & _ & Hgiven & _). exists w. f_equal.
      destruct ws as [|w0 ws]; [done|]. inversion Hgiven as [|? ? Hup _]; subst.
      unfold given_up in Hup. rewrite Haccept in Hup; [done|by left].
    - destruct Hok as [Hgiven Hcount].
      destruct att as [|w0 att]; [simpl in Hcount; lia|].
      inversion Hgiven as [|? ? Hup _]; subst.
      unfold given_up in Hup. rewrite Haccept in Hup; [done|by left].
    - destruct Hok as [Hempty _]. by rewrite Hstart in Hempty. }
  exists w. split; [done|].
  assert (w ∈ attempts {| outcome := Normal (compose w); attempts := [w] |}) as Hw
    by by left.
  assert (words <$> arr w = chunk (stateSize (options this)) wds <$> seq 0 k) as Hpath.
  { by eapply (whole_line_path this item wds k opts). }
  rewrite Forall_forall in Hall.
  destruct (Hall w Hw) as ((first & Hhead & Hfirst) & Hchain & Hscore & _).
  assert (score w = 0) as Hzero.
  { rewrite Hscore, walk_score_cloneDeep by done. unfold walk_score. apply sum_zero.
    intros b Hb.
    pose proof (chain_path_available _ _ b Hchain Hb) as Hsome.
    rewrite available_cloneDeep in Hsome.
    2:{ intros Hnil. rewrite Hnil in Hsome. simpl in Hsome. lia. }
    apply removelast_elem in Hb as (t & b' & Hb & Hb').
    destruct (attempt_step this fuel rand opts _ w t b b' Hproto Hrun Hw Hb Hb')
      as (c' & chain & e0 & Hc' & Hlook & _ & _ & Hnodup & _).
    assert (c' = c) as -> by congruence.
    destruct (single_line_path this item wds Hs He Hdata Hline Hdup Hsize Hfit Hproto
                fuel rand opts _ w t b Hrun Hw Hb) as [Hb_words Hb_len].
    destruct (Hfrom _ _ Hlook) as (_ & _ & Hrefs).
    assert (∀ e, e ∈ chain →
              words e = join (next_window (stateSize (options this)) wds
                                (Z.of_nat t * stateSize (options this)))) as Hsame.
    { intros e Hein. destruct (Hrefs e Hein) as [Hne Horigin].
      destruct (refs e) as [|x more]; [done|].
      destruct (Horigin x ltac:(by left))
        as (Hx & wds' & i & Hline' & Hi & _ & Hilen & Hcurr & Hnext & _).
      apply list_elem_of_singleton in Hx as ->.
      assert (wds' = wds) as -> by congruence.
      assert (i = Z.of_nat t * stateSize (options this)) as ->; [|done].
      apply (window_inj (stateSize (options this)) wds); try done; try lia; try nia.
      rewrite <- Hcurr, Hb_words. done. }
    assert (length chain ≤ 1)%nat as Hone.
    { apply (NoDup_fmap_constant words); [done|].
      intros e1 e2 H1 H2. by rewrite (Hsame e1), (Hsame e2). }
    unfold available in *. rewrite Hlook in *. simpl in *. lia. }
  split; [|split; [done|split]].
  - simpl. rewrite Hpath. destruct k as [|k']; [lia|].
    rewrite join_chunks by done. unfold wds. by rewrite join_split.
  - simpl. rewrite Hzero. unfold ceil_div. simpl. by rewrite Zdiv_0_l.
  - cbn [compose Result.refs].
    destruct (arr w) as [|e es] eqn:Harr; [done|]. simpl in Hhead. injection Hhead as ->.
    rewrite Hstart in Hfirst. apply list_elem_of_singleton in Hfirst as ->.
    rewrite fmap_cons. cbn [concat refs app].
    apply uniqBy_string_same_key. intros y Hy.
    apply list_elem_of_In, in_concat in Hy as (l & Hl & Hyl).
    apply list_elem_of_In, list_elem_of_fmap in Hl as (e & -> & He_in).
    apply list_elem_of_In in Hyl.
    apply list_elem_of_lookup in He_in as [t Ht].
    assert (arr w !! S t = Some e) as Hnext by (by rewrite Harr).
    destruct (lookup_lt_is_Some_2 (arr w) t) as [prev Hprev].
    { apply lookup_lt_Some in Hnext. lia. }
    destruct (attempt_step this fuel rand opts _ w t prev e Hproto Hrun Hw Hprev Hnext)
      as (c' & chain & e0 & _ & _ & _ & -> & _ & _ & Horigin).
    cbn [cloneDeep_entry refs] in Hyl.
    apply list_elem_of_fmap in Hyl as (x & -> & Hx).
    destruct (Horigin x Hx) as [Hin _].
    rewrite Hdata in Hin. by apply list_elem_of_singleton in Hin as ->.
Qed.

Lemma single_line_is_regenerated_witness :
  let this := instance_of (constructor [JString "a b c d"] (with_stateSize 1 no_options)) in
  stateSize (options this) = 1 ∧
  ∃ w, generateSentenceSync 5 first_choice (buildCorpusSync this).1 (only_maxTries 4)
       = Some {| outcome := Normal (compose w); attempts := [w] |} ∧
       Result.string (compose w) = trim "a b c d".
Proof.
  intros this. split; [reflexivity|].
  destruct (single_line_is_regenerated this 1 "a b c d" 4 (only_maxTries 4) 5
              first_choice) as (w & Hrun & Hstring & _).
  - reflexivity.
  - reflexivity.
  - reflexivity.
  - apply (bool_decide_unpack _). by vm_compute.
  - apply (bool_decide_unpack _). by vm_compute.
  - done.
  - lia.
  - reflexivity.
  - intros _. split; apply (bool_decide_unpack _); by vm_compute.
  - by repeat split.
  - vm_compute. by intros [=].
  - vm_compute. lia.
  - by exists w.
Defined.
